(** * My List service: cursor pagination over an LRU+TTL read cache

    Shallow embedding of the core of the service:
    - [src/utils/cache.ts]            the [InMemoryCache] class;
    - [services/myListService.ts]     cursor codec, cache key, add / remove / list;
    - [controllers/myListController.ts] and [middleware/errorHandler.ts]
                                      the HTTP binding of the list operation.

    Conventions.  JavaScript numbers that the code uses as counters, sizes,
    millisecond timestamps and limits are integers and are modelled in [Z];
    [Number.POSITIVE_INFINITY] is a separate constructor.  [Date.now()] and
    [new Date()] are an explicit argument [now] of the operations that read
    the clock.  A JavaScript string is represented by the bytes of its UTF-8
    encoding, so that [Buffer.from(s, 'utf8')] and [buf.toString('utf8')] are
    the identity on representations. *)

From Stdlib Require Import ZArith List String Ascii Bool Lia Arith.
From Stdlib Require Import DecimalString DecimalZ.
From Stdlib Require Import Sorting.Sorted Sorting.Permutation.
Import ListNotations.

Local Open Scope string_scope.
Local Open Scope list_scope.
Local Open Scope Z_scope.

(* ================================================================== *)
(** * [src/utils/cache.ts] *)
(* ================================================================== *)

Module Cache.

(** A JavaScript number that is either an integer or [+Infinity]
    ([expiresAt], and [lowestCounter] in the eviction scan). *)
Inductive Num : Type :=
| Fin (z : Z)
| PosInf.

(** [a < b] where [a] is finite. *)
Definition lt_num (a : Z) (b : Num) : bool :=
  match b with
  | Fin z => a <? z
  | PosInf => true
  end.

(** [a > b] where [a] is finite. *)
Definition gt_num (a : Z) (b : Num) : bool :=
  match b with
  | Fin z => a >? z
  | PosInf => false
  end.

Record CacheOptions : Type := mkOptions {
  ttlSeconds : Z;
  maxItems : Z
}.

Section WithValue.

Variable Value : Type.

Record CacheEntry : Type := mkEntry {
  value : Value;
  expiresAt : Num;
  lastAccessCounter : Z
}.

(** The [Map<string, CacheEntry>]: entries in insertion order. *)
Definition Store : Type := list (string * CacheEntry).

Fixpoint map_get (key : string) (m : Store) : option CacheEntry :=
  match m with
  | [] => None
  | (k, e) :: rest => if String.eqb k key then Some e else map_get key rest
  end.

(** [Map.prototype.set]: an existing key keeps its position, a new key goes
    to the end. *)
Fixpoint map_set (key : string) (e : CacheEntry) (m : Store) : Store :=
  match m with
  | [] => [(key, e)]
  | (k, e0) :: rest =>
      if String.eqb k key then (k, e) :: rest else (k, e0) :: map_set key e rest
  end.

Fixpoint map_delete (key : string) (m : Store) : Store :=
  match m with
  | [] => []
  | (k, e) :: rest =>
      if String.eqb k key then rest else (k, e) :: map_delete key rest
  end.

Definition map_size (m : Store) : Z := Z.of_nat (List.length m).

Record InMemoryCache : Type := mkCache {
  store : Store;
  options : CacheOptions;
  accessCounter : Z
}.

(** [new InMemoryCache(options)] *)
Definition new (opts : CacheOptions) : InMemoryCache :=
  mkCache [] opts 0.

(** [get(key)], reading [Date.now()] as [now]. *)
Definition get (c : InMemoryCache) (key : string) (now : Z)
  : option Value * InMemoryCache :=
  match map_get key (store c) with
  | None => (None, c)
  | Some entry =>
      if (ttlSeconds (options c) >? 0) && gt_num now (expiresAt entry) then
        (None, mkCache (map_delete key (store c)) (options c) (accessCounter c))
      else
        let counter := accessCounter c + 1 in
        (Some (value entry),
         mkCache (map_set key (mkEntry (value entry) (expiresAt entry) counter) (store c))
                 (options c) counter)
  end.

(** The loop of [enforceMaxItems]: [lruKey] and [lowestCounter] are the two
    local variables. *)
Fixpoint lruScan (entries : Store) (lruKey : option string) (lowestCounter : Num)
  : option string * Num :=
  match entries with
  | [] => (lruKey, lowestCounter)
  | (key, entry) :: rest =>
      if lt_num (lastAccessCounter entry) lowestCounter
      then lruScan rest (Some key) (Fin (lastAccessCounter entry))
      else lruScan rest lruKey lowestCounter
  end.

Definition enforceMaxItems (c : InMemoryCache) : InMemoryCache :=
  if map_size (store c) <=? maxItems (options c) then c
  else
    match fst (lruScan (store c) None PosInf) with
    | Some lruKey => mkCache (map_delete lruKey (store c)) (options c) (accessCounter c)
    | None => c
    end.

(** [set(key, value)], reading [Date.now()] as [now]. *)
Definition set (c : InMemoryCache) (key : string) (v : Value) (now : Z)
  : InMemoryCache :=
  let expires :=
    if ttlSeconds (options c) >? 0
    then Fin (now + ttlSeconds (options c) * 1000)
    else PosInf in
  let counter := accessCounter c + 1 in
  enforceMaxItems
    (mkCache (map_set key (mkEntry v expires counter) (store c)) (options c) counter).

Definition delete (c : InMemoryCache) (key : string) : InMemoryCache :=
  mkCache (map_delete key (store c)) (options c) (accessCounter c).

Definition clear (c : InMemoryCache) : InMemoryCache :=
  mkCache [] (options c) 0.

(** The cache inside [set], after [this.store.set(...)] and before
    [this.enforceMaxItems()]. *)
Definition before_eviction (c : InMemoryCache) (key : string) (v : Value) (now : Z)
  : InMemoryCache :=
  mkCache
    (map_set key
       (mkEntry v
          (if ttlSeconds (options c) >? 0
           then Fin (now + ttlSeconds (options c) * 1000) else PosInf)
          (accessCounter c + 1))
       (store c))
    (options c) (accessCounter c + 1).

(** A run of [set] calls, each with its key, value and clock reading. *)
Definition insert_key (i : string * Value * Z) : string := fst (fst i).

Definition insert_all (c : InMemoryCache) (inserts : list (string * Value * Z))
  : InMemoryCache :=
  fold_left (fun c0 i => set c0 (insert_key i) (snd (fst i)) (snd i)) inserts c.

(** The states a cache built with [opts] can be in: any sequence of the four
    public operations, at any clock readings. *)
Inductive reachable (opts : CacheOptions) : InMemoryCache -> Prop :=
| reach_new : reachable opts (new opts)
| reach_get c key now : reachable opts c -> reachable opts (snd (get c key now))
| reach_set c key v now : reachable opts c -> reachable opts (set c key v now)
| reach_delete c key : reachable opts c -> reachable opts (delete c key)
| reach_clear c : reachable opts c -> reachable opts (clear c).

Definition keys (m : Store) : list string := map fst m.

(** Every stored recency counter was handed out by the cache, and keys are
    the keys of a map. *)
Definition counters_bounded (bound : Z) (m : Store) : Prop :=
  Forall (fun ke => lastAccessCounter (snd ke) <= bound) m.

Definition wf (c : InMemoryCache) : Prop :=
  NoDup (keys (store c)) /\ counters_bounded (accessCounter c) (store c).

(** Counters strictly increase along the insertion order. *)
Fixpoint ascending (bound : Z) (m : Store) : Prop :=
  match m with
  | [] => True
  | (_, e) :: rest =>
      bound < lastAccessCounter e /\ ascending (lastAccessCounter e) rest
  end.

End WithValue.

Arguments mkEntry {Value}.
Arguments value {Value}.
Arguments expiresAt {Value}.
Arguments lastAccessCounter {Value}.
Arguments map_get {Value}.
Arguments map_set {Value}.
Arguments map_delete {Value}.
Arguments map_size {Value}.
Arguments mkCache {Value}.
Arguments store {Value}.
Arguments options {Value}.
Arguments accessCounter {Value}.
Arguments new {Value}.
Arguments get {Value}.
Arguments lruScan {Value}.
Arguments enforceMaxItems {Value}.
Arguments set {Value}.
Arguments delete {Value}.
Arguments insert_all {Value}.
Arguments insert_key {Value}.
Arguments before_eviction {Value}.
Arguments clear {Value}.
Arguments reachable {Value}.
Arguments reach_new {Value}.
Arguments reach_get {Value}.
Arguments reach_set {Value}.
Arguments reach_delete {Value}.
Arguments reach_clear {Value}.
Arguments keys {Value}.
Arguments counters_bounded {Value}.
Arguments wf {Value}.
Arguments ascending {Value}.

End Cache.

(* ================================================================== *)
(** * The runtime's base64 codec: [buf.toString('base64')] and
      [Buffer.from(s, 'base64')] *)
(* ================================================================== *)

Module Base64.

Definition byte (c : ascii) : Z := Z.of_N (N_of_ascii c).
Definition chr (z : Z) : ascii := ascii_of_N (Z.to_N z).

Definition alphabet : list ascii :=
  list_ascii_of_string
    "ABCDEFGHIJKLMNOPQRSTUVWXYZabcdefghijklmnopqrstuvwxyz0123456789+/".

(** The character of a 6-bit value. *)
Definition base64char (v : Z) : ascii := nth (Z.to_nat v) alphabet "="%char.

(** The 6-bit value of a character; the decoder also takes the URL-safe
    [-] and [_]. *)
Definition unbase64 (c : ascii) : option Z :=
  let v := byte c in
  if (65 <=? v) && (v <=? 90) then Some (v - 65)
  else if (97 <=? v) && (v <=? 122) then Some (v - 71)
  else if (48 <=? v) && (v <=? 57) then Some (v + 4)
  else if (v =? 43) || (v =? 45) then Some 62
  else if (v =? 47) || (v =? 95) then Some 63
  else None.

(** [buf.toString('base64')]: three bytes give four characters, the last
    group is padded with [=]. *)
Fixpoint encode_bytes (bs : list ascii) : list ascii :=
  match bs with
  | a :: b :: c :: rest =>
      let n := byte a * 65536 + byte b * 256 + byte c in
      base64char (n / 262144) :: base64char ((n / 4096) mod 64)
        :: base64char ((n / 64) mod 64) :: base64char (n mod 64)
        :: encode_bytes rest
  | [a; b] =>
      let n := byte a * 65536 + byte b * 256 in
      [base64char (n / 262144); base64char ((n / 4096) mod 64);
       base64char ((n / 64) mod 64); "="%char]
  | [a] =>
      let n := byte a * 65536 in
      [base64char (n / 262144); base64char ((n / 4096) mod 64);
       "="%char; "="%char]
  | [] => []
  end.

Definition encode (s : string) : string :=
  string_of_list_ascii (encode_bytes (list_ascii_of_string s)).

(** The decoder never fails: characters outside the alphabet are skipped
    and the first [=] ends the input. *)
Fixpoint sextets (cs : list ascii) : list Z :=
  match cs with
  | [] => []
  | c :: rest =>
      if Ascii.eqb c "="%char then []
      else match unbase64 c with
           | Some v => v :: sextets rest
           | None => sextets rest
           end
  end.

(** Four 6-bit values give three bytes; a trailing group of three gives two
    bytes, of two gives one, and a single trailing value gives none. *)
Fixpoint decode_sextets (vs : list Z) : list ascii :=
  match vs with
  | w :: x :: y :: z :: rest =>
      chr ((w * 4 + x / 16) mod 256) :: chr ((x mod 16) * 16 + y / 4)
        :: chr ((y mod 4) * 64 + z) :: decode_sextets rest
  | [w; x; y] =>
      [chr ((w * 4 + x / 16) mod 256); chr ((x mod 16) * 16 + y / 4)]
  | [w; x] => [chr ((w * 4 + x / 16) mod 256)]
  | _ => []
  end.

Definition decode (s : string) : string :=
  string_of_list_ascii (decode_sextets (sextets (list_ascii_of_string s))).

End Base64.

(* ================================================================== *)
(** * The runtime's [JSON.stringify] and [JSON.parse] *)
(* ================================================================== *)

Module JSON.

Import Base64.

(** JSON values.  Numbers are the integers: a number literal with a fraction
    or an exponent part is outside the fragment that [parse] reads.  An
    object is the list of its own properties in enumeration order. *)
#[local] Unset Elimination Schemes.

Inductive JSON : Type :=
| JNull
| JBool (b : bool)
| JNumber (z : Z)
| JString (s : string)
| JArray (elements : list JSON)
| JObject (properties : list (string * JSON)).

#[local] Set Elimination Schemes.

Definition dquote : ascii := "034"%char.
Definition backslash : ascii := "092"%char.

(** Text written with ['] where JSON has the double quote. *)
Fixpoint js (s : string) : string :=
  match s with
  | EmptyString => EmptyString
  | String c rest =>
      String (if Ascii.eqb c "'"%char then dquote else c) (js rest)
  end.

(** ** Property lookup and definition *)

Fixpoint lookup (key : string) (props : list (string * JSON)) : option JSON :=
  match props with
  | [] => None
  | (k, v) :: rest => if String.eqb k key then Some v else lookup key rest
  end.

Definition digit_val (c : ascii) : option Z :=
  let v := byte c in
  if (48 <=? v) && (v <=? 57) then Some (v - 48) else None.

Fixpoint digits_val (s : string) (acc : Z) : option Z :=
  match s with
  | EmptyString => Some acc
  | String c rest =>
      match digit_val c with
      | Some d => digits_val rest (acc * 10 + d)
      | None => None
      end
  end.

(** An array index: the canonical decimal form of an integer below
    [2^32 - 1].  Such keys are enumerated first, in numeric order. *)
Definition array_index (key : string) : option Z :=
  match key with
  | EmptyString => None
  | String c rest =>
      if Ascii.eqb c "0"%char && negb (String.eqb rest EmptyString) then None
      else match digits_val key 0 with
           | Some n => if n <? 4294967295 then Some n else None
           | None => None
           end
  end.

Fixpoint replace (key : string) (v : JSON) (props : list (string * JSON))
  : list (string * JSON) :=
  match props with
  | [] => []
  | (k, v0) :: rest =>
      if String.eqb k key then (k, v) :: rest else (k, v0) :: replace key v rest
  end.

Fixpoint insert_index (n : Z) (key : string) (v : JSON)
    (props : list (string * JSON)) : list (string * JSON) :=
  match props with
  | [] => [(key, v)]
  | (k, v0) :: rest =>
      match array_index k with
      | Some m =>
          if m <? n then (k, v0) :: insert_index n key v rest
          else (key, v) :: props
      | None => (key, v) :: props
      end
  end.

(** Defining a property while parsing: a repeated key keeps its place and
    takes the later value; a new array index goes among the indices, any
    other new key goes last. *)
Definition define (key : string) (v : JSON) (props : list (string * JSON))
  : list (string * JSON) :=
  match lookup key props with
  | Some _ => replace key v props
  | None =>
      match array_index key with
      | Some n => insert_index n key v props
      | None => props ++ [(key, v)]
      end
  end.

(** ** [JSON.stringify] *)

Definition hex_digit (v : Z) : ascii :=
  nth (Z.to_nat v) (list_ascii_of_string "0123456789abcdef") "0"%char.

(** One character inside a string literal. *)
Definition quote_char (c : ascii) : string :=
  let v := byte c in
  if v =? 34 then String backslash (String dquote EmptyString)
  else if v =? 92 then String backslash (String backslash EmptyString)
  else if v =? 8 then String backslash "b"
  else if v =? 9 then String backslash "t"
  else if v =? 10 then String backslash "n"
  else if v =? 12 then String backslash "f"
  else if v =? 13 then String backslash "r"
  else if v <? 32 then
    String backslash
      (String "u" (String "0" (String "0"
        (String (hex_digit (v / 16)) (String (hex_digit (v mod 16)) EmptyString)))))
  else String c EmptyString.

Fixpoint quote_chars (s : string) : string :=
  match s with
  | EmptyString => EmptyString
  | String c rest => (quote_char c ++ quote_chars rest)%string
  end.

Definition quote (s : string) : string :=
  String dquote (quote_chars s ++ String dquote EmptyString)%string.

Definition number_to_string (z : Z) : string :=
  NilZero.string_of_int (Z.to_int z).

Fixpoint stringify (v : JSON) : string :=
  match v with
  | JNull => "null"
  | JBool true => "true"
  | JBool false => "false"
  | JNumber z => number_to_string z
  | JString s => quote s
  | JArray elements =>
      let fix go (l : list JSON) : string :=
        match l with
        | [] => EmptyString
        | [x] => stringify x
        | x :: rest => (stringify x ++ "," ++ go rest)%string
        end in
      ("[" ++ go elements ++ "]")%string
  | JObject properties =>
      let fix go (l : list (string * JSON)) : string :=
        match l with
        | [] => EmptyString
        | [(k, x)] => (quote k ++ ":" ++ stringify x)%string
        | (k, x) :: rest => (quote k ++ ":" ++ stringify x ++ "," ++ go rest)%string
        end in
      ("{" ++ go properties ++ "}")%string
  end.

(** ** [JSON.parse] *)

Definition is_ws (c : ascii) : bool :=
  let v := byte c in (v =? 32) || (v =? 9) || (v =? 10) || (v =? 13).

Fixpoint skip_ws (s : string) : string :=
  match s with
  | EmptyString => EmptyString
  | String c rest => if is_ws c then skip_ws rest else s
  end.

Definition hex_val (c : ascii) : option Z :=
  let v := byte c in
  if (48 <=? v) && (v <=? 57) then Some (v - 48)
  else if (97 <=? v) && (v <=? 102) then Some (v - 87)
  else if (65 <=? v) && (v <=? 70) then Some (v - 55)
  else None.

(** The four hexadecimal digits of a [\u] escape. *)
Definition hex4 (s : string) : option (Z * string) :=
  match s with
  | String a (String b (String c (String d rest))) =>
      match hex_val a, hex_val b, hex_val c, hex_val d with
      | Some x, Some y, Some z, Some w =>
          Some (((x * 16 + y) * 16 + z) * 16 + w, rest)
      | _, _, _, _ => None
      end
  | _ => None
  end.

(** The UTF-8 bytes of a code point. *)
Definition utf8 (cp : Z) : string :=
  if cp <? 128 then String (chr cp) EmptyString
  else if cp <? 2048 then
    String (chr (192 + cp / 64)) (String (chr (128 + cp mod 64)) EmptyString)
  else if cp <? 65536 then
    String (chr (224 + cp / 4096))
      (String (chr (128 + (cp / 64) mod 64))
        (String (chr (128 + cp mod 64)) EmptyString))
  else
    String (chr (240 + cp / 262144))
      (String (chr (128 + (cp / 4096) mod 64))
        (String (chr (128 + (cp / 64) mod 64))
          (String (chr (128 + cp mod 64)) EmptyString))).

Definition is_high_surrogate (u : Z) : bool := (55296 <=? u) && (u <=? 56319).
Definition is_low_surrogate (u : Z) : bool := (56320 <=? u) && (u <=? 57343).

(** The characters of a string literal after its opening quote, up to and
    including the closing quote.  A surrogate pair written as two [\u]
    escapes is one code point; a surrogate that is not part of a pair has no
    UTF-8 form and is read as U+FFFD. *)
Fixpoint parse_chars (fuel : nat) (s : string) : option (string * string) :=
  match fuel with
  | O => None
  | S fuel' =>
      match s with
      | EmptyString => None
      | String c rest =>
          if Ascii.eqb c dquote then Some (EmptyString, rest)
          else if Ascii.eqb c backslash then
            match rest with
            | EmptyString => None
            | String e rest' =>
                let simple (x : ascii) :=
                  match parse_chars fuel' rest' with
                  | Some (str, r) => Some (String x str, r)
                  | None => None
                  end in
                if Ascii.eqb e dquote then simple dquote
                else if Ascii.eqb e backslash then simple backslash
                else if Ascii.eqb e "/"%char then simple "/"%char
                else if Ascii.eqb e "b"%char then simple "008"%char
                else if Ascii.eqb e "f"%char then simple "012"%char
                else if Ascii.eqb e "n"%char then simple "010"%char
                else if Ascii.eqb e "r"%char then simple "013"%char
                else if Ascii.eqb e "t"%char then simple "009"%char
                else if Ascii.eqb e "u"%char then
                  match hex4 rest' with
                  | None => None
                  | Some (u, r1) =>
                      let single (cp : Z) (r : string) :=
                        match parse_chars fuel' r with
                        | Some (str, r') => Some ((utf8 cp ++ str)%string, r')
                        | None => None
                        end in
                      if is_high_surrogate u then
                        match r1 with
                        | String b1 (String b2 r2) =>
                            if Ascii.eqb b1 backslash && Ascii.eqb b2 "u"%char then
                              match hex4 r2 with
                              | Some (l, r3) =>
                                  if is_low_surrogate l
                                  then single (65536 + (u - 55296) * 1024 + (l - 56320)) r3
                                  else single 65533 r1
                              | None => single 65533 r1
                              end
                            else single 65533 r1
                        | _ => single 65533 r1
                        end
                      else if is_low_surrogate u then single 65533 r1
                      else single u r1
                  end
                else None
            end
          else if byte c <? 32 then None
          else
            match parse_chars fuel' rest with
            | Some (str, r) => Some (String c str, r)
            | None => None
            end
      end
  end.

(** A string literal, after its opening quote. *)
Definition parse_string (s : string) : option (string * string) :=
  parse_chars (String.length s) s.

Fixpoint parse_digits (s : string) (acc : Z) : Z * string :=
  match s with
  | EmptyString => (acc, s)
  | String c rest =>
      match digit_val c with
      | Some d => parse_digits rest (acc * 10 + d)
      | None => (acc, s)
      end
  end.

(** The integer part of a number literal: [0], or a non-zero digit and more
    digits.  What follows is left to the caller. *)
Definition parse_int (s : string) : option (Z * string) :=
  match s with
  | EmptyString => None
  | String c rest =>
      match digit_val c with
      | None => None
      | Some d => if d =? 0 then Some (0, rest) else Some (parse_digits rest d)
      end
  end.

Definition parse_number (s : string) : option (Z * string) :=
  match s with
  | String c rest =>
      if Ascii.eqb c "-"%char then
        match parse_int rest with
        | Some (n, r) => Some (- n, r)
        | None => None
        end
      else parse_int s
  | EmptyString => None
  end.

(** [prefix p s]: [s] without its prefix [p]. *)
Fixpoint prefix (p s : string) : option string :=
  match p with
  | EmptyString => Some s
  | String a p' =>
      match s with
      | String b s' => if Ascii.eqb a b then prefix p' s' else None
      | EmptyString => None
      end
  end.

(** A value, then the members of an object after a member and the elements
    of an array after an element; [fuel] bounds the number of nested calls,
    each of which reads at least one character. *)
Fixpoint parse_value (fuel : nat) (s : string) : option (JSON * string) :=
  match fuel with
  | O => None
  | S fuel' =>
      match skip_ws s with
      | EmptyString => None
      | String c rest =>
          if Ascii.eqb c "{"%char then
            match skip_ws rest with
            | String c1 rest1 =>
                if Ascii.eqb c1 "}"%char then Some (JObject [], rest1)
                else parse_members fuel' (skip_ws rest) []
            | EmptyString => None
            end
          else if Ascii.eqb c "["%char then
            match skip_ws rest with
            | String c1 rest1 =>
                if Ascii.eqb c1 "]"%char then Some (JArray [], rest1)
                else parse_elements fuel' (skip_ws rest) []
            | EmptyString => None
            end
          else if Ascii.eqb c dquote then
            match parse_string rest with
            | Some (str, r) => Some (JString str, r)
            | None => None
            end
          else if Ascii.eqb c "t"%char then
            match prefix "rue" rest with
            | Some r => Some (JBool true, r)
            | None => None
            end
          else if Ascii.eqb c "f"%char then
            match prefix "alse" rest with
            | Some r => Some (JBool false, r)
            | None => None
            end
          else if Ascii.eqb c "n"%char then
            match prefix "ull" rest with
            | Some r => Some (JNull, r)
            | None => None
            end
          else
            match parse_number (String c rest) with
            | Some (n, r) => Some (JNumber n, r)
            | None => None
            end
      end
  end

with parse_members (fuel : nat) (s : string) (acc : list (string * JSON))
  : option (JSON * string) :=
  match fuel with
  | O => None
  | S fuel' =>
      match s with
      | String c rest =>
          if Ascii.eqb c dquote then
            match parse_string rest with
            | Some (key, r) =>
                match skip_ws r with
                | String c1 r1 =>
                    if Ascii.eqb c1 ":"%char then
                      match parse_value fuel' r1 with
                      | Some (v, r2) =>
                          match skip_ws r2 with
                          | String c2 r3 =>
                              if Ascii.eqb c2 ","%char
                              then parse_members fuel' (skip_ws r3) (define key v acc)
                              else if Ascii.eqb c2 "}"%char
                              then Some (JObject (define key v acc), r3)
                              else None
                          | EmptyString => None
                          end
                      | None => None
                      end
                    else None
                | EmptyString => None
                end
            | None => None
            end
          else None
      | EmptyString => None
      end
  end

with parse_elements (fuel : nat) (s : string) (acc : list JSON)
  : option (JSON * string) :=
  match fuel with
  | O => None
  | S fuel' =>
      match parse_value fuel' s with
      | Some (v, r) =>
          match skip_ws r with
          | String c r1 =>
              if Ascii.eqb c ","%char
              then parse_elements fuel' r1 (acc ++ [v])
              else if Ascii.eqb c "]"%char
              then Some (JArray (acc ++ [v]), r1)
              else None
          | EmptyString => None
          end
      | None => None
      end
  end.

(** [JSON.parse(text)]: one value and nothing else but white space;
    [None] is the [SyntaxError]. *)
Definition parse (text : string) : option JSON :=
  match parse_value (S (String.length text)) text with
  | Some (v, rest) =>
      match skip_ws rest with
      | EmptyString => Some v
      | String _ _ => None
      end
  | None => None
  end.

End JSON.

(* ================================================================== *)
(** * [services/myListService.ts] *)
(* ================================================================== *)

(** What a function can throw. *)
Inductive Thrown : Type :=
| HttpError (message : string) (statusCode : Z) (errorCode : string)
| ZodError
| MongoError (code : Z)
| OtherError (name : string).

Inductive Result (A : Type) : Type :=
| Ok (a : A)
| Throw (e : Thrown).

Arguments Ok {A}.
Arguments Throw {A}.

(** The runtime's [Date]: [toISOString] of a millisecond time stamp, and the
    time stamp of [new Date(s)] for a string [s], [None] for an invalid
    date.  Reading back a printed date gives the same instant, and the
    printed form is never empty. *)
Record DateCodec : Type := mkDateCodec {
  toISOString : Z -> string;
  parseDate : string -> option Z;
  parse_toISOString : forall t, parseDate (toISOString t) = Some t;
  toISOString_nonempty : forall t, toISOString t <> EmptyString
}.

Inductive ListableContentKind : Type := Movie | TVShow.

(** A catalogue entry of the [movies] or [tv_shows] collection, as far as
    the service reads it. *)
Record Content : Type := mkContent {
  id : string;
  content_title : string;
  content_genres : list string
}.

Module Doc.
(** [MyListItemDocument] *)
Record t : Type := mk {
  userId : string;
  contentId : string;
  contentType : ListableContentKind;
  title : string;
  genres : list string;
  addedAt : Z
}.
End Doc.

Module DTO.
(** [MyListItemDTO] *)
Record t : Type := mk {
  userId : string;
  contentId : string;
  contentType : ListableContentKind;
  title : string;
  genres : list string;
  addedAt : Z
}.
End DTO.

Module CursorPayload.
Record t : Type := mk {
  addedAt : string;
  contentId : string
}.
End CursorPayload.

Module Service.

Import JSON.

(** [ListOptions]: [cursor] is whatever object [decodeCursor] returned. *)
Record ListOptions : Type := mkListOptions {
  limit : Z;
  cursor : option JSON
}.

(** [ListCacheValue] *)
Record ListCacheValue : Type := mkPage {
  items : list DTO.t;
  nextCursor : option string
}.

(** The collections and the module-level [listCache]. *)
Record World : Type := mkWorld {
  movies : list Content;
  tv_shows : list Content;
  my_list : list Doc.t;
  listCache : Cache.InMemoryCache ListCacheValue
}.

Definition with_cache (w : World) (c : Cache.InMemoryCache ListCacheValue) : World :=
  mkWorld (movies w) (tv_shows w) (my_list w) c.

Definition with_my_list (w : World) (l : list Doc.t) : World :=
  mkWorld (movies w) (tv_shows w) l (listCache w).

(** ** The cursor codec *)

Definition payload_object (c : CursorPayload.t) : JSON :=
  JObject [("addedAt", JString (CursorPayload.addedAt c));
           ("contentId", JString (CursorPayload.contentId c))].

Definition encodeCursor (c : CursorPayload.t) : string :=
  Base64.encode (stringify (payload_object c)).

(** [value.name]: a property read throws on [null], gives [undefined] on a
    value without that property. *)
Definition getProp (v : JSON) (name : string) : Result (option JSON) :=
  match v with
  | JNull => Throw (OtherError "TypeError")
  | JObject props => Ok (lookup name props)
  | _ => Ok None
  end.

(** [ToBoolean] *)
Definition truthy (v : option JSON) : bool :=
  match v with
  | None => false
  | Some JNull => false
  | Some (JBool b) => b
  | Some (JNumber z) => negb (z =? 0)
  | Some (JString s) => negb (String.eqb s EmptyString)
  | Some (JArray _) => true
  | Some (JObject _) => true
  end.

(** The body of the [try] block of [decodeCursor]. *)
Definition decodeCursor_try (rawCursor : string) : Result JSON :=
  let decoded := Base64.decode rawCursor in
  match parse decoded with
  | None => Throw (OtherError "SyntaxError")
  | Some parsed =>
      match getProp parsed "addedAt" with
      | Throw e => Throw e
      | Ok a =>
          if negb (truthy a) then Throw (OtherError "Error")
          else
            match getProp parsed "contentId" with
            | Throw e => Throw e
            | Ok c =>
                if negb (truthy c) then Throw (OtherError "Error")
                else Ok parsed
            end
      end
  end.

Definition invalid_cursor : Thrown :=
  HttpError "Invalid cursor provided" 400 "invalid_cursor".

Definition decodeCursor (rawCursor : string) : Result JSON :=
  match decodeCursor_try rawCursor with
  | Ok parsed => Ok parsed
  | Throw _ => Throw invalid_cursor
  end.

(** ** The cache key *)

Definition cacheKey (userId : string) (options : ListOptions) : string :=
  stringify
    (JObject
       ([("userId", JString userId); ("limit", JNumber (limit options))]
        ++ match cursor options with
           | Some c => [("cursor", c)]
           | None => []
           end)).

(** ** The persistence layer *)

Fixpoint findOne (contentId : string) (collection : list Content) : option Content :=
  match collection with
  | [] => None
  | c :: rest => if String.eqb (id c) contentId then Some c else findOne contentId rest
  end.

Definition same_pair (userId contentId : string) (d : Doc.t) : bool :=
  String.eqb (Doc.userId d) userId && String.eqb (Doc.contentId d) contentId.

(** The [required] strings of the schema: a required string is not
    empty. *)
Definition validate (d : Doc.t) : bool :=
  negb (String.eqb (Doc.userId d) EmptyString)
  && negb (String.eqb (Doc.contentId d) EmptyString)
  && negb (String.eqb (Doc.title d) EmptyString).

(** [MyListItemModel.create]: the document is validated against the
    schema, and the unique index on [(userId, contentId)] rejects a second
    document for the pair with error code 11000. *)
Definition create (collection : list Doc.t) (d : Doc.t) : Result (list Doc.t) :=
  if negb (validate d) then Throw (OtherError "ValidationError")
  else if existsb (same_pair (Doc.userId d) (Doc.contentId d)) collection
  then Throw (MongoError 11000)
  else Ok (collection ++ [d]).

(** [MyListItemModel.deleteOne({ userId, contentId })]: the collection
    without the first match, and [deletedCount]. *)
Fixpoint deleteOne (userId contentId : string) (collection : list Doc.t)
  : list Doc.t * Z :=
  match collection with
  | [] => ([], 0)
  | d :: rest =>
      if same_pair userId contentId d then (rest, 1)
      else let (rest', n) := deleteOne userId contentId rest in (d :: rest', n)
  end.

(** The filter of [listMyList]: [{ userId }], with the [$or] of the two
    cursor clauses when a cursor is given. *)
Record FilterQuery : Type := mkQuery {
  q_userId : string;
  q_or : option (Z * string)
}.

Definition matches (q : FilterQuery) (d : Doc.t) : bool :=
  String.eqb (Doc.userId d) (q_userId q)
  && match q_or q with
     | None => true
     | Some (at_, cid) =>
         (Doc.addedAt d <? at_)
         || ((Doc.addedAt d =? at_) && String.ltb (Doc.contentId d) cid)
     end.

(** [.sort({ addedAt: -1, contentId: -1 })]: [a] may come before [b]. *)
Definition sorts_before (a b : Doc.t) : bool :=
  (Doc.addedAt b <? Doc.addedAt a)
  || ((Doc.addedAt a =? Doc.addedAt b) && String.leb (Doc.contentId b) (Doc.contentId a)).

Fixpoint insert_sorted (d : Doc.t) (l : list Doc.t) : list Doc.t :=
  match l with
  | [] => [d]
  | x :: rest => if sorts_before d x then d :: l else x :: insert_sorted d rest
  end.

Fixpoint sort (l : list Doc.t) : list Doc.t :=
  match l with
  | [] => []
  | d :: rest => insert_sorted d (sort rest)
  end.

(** [.limit(n)]: zero is no limit, a negative number limits by its
    absolute value. *)
Definition mongo_limit (n : Z) (l : list Doc.t) : list Doc.t :=
  if n =? 0 then l else firstn (Z.to_nat (Z.abs n)) l.

Definition find (q : FilterQuery) (n : Z) (collection : list Doc.t) : list Doc.t :=
  mongo_limit n (sort (filter (matches q) collection)).

(** [items.slice(0, n)] *)
Definition slice0 {A : Type} (n : Z) (l : list A) : list A :=
  if 0 <=? n then firstn (Z.to_nat n) l
  else firstn (List.length l - Z.to_nat (- n)) l.

(** ** [resolveContentMetadata] *)

Definition resolveContentMetadata (w : World) (contentId : string)
    (contentType : ListableContentKind) (fault : option Thrown)
  : Result (string * list string) :=
  match fault with
  | Some e => Throw e
  | None =>
      match contentType with
      | Movie =>
          match findOne contentId (movies w) with
          | None => Throw (HttpError ("Movie " ++ contentId ++ " not found") 404 "movie_not_found")
          | Some movie => Ok (content_title movie, content_genres movie)
          end
      | TVShow =>
          match findOne contentId (tv_shows w) with
          | None => Throw (HttpError ("TV show " ++ contentId ++ " not found") 404 "show_not_found")
          | Some show => Ok (content_title show, content_genres show)
          end
      end
  end.

Definition toDTO (d : Doc.t) : DTO.t :=
  DTO.mk (Doc.userId d) (Doc.contentId d) (Doc.contentType d) (Doc.title d)
         (Doc.genres d) (Doc.addedAt d).

Definition isDuplicateKeyError (e : Thrown) : bool :=
  match e with
  | MongoError code => code =? 11000
  | _ => false
  end.

Definition invalidateCacheForUser (w : World) (userId : string) : World :=
  with_cache w (Cache.clear (listCache w)).

(** ** [addToMyList]

    [now] is the reading of [new Date()]; [fault_find] and [fault_create]
    are what the catalogue lookup and the insert throw when the store fails
    for a reason of its own (connection, validation), [None] when it does
    not. *)
Definition addToMyList (w : World) (userId contentId : string)
    (contentType : ListableContentKind) (now : Z)
    (fault_find fault_create : option Thrown)
  : Result DTO.t * World :=
  match resolveContentMetadata w contentId contentType fault_find with
  | Throw e => (Throw e, w)
  | Ok (title, genres) =>
      let d := Doc.mk userId contentId contentType title genres now in
      let created :=
        match fault_create with
        | Some e => Throw e
        | None => create (my_list w) d
        end in
      match created with
      | Ok collection =>
          (Ok (toDTO d), invalidateCacheForUser (with_my_list w collection) userId)
      | Throw error =>
          if isDuplicateKeyError error then
            (Throw (HttpError ("Content " ++ contentId ++ " already exists in the user's list")
                      409 "already_in_list"), w)
          else (Throw error, w)
      end
  end.

(** ** [removeFromMyList] *)
Definition removeFromMyList (w : World) (userId contentId : string)
    (fault : option Thrown) : Result unit * World :=
  match fault with
  | Some e => (Throw e, w)
  | None =>
      let (collection, deletedCount) := deleteOne userId contentId (my_list w) in
      if deletedCount =? 0 then
        (Throw (HttpError ("Content " ++ contentId ++ " is not in the user's list")
                  404 "not_in_list"), w)
      else (Ok tt, invalidateCacheForUser (with_my_list w collection) userId)
  end.

(** ** [listMyList] *)

(** The string the runtime makes of a value ([ToString]): an array is the
    join of its elements by commas, [null] elements being empty; an object
    is [[object Object]]. *)
Fixpoint to_string (v : JSON) : string :=
  match v with
  | JNull => "null"
  | JBool true => "true"
  | JBool false => "false"
  | JNumber z => number_to_string z
  | JString s => s
  | JArray elements =>
      let element (x : JSON) : string :=
        match x with
        | JNull => EmptyString
        | _ => to_string x
        end in
      let fix join (l : list JSON) : string :=
        match l with
        | [] => EmptyString
        | [x] => element x
        | x :: rest => (element x ++ "," ++ join rest)%string
        end in
      join elements
  | JObject _ => "[object Object]"
  end.

(** [new Date(v)], [None] being an invalid date.  A string is parsed; a
    number is an instant when it lies within the range of [Date], 8.64e15
    milliseconds either side of the epoch; [true], [false] and [null] are
    the instants 1, 0 and 0; [undefined] is no date; an array or an object
    is turned into a string, which is parsed. *)
Definition new_Date (D : DateCodec) (v : option JSON) : option Z :=
  match v with
  | Some (JString s) => parseDate D s
  | Some (JNumber z) => if Z.abs z <=? 8640000000000000 then Some z else None
  | Some (JBool true) => Some 1
  | Some (JBool false) => Some 0
  | Some JNull => Some 0
  | Some (JArray elements) => parseDate D (to_string (JArray elements))
  | Some (JObject properties) => parseDate D (to_string (JObject properties))
  | None => None
  end.

(** The string a [contentId] bound is cast to by the schema: a string is
    kept, a number and a boolean are printed. *)
Definition cast_string (v : option JSON) : option string :=
  match v with
  | Some (JString s) => Some s
  | Some (JNumber z) => Some (number_to_string z)
  | Some (JBool true) => Some "true"
  | Some (JBool false) => Some "false"
  | _ => None
  end.

(** The query of [listMyList]; a bound that the schema cannot cast makes
    the driver throw. *)
Definition build_query (D : DateCodec) (userId : string) (options : ListOptions)
  : Result FilterQuery :=
  match cursor options with
  | None => Ok (mkQuery userId None)
  | Some (JObject props) =>
      match new_Date D (lookup "addedAt" props), cast_string (lookup "contentId" props) with
      | Some at_, Some cid => Ok (mkQuery userId (Some (at_, cid)))
      | _, _ => Throw (OtherError "CastError")
      end
  | Some _ => Throw (OtherError "CastError")
  end.

(** [trimmed[trimmed.length - 1]], [None] being [undefined]. *)
Fixpoint last_row (l : list Doc.t) : option Doc.t :=
  match l with
  | [] => None
  | [d] => Some d
  | _ :: rest => last_row rest
  end.

(** The page computed from the rows the store returned. *)
Definition page_of (D : DateCodec) (lim : Z) (rows : list Doc.t) : Result ListCacheValue :=
  let hasMore := Z.of_nat (List.length rows) >? lim in
  let trimmed := if hasMore then slice0 lim rows else rows in
  let dtos := map toDTO trimmed in
  if hasMore then
    match last_row trimmed with
    | Some lastRow =>
        Ok (mkPage dtos
              (Some (encodeCursor
                       (CursorPayload.mk (toISOString D (Doc.addedAt lastRow))
                                         (Doc.contentId lastRow)))))
    | None => Throw (OtherError "TypeError")
    end
  else Ok (mkPage dtos None).

(** [t_get] and [t_set] are the readings of [Date.now()] inside the cache
    look-up and the cache store; [fault] is what the query throws when the
    store fails. *)
Definition listMyList (D : DateCodec) (w : World) (userId : string)
    (options : ListOptions) (t_get t_set : Z) (fault : option Thrown)
  : Result ListCacheValue * World :=
  let key := cacheKey userId options in
  let (cachedValue, cache1) := Cache.get (listCache w) key t_get in
  let w1 := with_cache w cache1 in
  match cachedValue with
  | Some v => (Ok v, w1)
  | None =>
      match build_query D userId options with
      | Throw e => (Throw e, w1)
      | Ok query =>
          match fault with
          | Some e => (Throw e, w1)
          | None =>
              let rows := find query (limit options + 1) (my_list w) in
              match page_of D (limit options) rows with
              | Throw e => (Throw e, w1)
              | Ok result => (Ok result, with_cache w1 (Cache.set cache1 key result t_set))
              end
          end
      end
  end.

End Service.

(* ================================================================== *)
(** * [controllers/myListController.ts] and [middleware/errorHandler.ts] *)
(* ================================================================== *)

Module Controller.

Import JSON Service.

(** The value of [Number(...)] as far as the limit check reads it. *)
Inductive JSNumber : Type :=
| JNaN
| JInt (z : Z).

Definition is_space (c : ascii) : bool :=
  let v := Base64.byte c in
  (v =? 32) || ((9 <=? v) && (v <=? 13)).

Fixpoint skip_space (s : string) : string :=
  match s with
  | EmptyString => EmptyString
  | String c rest => if is_space c then skip_space rest else s
  end.

(** [Number(value)] for a string: white space around an optionally signed
    run of decimal digits, the empty string being zero.  Every other string
    is [NaN] here; the spellings of numbers with a fraction, an exponent or
    a radix prefix are not read. *)
Definition Number (value : string) : JSNumber :=
  match skip_space value with
  | EmptyString => JInt 0
  | String c rest =>
      let body := if Ascii.eqb c "-"%char || Ascii.eqb c "+"%char
                  then rest else String c rest in
      match body with
      | EmptyString => JNaN
      | String d _ =>
          match digit_val d with
          | None => JNaN
          | Some _ =>
              let (n, tail) := parse_digits body 0 in
              match skip_space tail with
              | EmptyString => JInt (if Ascii.eqb c "-"%char then - n else n)
              | String _ _ => JNaN
              end
          end
      end
  end.

(** The request of [GET /users/:userId/my-list]. *)
Record Request : Type := mkRequest {
  params_userId : string;
  query_limit : option string;
  query_cursor : option string
}.

(** The response: the body of a success, or the status and the
    machine-readable code of a failure. *)
Inductive Response : Type :=
| Success (status : Z) (data : ListCacheValue)
| Failure (status : Z) (code : string).

(** [userIdParamSchema.parse] *)
Definition parse_userId (req : Request) : Result string :=
  if (0 <? Z.of_nat (String.length (params_userId req))) then Ok (params_userId req)
  else Throw ZodError.

(** [listQuerySchema.parse]: the limit after [transform], checked by
    [refine]. *)
Definition parse_query (req : Request) : Result (Z * option string) :=
  let value :=
    match query_limit req with
    | Some s => Number s
    | None => JInt 20
    end in
  match value with
  | JInt z => if (0 <? z) && (z <=? 100) then Ok (z, query_cursor req) else Throw ZodError
  | JNaN => Throw ZodError
  end.

(** The body of [handleListMyItems]; what it throws goes to
    [errorHandler]. *)
Definition handleListMyItems_body (D : DateCodec) (w : World) (req : Request)
    (t_get t_set : Z) (fault : option Thrown) : Result ListCacheValue * World :=
  match parse_userId req with
  | Throw e => (Throw e, w)
  | Ok userId =>
      match parse_query req with
      | Throw e => (Throw e, w)
      | Ok (query_limit, query_cursor) =>
          let decoded :=
            match query_cursor with
            | Some raw =>
                if String.eqb raw EmptyString then Ok None
                else match decodeCursor raw with
                     | Ok c => Ok (Some c)
                     | Throw e => Throw e
                     end
            | None => Ok None
            end in
          match decoded with
          | Throw e => (Throw e, w)
          | Ok cursor =>
              if query_limit >? 100 then
                (Throw (HttpError "limit exceeds maximum of 100" 400 "limit_too_large"), w)
              else
                listMyList D w userId (mkListOptions query_limit cursor) t_get t_set fault
          end
      end
  end.

(** [errorHandler] *)
Definition errorHandler (err : Thrown) : Response :=
  match err with
  | HttpError _ statusCode errorCode => Failure statusCode errorCode
  | _ => Failure 500 "internal_error"
  end.

Definition handleListMyItems (D : DateCodec) (w : World) (req : Request)
    (t_get t_set : Z) (fault : option Thrown) : Response * World :=
  match handleListMyItems_body D w req t_get t_set fault with
  | (Ok result, w') => (Success 200 result, w')
  | (Throw e, w') => (errorHandler e, w')
  end.

End Controller.

(* ================================================================== *)
(** * Paging through a list *)
(* ================================================================== *)

Module Pagination.

Import JSON Service.

(** The page [listMyList] computes from the store when the cache has none:
    the query, the rows, the page. *)
Definition fresh_page (D : DateCodec) (collection : list Doc.t) (userId : string)
    (options : ListOptions) : Result ListCacheValue :=
  match build_query D userId options with
  | Throw e => Throw e
  | Ok query =>
      page_of D (limit options) (find query (limit options + 1) collection)
  end.

Definition owned (userId : string) (d : Doc.t) : bool :=
  String.eqb (Doc.userId d) userId.

(** ** The order of the list

    A position is the pair of [addedAt] and [contentId]; [key_before p q]
    says that [p] is listed strictly before [q]. *)

Definition pos (d : Doc.t) : Z * string := (Doc.addedAt d, Doc.contentId d).

Definition key_before (p q : Z * string) : Prop :=
  fst q < fst p \/ (fst p = fst q /\ String.ltb (snd q) (snd p) = true).

Definition doc_before (a b : Doc.t) : Prop := key_before (pos a) (pos b).

(** Sorted without ties: every document is strictly before the later
    ones. *)
Definition strictly_sorted (l : list Doc.t) : Prop := StronglySorted doc_before l.

(** All the items of a user, in the order of the list. *)
Definition all_rows (userId : string) (collection : list Doc.t) : list Doc.t :=
  sort (filter (owned userId) collection).

(** The payload of the cursor that points at a row. *)
Definition cursor_payload (D : DateCodec) (d : Doc.t) : CursorPayload.t :=
  CursorPayload.mk (toISOString D (Doc.addedAt d)) (Doc.contentId d).

(** The token a client holds after the rows [A]: none before the first
    page, then the cursor of the last row it was given. *)
Definition at_position (D : DateCodec) (A : list Doc.t) (token : option string) : Prop :=
  (A = [] /\ token = None)
  \/ exists A' x, A = A' ++ [x] /\ token = Some (encodeCursor (cursor_payload D x)).

(** The cache key of a user and a limit, in two parts: what comes before
    the cursor, and the cursor member with the closing brace. *)
Definition key_prefix (userId : string) (lim : Z) : string :=
  String "{"
    (quote "userId" ++ String ":"
      (quote userId ++ String ","
        (quote "limit" ++ String ":" (number_to_string lim))))%string.

Definition cursor_member : string := String "," (quote "cursor" ++ ":")%string.

Definition key_tail (c : option JSON) : string :=
  match c with
  | None => "}"
  | Some o => (cursor_member ++ (stringify o ++ "}"))%string
  end.

(** The cursors the service hands out: none for the first page, then the
    object of an encoded payload. *)
Definition issued (c : option JSON) : Prop :=
  c = None \/ exists p, c = Some (payload_object p).

(** The cached pages of a user and a limit are the pages of the current
    collection. *)
Definition coherent (D : DateCodec) (w : World) (userId : string) (lim : Z) : Prop :=
  NoDup (Cache.keys (Cache.store (listCache w)))
  /\ forall c e,
       issued c ->
       Cache.map_get (cacheKey userId (mkListOptions lim c))
                     (Cache.store (listCache w)) = Some e ->
       fresh_page D (my_list w) userId (mkListOptions lim c) = Ok (Cache.value e).

(** The unique index on [(userId, contentId)]. *)
Definition unique_pairs (collection : list Doc.t) : Prop :=
  NoDup (map (fun d => (Doc.userId d, Doc.contentId d)) collection).

(** [contentId] is a required string of the schema: it is not empty. *)
Definition valid_ids (collection : list Doc.t) : Prop :=
  Forall (fun d => Doc.contentId d <> EmptyString) collection.


(** [a] is listed before [b]: later [addedAt], or the same [addedAt] and
    the greater [contentId]. *)
Definition listed_before (a b : DTO.t) : Prop :=
  DTO.addedAt b < DTO.addedAt a
  \/ (DTO.addedAt a = DTO.addedAt b
      /\ String.ltb (DTO.contentId b) (DTO.contentId a) = true).

(** The outcome of a client that pages through a list. *)
Inductive Run : Type :=
| Done (pages : list ListCacheValue)
| Failed (e : Thrown)
| OutOfFuel.

(** The client: a first call of [listMyList] without cursor, then one call
    for each [nextCursor] returned, decoded the way the controller decodes
    it, until a page comes without [nextCursor].  [times k] are the clock
    readings of call [k]; [fuel] bounds the number of calls. *)
Fixpoint paginate (D : DateCodec) (fuel : nat) (w : World) (userId : string)
    (lim : Z) (token : option string) (times : nat -> Z * Z) (k : nat)
  : Run * World :=
  match fuel with
  | O => (OutOfFuel, w)
  | S fuel' =>
      let decoded :=
        match token with
        | None => Ok None
        | Some raw =>
            match decodeCursor raw with
            | Ok c => Ok (Some c)
            | Throw e => Throw e
            end
        end in
      match decoded with
      | Throw e => (Failed e, w)
      | Ok c =>
          match listMyList D w userId (mkListOptions lim c)
                  (fst (times k)) (snd (times k)) None with
          | (Throw e, w') => (Failed e, w')
          | (Ok page, w') =>
              match nextCursor page with
              | None => (Done [page], w')
              | Some next =>
                  match paginate D fuel' w' userId lim (Some next) times (S k) with
                  | (Done pages, w'') => (Done (page :: pages), w'')
                  | other => other
                  end
              end
          end
      end
  end.

End Pagination.

(* ================================================================== *)
(** * Instances *)
(* ================================================================== *)

Module Instances.

Import Service.

Definition three_inserts : list (string * nat * Z) :=
  [("a", 1%nat, 0); ("b", 2%nat, 5); ("c", 3%nat, 9)].

(** A [DateCodec] that prints a time stamp as the letter T and its decimal
    digits; it has the two properties asked of the runtime's [Date], and
    serves to run the service on concrete lists. *)
Definition plain_toISOString (t : Z) : string :=
  String "T" (NilEmpty.string_of_int (Z.to_int t)).

Definition plain_parseDate (s : string) : option Z :=
  match s with
  | String c rest =>
      if Ascii.eqb c "T"
      then option_map Z.of_int (NilEmpty.int_of_string rest)
      else None
  | EmptyString => None
  end.

Definition plainDates : DateCodec.
Proof.
  refine (mkDateCodec plain_toISOString plain_parseDate _ _).
  - intros t. unfold plain_parseDate, plain_toISOString.
    change (Ascii.eqb "T" "T") with true. cbv iota.
    rewrite NilEmpty.isi. cbn [option_map]. now rewrite DecimalZ.of_to.
  - discriminate.
Defined.

Definition three_items : list Doc.t :=
  [Doc.mk "user-123" "movie-001" Movie "Movie One" ["Action"] 1000;
   Doc.mk "user-123" "show-001" TVShow "Show One" ["SciFi"] 1000;
   Doc.mk "user-456" "movie-001" Movie "Movie One" ["Action"] 2000;
   Doc.mk "user-123" "movie-002" Movie "Movie Two" [] 3000].

Definition small_world : World :=
  mkWorld [] [] three_items (Cache.new (Cache.mkOptions 30 100)).

End Instances.

Module Recency.

(** The recency counter of a stored entry of the cache. *)
Definition counter_of {Value : Type} (ke : string * Cache.CacheEntry Value) : Z :=
  Cache.lastAccessCounter (snd ke).

End Recency.

(* ================================================================== *)
(** * The other handlers of [controllers/myListController.ts] *)
(* ================================================================== *)

Module Handlers.

Import JSON Service Controller.

(** The catalogue collection [resolveContentMetadata] reads for a kind. *)
Definition catalogue (w : World) (kind : ListableContentKind) : list Content :=
  match kind with
  | Movie => movies w
  | TVShow => tv_shows w
  end.

(** What a handler sends: a status with a body, or the status and the code
    of the error that [errorHandler] reports. *)
Inductive Answer (A : Type) : Type :=
| Sent (status : Z) (data : A)
| Refused (status : Z) (code : string).

Arguments Sent {A}.
Arguments Refused {A}.

(** The answer [errorHandler] gives for what a handler threw. *)
Definition refuse {A : Type} (err : Thrown) : Answer A :=
  match errorHandler err with
  | Failure status code => Refused status code
  | Success status _ => Refused status EmptyString
  end.

(** The request of [POST /users/:userId/my-list]; a body field is [None]
    when it is missing or is not a string. *)
Record AddRequest : Type := mkAddRequest {
  add_userId : string;
  body_contentId : option string;
  body_contentType : option string
}.

(** [addBodySchema.parse] *)
Definition parse_add_body (req : AddRequest) : Result (string * ListableContentKind) :=
  match body_contentId req, body_contentType req with
  | Some contentId, Some contentType =>
      if 0 <? Z.of_nat (String.length contentId) then
        if String.eqb contentType "Movie" then Ok (contentId, Movie)
        else if String.eqb contentType "TVShow" then Ok (contentId, TVShow)
        else Throw ZodError
      else Throw ZodError
  | _, _ => Throw ZodError
  end.

Definition parse_param (value : string) : Result string :=
  if 0 <? Z.of_nat (String.length value) then Ok value else Throw ZodError.

(** [handleAddToMyList] *)
Definition handleAddToMyList (w : World) (req : AddRequest) (now : Z)
    (fault_find fault_create : option Thrown) : Answer DTO.t * World :=
  match parse_param (add_userId req) with
  | Throw e => (refuse e, w)
  | Ok userId =>
      match parse_add_body req with
      | Throw e => (refuse e, w)
      | Ok (contentId, contentType) =>
          match addToMyList w userId contentId contentType now fault_find fault_create with
          | (Ok result, w') => (Sent 201 result, w')
          | (Throw e, w') => (refuse e, w')
          end
      end
  end.

(** The request of [DELETE /users/:userId/my-list/:itemId]. *)
Record RemoveRequest : Type := mkRemoveRequest {
  remove_userId : string;
  remove_itemId : string
}.

(** [handleRemoveFromMyList] *)
Definition handleRemoveFromMyList (w : World) (req : RemoveRequest)
    (fault : option Thrown) : Answer unit * World :=
  match parse_param (remove_userId req) with
  | Throw e => (refuse e, w)
  | Ok userId =>
      match parse_param (remove_itemId req) with
      | Throw e => (refuse e, w)
      | Ok itemId =>
          match removeFromMyList w userId itemId fault with
          | (Ok _, w') => (Sent 204 tt, w')
          | (Throw e, w') => (refuse e, w')
          end
      end
  end.

End Handlers.

(* ================================================================== *)
(** * Cursor objects with string properties *)
(* ================================================================== *)

Module CursorObjects.

Import JSON Service.

(** The object with the given properties, all strings, in the order
    given. *)
Definition string_object (fields : list (string * string)) : JSON :=
  JObject (map (fun kv => (fst kv, JString (snd kv))) fields).

(** Property names that an object keeps in the order of their definition:
    no name twice, and none that is an array index, which the runtime
    moves in front of the others. *)
Definition ordinary (fields : list (string * string)) : Prop :=
  NoDup (map fst fields)
  /\ Forall (fun kv => array_index (fst kv) = None) fields.

(** What [JSON.stringify] writes between the braces of such an object. *)
Fixpoint members (fields : list (string * string)) : string :=
  match fields with
  | [] => EmptyString
  | [(k, v)] => (quote k ++ ":" ++ quote v)%string
  | (k, v) :: rest => (quote k ++ ":" ++ quote v ++ "," ++ members rest)%string
  end.

(** The token a client builds for an object, the way [encodeCursor]
    builds its own. *)
Definition token_of (o : JSON) : string := Base64.encode (stringify o).

End CursorObjects.

Module MoreInstances.

Import Service Instances.

(** A catalogue of one movie and one show, and nobody's list yet. *)
Definition catalogue_world : World :=
  mkWorld [mkContent "movie-001" "Movie One" ["Action"]]
          [mkContent "show-001" "Show One" ["SciFi"]]
          [] (Cache.new (Cache.mkOptions 30 100)).

(** A cache of capacity two after three insertions, and an empty cache
    whose entries never expire. *)
Definition full_cache : Cache.InMemoryCache nat :=
  Cache.insert_all (Cache.new (Cache.mkOptions 30 2)) three_inserts.

Definition empty_cache : Cache.InMemoryCache nat :=
  Cache.new (Cache.mkOptions 0 2).

End MoreInstances.

(* ================================================================== *)
(** * Properties of the cache *)
(* ================================================================== *)

Module CacheFacts.

Import Cache.

Section WithValue.

Context {Value : Type}.

Implicit Types (m : list (string * CacheEntry Value)) (c : InMemoryCache Value).

(** ** The map operations *)

Lemma map_get_In key m e :
  map_get key m = Some e -> In (key, e) m.
Proof.
  induction m as [|[k e0] m IH]; simpl; [discriminate|].
  destruct (String.eqb_spec k key) as [->|Hne].
  - intros [= ->]. now left.
  - intros H. right. now apply IH.
Qed.

Lemma map_get_None key m :
  map_get key m = None <-> ~ In key (keys m).
Proof.
  induction m as [|[k e0] m IH]; simpl.
  - split; [intros _ []|reflexivity].
  - destruct (String.eqb_spec k key) as [->|Hne].
    + split; [discriminate|]. intros H. exfalso. apply H. now left.
    + rewrite IH. split.
      * intros H [H1|H1]; [contradiction|now apply H].
      * intros H H1. apply H. now right.
Qed.

Lemma In_map_get key e m :
  NoDup (keys m) -> In (key, e) m -> map_get key m = Some e.
Proof.
  induction m as [|[k e0] m IH]; simpl; [intros _ []|].
  intros Hnd [H|H].
  - injection H as -> ->. now rewrite String.eqb_refl.
  - inversion Hnd as [|? ? Hk Hnd']; subst.
    destruct (String.eqb_spec k key) as [->|Hne].
    + exfalso. apply Hk. change key with (fst (key, e)). now apply in_map.
    + now apply IH.
Qed.

Lemma map_get_set_same key e m :
  map_get key (map_set key e m) = Some e.
Proof.
  induction m as [|[k e0] m IH]; simpl.
  - now rewrite String.eqb_refl.
  - destruct (String.eqb_spec k key) as [->|Hne]; simpl.
    + now rewrite String.eqb_refl.
    + destruct (String.eqb_spec k key); [contradiction|exact IH].
Qed.

Lemma map_set_present key e m :
  In key (keys m) -> keys (map_set key e m) = keys m.
Proof.
  induction m as [|[k e0] m IH]; simpl; [intros []|].
  destruct (String.eqb_spec k key) as [->|Hne]; simpl; [reflexivity|].
  intros [H|H]; [contradiction|]. f_equal. now apply IH.
Qed.

Lemma map_set_absent key e m :
  ~ In key (keys m) -> map_set key e m = m ++ [(key, e)].
Proof.
  induction m as [|[k e0] m IH]; simpl; [reflexivity|].
  intros H. destruct (String.eqb_spec k key) as [->|Hne].
  - exfalso. apply H. now left.
  - f_equal. apply IH. intros H1. apply H. now right.
Qed.

Lemma keys_map_set key e m :
  keys (map_set key e m) = keys m \/ keys (map_set key e m) = keys m ++ [key].
Proof.
  destruct (in_dec string_dec key (keys m)) as [Hin|Hnin].
  - left. now apply map_set_present.
  - right. rewrite (map_set_absent _ _ _ Hnin). unfold keys. now rewrite map_app.
Qed.

Lemma map_set_In k e key e' m :
  In (k, e) (map_set key e' m) -> (k, e) = (key, e') \/ In (k, e) m.
Proof.
  induction m as [|[k0 e0] m IH]; simpl.
  - intros [H|[]]. left. now symmetry.
  - destruct (String.eqb_spec k0 key) as [->|Hne]; simpl.
    + intros [H|H]; [left; now symmetry|right; now right].
    + intros [H|H]; [right; now left|].
      destruct (IH H) as [H1|H1]; [now left|right; now right].
Qed.

Lemma NoDup_map_set key e m :
  NoDup (keys m) -> NoDup (keys (map_set key e m)).
Proof.
  intros Hnd. destruct (in_dec string_dec key (keys m)) as [Hin|Hnin].
  - now rewrite map_set_present.
  - rewrite (map_set_absent _ _ _ Hnin). unfold keys. rewrite map_app. simpl.
    apply NoDup_app; [exact Hnd|repeat constructor; intros []|].
    intros x Hx [<-|[]]. now apply Hnin.
Qed.

Lemma map_delete_incl k e key m :
  In (k, e) (map_delete key m) -> In (k, e) m.
Proof.
  induction m as [|[k0 e0] m IH]; simpl; [intros []|].
  destruct (String.eqb k0 key); simpl.
  - intros H. now right.
  - intros [H|H]; [now left|right; now apply IH].
Qed.

Lemma keys_map_delete_incl k key m :
  In k (keys (map_delete key m)) -> In k (keys m).
Proof.
  induction m as [|[k0 e0] m IH]; simpl; [intros []|].
  destruct (String.eqb k0 key); simpl.
  - intros H. now right.
  - intros [H|H]; [now left|right; now apply IH].
Qed.

Lemma NoDup_map_delete key m :
  NoDup (keys m) -> NoDup (keys (map_delete key m)).
Proof.
  induction m as [|[k0 e0] m IH]; simpl; [constructor|].
  intros Hnd. inversion Hnd as [|? ? Hk Hnd']; subst.
  destruct (String.eqb k0 key); simpl; [exact Hnd'|].
  constructor; [|now apply IH].
  intros H. apply Hk. now apply keys_map_delete_incl in H.
Qed.

Lemma map_get_delete_same key m :
  NoDup (keys m) -> map_get key (map_delete key m) = None.
Proof.
  induction m as [|[k0 e0] m IH]; simpl; [reflexivity|].
  intros Hnd. inversion Hnd as [|? ? Hk Hnd']; subst.
  destruct (String.eqb_spec k0 key) as [->|Hne]; simpl.
  - now apply map_get_None.
  - destruct (String.eqb_spec k0 key); [contradiction|now apply IH].
Qed.

Lemma map_get_delete_other key key' m :
  key <> key' -> map_get key (map_delete key' m) = map_get key m.
Proof.
  intros Hne. induction m as [|[k0 e0] m IH]; simpl; [reflexivity|].
  destruct (String.eqb_spec k0 key') as [->|Hne']; simpl.
  - destruct (String.eqb_spec key' key) as [->|]; [contradiction|reflexivity].
  - destruct (String.eqb_spec k0 key); [reflexivity|exact IH].
Qed.

Lemma length_map_delete key m :
  In key (keys m) -> S (List.length (map_delete key m)) = List.length m.
Proof.
  induction m as [|[k0 e0] m IH]; simpl; [intros []|].
  destruct (String.eqb_spec k0 key) as [->|Hne]; simpl; [reflexivity|].
  intros [H|H]; [contradiction|]. f_equal. now apply IH.
Qed.

Lemma length_map_delete_le key m :
  (List.length (map_delete key m) <= List.length m)%nat.
Proof.
  induction m as [|[k0 e0] m IH]; simpl; [lia|].
  destruct (String.eqb k0 key); simpl; lia.
Qed.

Lemma length_keys m : List.length (keys m) = List.length m.
Proof. unfold keys. apply length_map. Qed.

Lemma length_map_set_le key e m :
  (List.length (map_set key e m) <= S (List.length m))%nat.
Proof.
  rewrite <- !length_keys.
  destruct (keys_map_set key e m) as [->| ->]; [lia|].
  rewrite length_app. simpl. lia.
Qed.

(** ** The eviction scan *)

(** The scan returns the running minimum: no counter of the scanned entries
    is below the result, the result is not above the initial bound, and the
    key is the initial one or the key of an entry holding the minimum. *)
Lemma lruScan_spec m : forall k0 low,
  let r := lruScan m k0 low in
  (forall k e, In (k, e) m -> lt_num (lastAccessCounter e) (snd r) = false)
  /\ (forall z, lt_num z (snd r) = true -> lt_num z low = true)
  /\ (r = (k0, low)
      \/ exists k e, In (k, e) m /\ r = (Some k, Fin (lastAccessCounter e))).
Proof.
  induction m as [|[k1 e1] m IH]; intros k0 low; simpl.
  - split; [intros ? ? []|]. split; [auto|now left].
  - destruct (lt_num (lastAccessCounter e1) low) eqn:Hlt.
    + specialize (IH (Some k1) (Fin (lastAccessCounter e1))).
      destruct IH as (Hmin & Hle & Hkey). split; [|split].
      * intros k e [H|H]; [|now apply (Hmin k e)].
        injection H as <- <-.
        destruct (lt_num (lastAccessCounter e1) (snd (lruScan m (Some k1) (Fin (lastAccessCounter e1))))) eqn:E;
          [|reflexivity].
        apply Hle in E. simpl in E. lia.
      * intros z Hz. apply Hle in Hz. simpl in Hz.
        destruct low as [l|]; simpl in *; [lia|reflexivity].
      * right. destruct Hkey as [-> | (k & e & Hin & ->)].
        -- exists k1, e1. split; [now left|reflexivity].
        -- exists k, e. split; [now right|reflexivity].
    + specialize (IH k0 low).
      destruct IH as (Hmin & Hle & Hkey). split; [|split].
      * intros k e [H|H]; [|now apply (Hmin k e)].
        injection H as <- <-.
        destruct (lt_num (lastAccessCounter e1) (snd (lruScan m k0 low))) eqn:E;
          [|reflexivity].
        apply Hle in E. congruence.
      * exact Hle.
      * destruct Hkey as [-> | (k & e & Hin & ->)]; [now left|].
        right. exists k, e. split; [now right|reflexivity].
Qed.

(** On a non-empty store the scan finds a key, and its entry holds the
    lowest counter. *)
Lemma lruScan_found m :
  m <> [] ->
  exists k e, In (k, e) m
    /\ fst (lruScan m None PosInf) = Some k
    /\ forall k' e', In (k', e') m -> lastAccessCounter e <= lastAccessCounter e'.
Proof.
  intros Hne.
  destruct (lruScan_spec m None PosInf) as (Hmin & _ & Hkey).
  destruct Hkey as [Heq | (k & e & Hin & Heq)].
  - destruct m as [|[k1 e1] m]; [contradiction|].
    specialize (Hmin k1 e1 (or_introl eq_refl)).
    rewrite Heq in Hmin. discriminate.
  - exists k, e. split; [exact Hin|]. split; [now rewrite Heq|].
    intros k' e' Hin'. specialize (Hmin k' e' Hin').
    rewrite Heq in Hmin. simpl in Hmin. lia.
Qed.

Lemma lruScan_keep m : forall k z,
  Forall (fun ke => z < lastAccessCounter (snd ke)) m ->
  lruScan m k (Fin z) = (k, Fin z).
Proof.
  induction m as [|[k1 e1] m IH]; intros k z H; simpl; [reflexivity|].
  inversion H as [|? ? H1 H2]; subst. simpl in H1.
  replace (lastAccessCounter e1 <? z) with false by lia.
  now apply IH.
Qed.

Lemma ascending_above bound m :
  ascending bound m -> Forall (fun ke => bound < lastAccessCounter (snd ke)) m.
Proof.
  revert bound. induction m as [|[k e] m IH]; intros bound; simpl; [constructor|].
  intros [H1 H2]. constructor; [exact H1|].
  apply IH in H2. eapply Forall_impl; [|exact H2]. simpl. intros; lia.
Qed.

Lemma ascending_weaken bound bound' m :
  bound' <= bound -> ascending bound m -> ascending bound' m.
Proof.
  destruct m as [|[k e] m]; simpl; [auto|]. intros H [H1 H2]. split; [lia|exact H2].
Qed.

(** When counters ascend along the insertion order the scan stops at the
    first entry. *)
Lemma lruScan_ascending bound k e m :
  ascending bound ((k, e) :: m) ->
  fst (lruScan ((k, e) :: m) None PosInf) = Some k.
Proof.
  simpl. intros [_ H]. apply ascending_above in H.
  now rewrite lruScan_keep.
Qed.

Lemma ascending_app bound m k e :
  ascending bound m ->
  Forall (fun ke => lastAccessCounter (snd ke) < lastAccessCounter e) m ->
  bound < lastAccessCounter e ->
  ascending bound (m ++ [(k, e)]).
Proof.
  revert bound. induction m as [|[k1 e1] m IH]; intros bound; simpl.
  - intros _ _ H. now split.
  - intros [H1 H2] H3 H4. inversion H3 as [|? ? H5 H6]; subst. simpl in H5.
    split; [exact H1|]. now apply IH.
Qed.

(** ** The invariant *)

Lemma counters_bounded_weaken b b' m :
  b <= b' -> counters_bounded b m -> counters_bounded b' m.
Proof.
  intros H H1. eapply Forall_impl; [|exact H1]. simpl. intros; lia.
Qed.

Lemma counters_bounded_map_set b key e m :
  lastAccessCounter e <= b -> counters_bounded b m ->
  counters_bounded b (map_set key e m).
Proof.
  intros He Hm. apply Forall_forall. intros [k e'] Hin.
  apply map_set_In in Hin. destruct Hin as [H|H].
  - injection H as -> ->. exact He.
  - unfold counters_bounded in Hm. rewrite Forall_forall in Hm. now apply (Hm (k, e')).
Qed.

Lemma counters_bounded_map_delete b key m :
  counters_bounded b m -> counters_bounded b (map_delete key m).
Proof.
  intros Hm. apply Forall_forall. intros [k e'] Hin.
  apply map_delete_incl in Hin.
  unfold counters_bounded in Hm. rewrite Forall_forall in Hm. now apply (Hm (k, e')).
Qed.

Lemma wf_enforceMaxItems c : wf c -> wf (enforceMaxItems c).
Proof.
  intros [H1 H2]. unfold enforceMaxItems.
  destruct (map_size (store c) <=? maxItems (options c)); [now split|].
  destruct (fst (lruScan (store c) None PosInf)); [|now split].
  split; simpl; [now apply NoDup_map_delete|now apply counters_bounded_map_delete].
Qed.

Lemma wf_set c key v now : wf c -> wf (set c key v now).
Proof.
  intros [H1 H2]. unfold set. apply wf_enforceMaxItems. split; simpl.
  - now apply NoDup_map_set.
  - apply counters_bounded_map_set; simpl; [lia|].
    eapply counters_bounded_weaken; [|exact H2]. lia.
Qed.

Lemma wf_get c key now : wf c -> wf (snd (get c key now)).
Proof.
  intros [H1 H2]. unfold get.
  destruct (map_get key (store c)) as [entry|]; [|now split].
  destruct (_ && _); simpl.
  - split; simpl; [now apply NoDup_map_delete|now apply counters_bounded_map_delete].
  - split; simpl; [now apply NoDup_map_set|].
    apply counters_bounded_map_set; simpl; [lia|].
    eapply counters_bounded_weaken; [|exact H2]. lia.
Qed.

Lemma options_enforceMaxItems c : options (enforceMaxItems c) = options c.
Proof.
  unfold enforceMaxItems.
  destruct (_ <=? _); [reflexivity|].
  now destruct (fst _).
Qed.

Lemma options_set c key v now : options (set c key v now) = options c.
Proof. unfold set. now rewrite options_enforceMaxItems. Qed.

Lemma options_get c key now : options (snd (get c key now)) = options c.
Proof.
  unfold get. destruct (map_get key (store c)); [|reflexivity].
  now destruct (_ && _).
Qed.

(** After the capacity check the store is within the capacity, when it was
    at most one entry over it. *)
Lemma size_enforceMaxItems c :
  0 <= maxItems (options c) ->
  map_size (store c) <= maxItems (options c) + 1 ->
  map_size (store (enforceMaxItems c)) <= maxItems (options c).
Proof.
  intros Hmax Hsize. unfold enforceMaxItems.
  destruct (Z.leb_spec (map_size (store c)) (maxItems (options c))) as [H|H]; [exact H|].
  assert (Hne : store c <> []).
  { intros E. rewrite E in H. unfold map_size in H. simpl in H. lia. }
  destruct (lruScan_found _ Hne) as (k & e & Hin & -> & _). simpl.
  assert (Hk : In k (keys (store c))).
  { change k with (fst (k, e)). now apply in_map. }
  apply length_map_delete in Hk. unfold map_size in *. lia.
Qed.

Lemma size_set c key v now :
  0 <= maxItems (options c) ->
  map_size (store c) <= maxItems (options c) ->
  map_size (store (set c key v now)) <= maxItems (options c).
Proof.
  intros Hmax Hsize. unfold set.
  match goal with |- context [enforceMaxItems ?x] => set (c1 := x) end.
  change (maxItems (options c)) with (maxItems (options c1)).
  apply size_enforceMaxItems; [exact Hmax|].
  subst c1. simpl. unfold map_size in *.
  pose proof (length_map_set_le key
    (mkEntry v (if ttlSeconds (options c) >? 0
                then Fin (now + ttlSeconds (options c) * 1000) else PosInf)
             (accessCounter c + 1)) (store c)).
  lia.
Qed.

Lemma size_get c key now :
  map_size (store (snd (get c key now))) <= map_size (store c).
Proof.
  unfold get. destruct (map_get key (store c)) as [entry|] eqn:E; [|simpl; lia].
  destruct (_ && _); simpl; unfold map_size.
  - pose proof (length_map_delete_le key (store c)). lia.
  - rewrite <- !length_keys. rewrite map_set_present; [lia|].
    apply map_get_In in E. change key with (fst (key, entry)). now apply in_map.
Qed.

(** What holds of every state of a cache built with [opts]. *)
Lemma reachable_inv opts c :
  0 <= maxItems opts -> reachable opts c ->
  options c = opts /\ wf c /\ map_size (store c) <= maxItems opts.
Proof.
  intros Hmax H. induction H as [|c key now H IH|c key v now H IH|c key H IH|c H IH].
  - split; [reflexivity|]. split; [|simpl; unfold map_size; simpl; lia].
    split; simpl; constructor.
  - destruct IH as (Ho & Hwf & Hs). split; [now rewrite options_get|].
    split; [now apply wf_get|]. pose proof (size_get c key now). lia.
  - destruct IH as (Ho & Hwf & Hs). split; [now rewrite options_set|].
    split; [now apply wf_set|]. rewrite <- Ho. apply size_set; rewrite Ho; assumption.
  - destruct IH as (Ho & [Hw1 Hw2] & Hs). split; [exact Ho|]. split.
    + split; simpl; [now apply NoDup_map_delete|now apply counters_bounded_map_delete].
    + simpl. unfold map_size in *. pose proof (length_map_delete_le key (store c)). lia.
  - destruct IH as (Ho & Hwf & Hs). split; [exact Ho|]. split.
    + split; simpl; constructor.
    + simpl. unfold map_size. simpl. lia.
Qed.

(** ** Overwriting and insertion *)

(** A [set] on a stored key of a cache within its capacity changes that
    entry only: the keys stay as they are. *)
Lemma set_present_keys c key v now :
  map_size (store c) <= maxItems (options c) ->
  In key (keys (store c)) ->
  keys (store (set c key v now)) = keys (store c).
Proof.
  intros Hs Hin. unfold set, enforceMaxItems. simpl.
  assert (E : forall e, map_size (map_set key e (store c)) = map_size (store c)).
  { intros e. unfold map_size. rewrite <- !length_keys. now rewrite map_set_present. }
  rewrite E. replace (map_size (store c) <=? maxItems (options c)) with true by lia.
  simpl. now apply map_set_present.
Qed.

(** The entry written by [set] is in the store afterwards: when an entry is
    evicted it is another one. *)
Lemma set_stores c key v now :
  wf c -> 1 <= maxItems (options c) ->
  map_get key (store (set c key v now))
  = Some (mkEntry v (if ttlSeconds (options c) >? 0
                     then Fin (now + ttlSeconds (options c) * 1000) else PosInf)
                  (accessCounter c + 1)).
Proof.
  intros [Hnd Hb] Hmax. unfold set.
  set (e := mkEntry v _ _).
  unfold enforceMaxItems. simpl.
  destruct (Z.leb_spec (map_size (map_set key e (store c))) (maxItems (options c))) as [H|H].
  - simpl. apply map_get_set_same.
  - assert (Hne : map_set key e (store c) <> []).
    { intros E. rewrite E in H. unfold map_size in H. simpl in H. lia. }
    destruct (lruScan_found _ Hne) as (k & e0 & Hin & -> & Hmin). simpl.
    destruct (string_dec key k) as [<-|Hk].
    + exfalso.
      assert (He0 : e0 = e).
      { apply (In_map_get _ _ _ (NoDup_map_set key e _ Hnd)) in Hin.
        rewrite map_get_set_same in Hin. now injection Hin. }
      subst e0.
      assert (Hlen : (2 <= List.length (map_set key e (store c)))%nat).
      { unfold map_size in H. lia. }
      assert (Hother : exists k' e', In (k', e') (map_set key e (store c)) /\ k' <> key).
      { pose proof (NoDup_map_set key e _ Hnd) as Hnd'.
        destruct (map_set key e (store c)) as [|[k1 e1] [|[k2 e2] m]]; simpl in Hlen; try lia.
        simpl in Hnd'. inversion Hnd' as [|? ? Hk1 _]; subst.
        destruct (string_dec k1 key) as [->|Hk1'].
        - exists k2, e2. split; [right; now left|].
          intros ->. apply Hk1. now left.
        - exists k1, e1. split; [now left|exact Hk1']. }
      destruct Hother as (k' & e' & Hin' & Hk').
      specialize (Hmin k' e' Hin').
      apply map_set_In in Hin'. destruct Hin' as [Heq|Hin'].
      * injection Heq as -> _. contradiction.
      * unfold counters_bounded in Hb. rewrite Forall_forall in Hb.
        specialize (Hb (k', e') Hin'). simpl in Hb, Hmin. subst e. simpl in Hmin. lia.
    + rewrite map_get_delete_other by exact Hk. apply map_get_set_same.
Qed.

(** A [set] of a key that is not stored, on a store whose counters ascend:
    the entry goes last, and when the store is full the first entry goes. *)
Lemma set_fresh c key v now :
  (exists b, ascending b (store c)) ->
  counters_bounded (accessCounter c) (store c) ->
  ~ In key (keys (store c)) ->
  map_size (store c) <= maxItems (options c) ->
  let c' := set c key v now in
  (exists b, ascending b (store c'))
  /\ counters_bounded (accessCounter c') (store c')
  /\ options c' = options c
  /\ keys (store c')
     = if map_size (store c) <? maxItems (options c)
       then keys (store c) ++ [key] else tl (keys (store c) ++ [key]).
Proof.
  intros [b Hasc] Hb Hnin Hs. unfold set.
  set (e := mkEntry v _ _).
  rewrite (map_set_absent _ e _ Hnin).
  assert (Hasc' : exists b', ascending b' (store c ++ [(key, e)])).
  { destruct (store c) as [|[k0 e0] m] eqn:E.
    - exists (accessCounter c). simpl. split; [lia|exact I].
    - exists b. rewrite <- E in *. apply ascending_app; [exact Hasc| |].
      + eapply Forall_impl; [|exact Hb]. subst e. simpl. intros; lia.
      + rewrite E in Hasc, Hb. simpl in Hasc. inversion Hb as [|? ? H1 _]; subst.
        simpl in *. lia. }
  assert (Hb' : counters_bounded (accessCounter c + 1) (store c ++ [(key, e)])).
  { apply Forall_app. split.
    - eapply counters_bounded_weaken; [|exact Hb]. lia.
    - constructor; [simpl; lia|constructor]. }
  assert (Hsize : map_size (store c ++ [(key, e)]) = map_size (store c) + 1).
  { unfold map_size. rewrite length_app. simpl. lia. }
  assert (Hkeys : keys (store c ++ [(key, e)]) = keys (store c) ++ [key]).
  { unfold keys. now rewrite map_app. }
  unfold enforceMaxItems. simpl. rewrite Hsize.
  destruct (Z.ltb_spec (map_size (store c)) (maxItems (options c))) as [Hlt|Hge].
  - replace (map_size (store c) + 1 <=? maxItems (options c)) with true by lia.
    simpl. repeat split; assumption.
  - replace (map_size (store c) + 1 <=? maxItems (options c)) with false by lia.
    destruct Hasc' as [b' Hasc'].
    destruct (store c ++ [(key, e)]) as [|[k0 e0] m] eqn:E.
    + destruct (store c); discriminate.
    + rewrite (lruScan_ascending _ _ _ _ Hasc'). simpl.
      rewrite String.eqb_refl. simpl in Hasc'. destruct Hasc' as [_ Hasc'].
      split; [now exists (lastAccessCounter e0)|].
      split; [now inversion Hb'|]. split; [reflexivity|].
      rewrite <- Hkeys. reflexivity.
Qed.

Lemma insert_all_fresh inserts : forall c,
  0 <= maxItems (options c) ->
  (exists b, ascending b (store c)) ->
  counters_bounded (accessCounter c) (store c) ->
  map_size (store c) <= maxItems (options c) ->
  NoDup (keys (store c) ++ map insert_key inserts) ->
  keys (store (insert_all c inserts))
  = skipn (List.length (store c) + List.length inserts - Z.to_nat (maxItems (options c)))
          (keys (store c) ++ map insert_key inserts).
Proof.
  induction inserts as [|[[key v] now] inserts IH]; intros c Hmax Hasc Hb Hs Hnd.
  - simpl. rewrite app_nil_r.
    replace (_ - _)%nat with 0%nat by (unfold map_size in Hs; lia). reflexivity.
  - simpl insert_all. simpl map in *. simpl List.length.
    change (insert_key (key, v, now)) with key in *.
    assert (Hnin : ~ In key (keys (store c))).
    { intros Hin. apply NoDup_remove_2 in Hnd. apply Hnd.
      apply in_or_app. now left. }
    destruct (set_fresh c key v now Hasc Hb Hnin Hs) as (Hasc' & Hb' & Ho & Hk).
    unfold insert_all in *. simpl fold_left.
    set (c' := set c key v now) in *.
    assert (Hlen : List.length (store c') = List.length (keys (store c'))).
    { now rewrite length_keys. }
    assert (Hlenc : List.length (keys (store c)) = List.length (store c)).
    { apply length_keys. }
    assert (Happ : (keys (store c) ++ [key]) ++ map insert_key inserts
                   = keys (store c) ++ key :: map insert_key inserts).
    { now rewrite <- app_assoc. }
    destruct (Z.ltb_spec (map_size (store c)) (maxItems (options c))) as [Hlt|Hge].
    + rewrite IH; rewrite ?Ho; try assumption.
      * rewrite Hlen, Hk, Happ. rewrite length_app, Hlenc. simpl.
        f_equal. lia.
      * unfold map_size in *. rewrite Hlen, Hk, length_app, Hlenc. simpl. lia.
      * now rewrite Hk, Happ.
    + assert (Hfull : Z.of_nat (List.length (store c)) = maxItems (options c)).
      { unfold map_size in *. lia. }
      assert (Htl : tl (keys (store c) ++ [key]) ++ map insert_key inserts
                    = tl (keys (store c) ++ key :: map insert_key inserts)).
      { rewrite <- Happ. destruct (keys (store c)); reflexivity. }
      rewrite IH; rewrite ?Ho; try assumption.
      * rewrite Hlen, Hk, Htl.
        assert (Hl : List.length (tl (keys (store c) ++ [key])) = List.length (store c)).
        { destruct (keys (store c)) eqn:E; simpl in *; [lia|].
          rewrite length_app. simpl. lia. }
        rewrite Hl.
        replace (List.length (store c) + S (List.length inserts)
                 - Z.to_nat (maxItems (options c)))%nat
          with (S (List.length inserts)) by lia.
        replace (List.length (store c) + List.length inserts
                 - Z.to_nat (maxItems (options c)))%nat
          with (List.length inserts) by lia.
        destruct (keys (store c) ++ key :: map insert_key inserts) eqn:E; simpl.
        -- exfalso. destruct (keys (store c)); discriminate.
        -- reflexivity.
      * unfold map_size in *. rewrite Hlen, Hk.
        destruct (keys (store c)) eqn:E; simpl in *; [lia|].
        rewrite length_app. simpl. lia.
      * rewrite Hk, Htl.
        destruct (keys (store c) ++ key :: map insert_key inserts) eqn:E; simpl;
          [constructor|]. now inversion Hnd.
Qed.

(** ** What the entries of the store are after [get] and [set] *)

Lemma map_get_set key' e key m :
  map_get key (map_set key' e m)
  = if String.eqb key' key then Some e else map_get key m.
Proof.
  induction m as [|[k e0] m IH]; simpl.
  - destruct (String.eqb key' key); reflexivity.
  - destruct (String.eqb_spec k key') as [->|Hne]; simpl.
    + destruct (String.eqb key' key); reflexivity.
    + destruct (String.eqb_spec k key) as [->|Hne'].
      * destruct (String.eqb_spec key' key) as [->|]; [contradiction|reflexivity].
      * exact IH.
Qed.

Lemma map_get_delete_Some key key' e m :
  NoDup (keys m) ->
  map_get key (map_delete key' m) = Some e -> map_get key m = Some e.
Proof.
  intros Hnd H. destruct (string_dec key key') as [->|Hne].
  - rewrite map_get_delete_same in H by exact Hnd. discriminate.
  - now rewrite map_get_delete_other in H.
Qed.

Lemma NoDup_keys_enforceMaxItems c :
  NoDup (keys (store c)) -> NoDup (keys (store (enforceMaxItems c))).
Proof.
  intros H. unfold enforceMaxItems.
  destruct (_ <=? _); [exact H|].
  destruct (fst _); [|exact H]. simpl. now apply NoDup_map_delete.
Qed.

Lemma NoDup_keys_set c key v now :
  NoDup (keys (store c)) -> NoDup (keys (store (set c key v now))).
Proof.
  intros H. unfold set. apply NoDup_keys_enforceMaxItems. simpl.
  now apply NoDup_map_set.
Qed.

Lemma NoDup_keys_get c key now :
  NoDup (keys (store c)) -> NoDup (keys (store (snd (get c key now)))).
Proof.
  intros H. unfold get. destruct (map_get key (store c)); [|exact H].
  destruct (_ && _); simpl; [now apply NoDup_map_delete|now apply NoDup_map_set].
Qed.

(** A hit returns the value stored under the key. *)
Lemma get_hit c key now v :
  fst (get c key now) = Some v ->
  exists e, map_get key (store c) = Some e /\ value e = v.
Proof.
  unfold get. destruct (map_get key (store c)) as [e|]; [|discriminate].
  destruct (_ && _); simpl; [discriminate|]. intros [= <-]. now exists e.
Qed.

(** [get] changes no stored value. *)
Lemma get_entries c key now k e :
  NoDup (keys (store c)) ->
  map_get k (store (snd (get c key now))) = Some e ->
  exists e0, map_get k (store c) = Some e0 /\ value e0 = value e.
Proof.
  intros Hnd. unfold get.
  destruct (map_get key (store c)) as [entry|] eqn:E; [|intros H; now exists e].
  destruct (_ && _); simpl.
  - intros H. apply map_get_delete_Some in H; [|exact Hnd]. now exists e.
  - rewrite map_get_set. destruct (String.eqb_spec key k) as [<-|Hne].
    + intros [= <-]. now exists entry.
    + intros H. now exists e.
Qed.

(** After [set] an entry is the one written or was there before. *)
Lemma set_entries c key v now k e :
  NoDup (keys (store c)) ->
  map_get k (store (set c key v now)) = Some e ->
  (k = key /\ value e = v) \/ map_get k (store c) = Some e.
Proof.
  intros Hnd. unfold set, enforceMaxItems. simpl.
  set (e' := mkEntry v _ _).
  assert (H0 : map_get k (map_set key e' (store c)) = Some e ->
               (k = key /\ value e = v) \/ map_get k (store c) = Some e).
  { rewrite map_get_set. destruct (String.eqb_spec key k) as [<-|Hne].
    - intros [= <-]. now left.
    - intros H. now right. }
  destruct (_ <=? _); [exact H0|].
  destruct (fst _); [|exact H0]. simpl. intros H. apply H0.
  eapply map_get_delete_Some; [|exact H]. now apply NoDup_map_set.
Qed.

Lemma set_before_eviction c key v now :
  set c key v now = enforceMaxItems (before_eviction c key v now).
Proof. reflexivity. Qed.

(** ** The claims on the cache *)

(** C7.  In a cache with [ttlSeconds = T > 0], the entry written by [set]
    at time [t0] expires at [t0 + T * 1000] (at [+Infinity] when [T = 0]);
    a [get] up to that instant returns the value, a [get] after it returns
    nothing and leaves the store without the key. *)
Theorem cache_ttl (opts : CacheOptions) c key (v : Value) t0 :
  reachable opts c ->
  1 <= maxItems opts ->
  let c' := set c key v t0 in
  exists e,
    map_get key (store c') = Some e
    /\ value e = v
    /\ (ttlSeconds opts = 0 -> expiresAt e = PosInf)
    /\ (0 < ttlSeconds opts ->
        expiresAt e = Fin (t0 + ttlSeconds opts * 1000)
        /\ (forall now, now <= t0 + ttlSeconds opts * 1000 ->
              fst (get c' key now) = Some v)
        /\ (forall now, t0 + ttlSeconds opts * 1000 < now ->
              fst (get c' key now) = None
              /\ map_get key (store (snd (get c' key now))) = None)).
Proof.
  intros Hr Hmax c'.
  destruct (reachable_inv opts c ltac:(lia) Hr) as (Ho & Hwf & Hs).
  pose proof (set_stores c key v t0 Hwf ltac:(rewrite Ho; lia)) as Hget.
  fold c' in Hget. rewrite Ho in Hget.
  eexists. split; [exact Hget|]. split; [reflexivity|]. split.
  - intros E. simpl. rewrite E. reflexivity.
  - intros Hpos.
    assert (Hgt : (ttlSeconds opts >? 0) = true) by lia.
    rewrite Hgt in Hget. simpl. rewrite Hgt.
    split; [reflexivity|].
    assert (Ho' : options c' = opts).
    { unfold c'. now rewrite options_set. }
    split.
    + intros now Hnow. unfold get. rewrite Hget, Ho', Hgt. unfold gt_num. simpl.
      replace (now >? t0 + ttlSeconds opts * 1000) with false by lia.
      reflexivity.
    + intros now Hnow. unfold get. rewrite Hget, Ho', Hgt. unfold gt_num. simpl.
      replace (now >? t0 + ttlSeconds opts * 1000) with true by lia.
      simpl. split; [reflexivity|].
      apply map_get_delete_same. apply (wf_set c key v t0 Hwf).
Qed.

(** C8.  After [maxItems + 1] distinct keys are set in a new cache, the
    store holds exactly [maxItems] keys, all but the first one set; and
    whenever the store inside [set] is over capacity, [set] removes exactly
    one entry, one whose recency counter is the lowest. *)
Theorem lru_bound (opts : CacheOptions) (inserts : list (string * Value * Z)) :
  0 <= maxItems opts ->
  NoDup (map insert_key inserts) ->
  Z.of_nat (List.length inserts) = maxItems opts + 1 ->
  let c := insert_all (new opts) inserts in
  map_size (store c) = maxItems opts
  /\ keys (store c) = tl (map insert_key inserts)
  /\ (forall i, hd_error inserts = Some i -> map_get (insert_key i) (store c) = None)
  /\ (forall c0 key v now,
        reachable opts c0 ->
        let c1 := before_eviction c0 key v now in
        maxItems opts < map_size (store c1) ->
        exists lruKey e,
          map_get lruKey (store c1) = Some e
          /\ (forall k' e', In (k', e') (store c1) ->
                lastAccessCounter e <= lastAccessCounter e')
          /\ store (set c0 key v now) = map_delete lruKey (store c1)
          /\ map_size (store (set c0 key v now)) = map_size (store c1) - 1).
Proof.
  intros Hmax Hnd Hlen c.
  assert (Hkeys : keys (store c) = tl (map insert_key inserts)).
  { unfold c. rewrite insert_all_fresh; simpl; try assumption.
    - replace (_ - _)%nat with 1%nat by lia. now destruct (map insert_key inserts).
    - exists 0. exact I.
    - constructor. }
  split; [|split; [exact Hkeys|split]].
  - unfold map_size. rewrite <- length_keys, Hkeys.
    destruct inserts as [|i inserts]; simpl in *; [lia|]. rewrite length_map. lia.
  - intros i Hi. apply map_get_None. rewrite Hkeys.
    destruct inserts as [|i0 inserts]; [discriminate|]. injection Hi as ->.
    simpl in *. now inversion Hnd.
  - intros c0 key v now Hr c1 Hover.
    destruct (reachable_inv opts c0 Hmax Hr) as (Ho & [Hnd0 Hb0] & Hs).
    assert (Hnd1 : NoDup (keys (store c1))).
    { unfold c1, before_eviction. simpl. now apply NoDup_map_set. }
    assert (Hne : store c1 <> []).
    { intros E. rewrite E in Hover. unfold map_size in Hover. simpl in Hover. lia. }
    destruct (lruScan_found _ Hne) as (k & e & Hin & Hscan & Hmin).
    exists k, e. split; [now apply In_map_get|]. split; [exact Hmin|].
    rewrite set_before_eviction. unfold enforceMaxItems.
    assert (Ho1 : options c1 = opts) by (unfold c1; simpl; exact Ho).
    fold c1. rewrite Ho1.
    replace (map_size (store c1) <=? maxItems opts) with false by lia.
    rewrite Hscan. simpl. split; [reflexivity|].
    assert (Hk : In k (keys (store c1))).
    { change k with (fst (k, e)). now apply in_map. }
    apply length_map_delete in Hk. unfold c1 in Hk. simpl in Hk.
    unfold map_size. lia.
Qed.

(** C9.  A cache built with [maxItems >= 1] never holds more than
    [maxItems] entries after an operation; a [set] on a stored key leaves
    the keys of the store as they are. *)
Theorem cache_size_bound (opts : CacheOptions) c :
  1 <= maxItems opts ->
  reachable opts c ->
  map_size (store c) <= maxItems opts
  /\ (forall key (v : Value) now,
        In key (keys (store c)) ->
        keys (store (set c key v now)) = keys (store c)).
Proof.
  intros Hmax Hr.
  destruct (reachable_inv opts c ltac:(lia) Hr) as (Ho & Hwf & Hs).
  split; [exact Hs|].
  intros key v now Hin. apply set_present_keys; [|exact Hin].
  now rewrite Ho.
Qed.

End WithValue.

(** *** Instances *)

Import Instances.

Lemma cache_ttl_witness :
  reachable (mkOptions 30 2) (set (new (mkOptions 30 2)) "a" 1%nat 0)
  /\ 1 <= 2
  /\ exists e,
       map_get "b" (store (set (set (new (mkOptions 30 2)) "a" 1%nat 0) "b" 2%nat 7)) = Some e
       /\ value e = 2%nat.
Proof.
  split; [apply reach_set, reach_new|]. split; [lia|].
  destruct (cache_ttl (mkOptions 30 2) (set (new (mkOptions 30 2)) "a" 1%nat 0)
              "b" 2%nat 7 ltac:(apply reach_set, reach_new)
              ltac:(simpl; lia)) as (e & H1 & H2 & _).
  exists e. split; assumption.
Defined.

Lemma lru_bound_witness :
  0 <= 2 /\ NoDup (map insert_key three_inserts)
  /\ Z.of_nat (List.length three_inserts) = 2 + 1
  /\ keys (store (insert_all (new (mkOptions 30 2)) three_inserts)) = ["b"; "c"].
Proof.
  assert (Hnd : NoDup (map insert_key three_inserts)).
  { simpl. repeat constructor; simpl; intuition discriminate. }
  split; [lia|]. split; [exact Hnd|]. split; [reflexivity|].
  exact (proj1 (proj2 (lru_bound (mkOptions 30 2) three_inserts
                         ltac:(simpl; lia) Hnd eq_refl))).
Defined.

Lemma cache_size_bound_witness :
  1 <= 2 /\ reachable (mkOptions 30 2) (insert_all (new (mkOptions 30 2)) three_inserts)
  /\ map_size (store (insert_all (new (mkOptions 30 2)) three_inserts)) <= 2.
Proof.
  assert (Hr : reachable (mkOptions 30 2) (insert_all (new (mkOptions 30 2)) three_inserts)).
  { unfold insert_all, three_inserts. simpl fold_left. repeat apply reach_set. apply reach_new. }
  split; [lia|]. split; [exact Hr|].
  exact (proj1 (cache_size_bound (mkOptions 30 2) _ ltac:(simpl; lia) Hr)).
Defined.

End CacheFacts.

(* ================================================================== *)
(** * Properties of the codecs *)
(* ================================================================== *)

Module Base64Facts.

Import Base64.

Lemma byte_range c : 0 <= byte c < 256.
Proof.
  unfold byte. pose proof (N_ascii_bounded c). lia.
Qed.

Lemma chr_byte c : chr (byte c) = c.
Proof.
  unfold chr, byte. rewrite N2Z.id. apply ascii_N_embedding.
Qed.

(** Every 6-bit value has a character that is not the padding and that the
    decoder reads back. *)
Lemma unbase64_base64char v :
  0 <= v < 64 ->
  unbase64 (base64char v) = Some v /\ Ascii.eqb (base64char v) "="%char = false.
Proof.
  intros H. rewrite <- (Z2Nat.id v) by lia.
  assert (Hn : (Z.to_nat v < 64)%nat) by lia.
  generalize dependent (Z.to_nat v). clear. intros n Hn.
  do 64 (destruct n as [|n]; [split; reflexivity|]). lia.
Qed.

(** The arithmetic of one group of three bytes. *)
Lemma group_roundtrip a b c :
  0 <= a < 256 -> 0 <= b < 256 -> 0 <= c < 256 ->
  let n := a * 65536 + b * 256 + c in
  let w := n / 262144 in
  let x := (n / 4096) mod 64 in
  let y := (n / 64) mod 64 in
  let z := n mod 64 in
  (0 <= w < 64 /\ 0 <= x < 64 /\ 0 <= y < 64 /\ 0 <= z < 64)
  /\ (w * 4 + x / 16) mod 256 = a
  /\ (x mod 16) * 16 + y / 4 = b
  /\ (y mod 4) * 64 + z = c.
Proof.
  intros Ha Hb Hc n w x y z. subst n w x y z.
  Z.to_euclidean_division_equations. lia.
Qed.

Lemma list_ind3 {A : Type} (P : list A -> Prop) :
  P [] -> (forall a, P [a]) -> (forall a b, P [a; b]) ->
  (forall a b c l, P l -> P (a :: b :: c :: l)) ->
  forall l, P l.
Proof.
  intros H0 H1 H2 H3.
  fix IH 1. intros [|a [|b [|c l]]]; [exact H0|apply H1|apply H2|].
  apply H3. apply IH.
Qed.

Lemma sextets_char v rest :
  0 <= v < 64 -> sextets (base64char v :: rest) = v :: sextets rest.
Proof.
  intros H. destruct (unbase64_base64char v H) as [H1 H2].
  cbn [sextets]. now rewrite H2, H1.
Qed.

Lemma decode_encode_bytes bs :
  decode_sextets (sextets (encode_bytes bs)) = bs.
Proof.
  induction bs as [|a|a b|a b c l IH] using list_ind3.
  - reflexivity.
  - pose proof (byte_range a) as Ha.
    destruct (group_roundtrip (byte a) 0 0 Ha ltac:(lia) ltac:(lia))
      as ((Hw & Hx & _ & _) & E1 & _ & _).
    cbn [encode_bytes]. cbv zeta.
    replace (byte a * 65536) with (byte a * 65536 + 0 * 256 + 0) by lia.
    rewrite !sextets_char by assumption.
    cbn [sextets]. rewrite Ascii.eqb_refl. cbn [decode_sextets].
    now rewrite E1, chr_byte.
  - pose proof (byte_range a) as Ha. pose proof (byte_range b) as Hb.
    destruct (group_roundtrip (byte a) (byte b) 0 Ha Hb ltac:(lia))
      as ((Hw & Hx & Hy & _) & E1 & E2 & _).
    cbn [encode_bytes]. cbv zeta.
    replace (byte a * 65536 + byte b * 256)
      with (byte a * 65536 + byte b * 256 + 0) by lia.
    rewrite !sextets_char by assumption.
    cbn [sextets]. rewrite Ascii.eqb_refl. cbn [decode_sextets].
    now rewrite E1, E2, !chr_byte.
  - pose proof (byte_range a) as Ha. pose proof (byte_range b) as Hb.
    pose proof (byte_range c) as Hc.
    destruct (group_roundtrip (byte a) (byte b) (byte c) Ha Hb Hc)
      as ((Hw & Hx & Hy & Hz) & E1 & E2 & E3).
    cbn [encode_bytes]. cbv zeta.
    rewrite !sextets_char by assumption.
    cbn [decode_sextets].
    now rewrite E1, E2, E3, !chr_byte, IH.
Qed.

(** Decoding an encoded string gives the string back. *)
Lemma decode_encode s : decode (encode s) = s.
Proof.
  unfold decode, encode.
  rewrite list_ascii_of_string_of_list_ascii, decode_encode_bytes.
  apply string_of_list_ascii_of_string.
Qed.

End Base64Facts.

Module JSONFacts.

Import Base64 JSON.

Lemma append_assoc (a b c : string) : ((a ++ b) ++ c = a ++ (b ++ c))%string.
Proof. induction a as [|x a IH]; simpl; [reflexivity|now rewrite IH]. Qed.

Lemma append_inj_l (p a b : string) : (p ++ a = p ++ b)%string -> a = b.
Proof.
  induction p as [|x p IH]; simpl; [auto|]. intros [= H]. now apply IH.
Qed.

Lemma length_append (a b : string) :
  String.length (a ++ b) = (String.length a + String.length b)%nat.
Proof. induction a as [|x a IH]; simpl; [reflexivity|now rewrite IH]. Qed.

(** ** String literals *)

(** Reading the escaped form of one character gives the character. *)
Lemma parse_chars_step c tail fuel :
  parse_chars (S fuel) (quote_char c ++ tail)
  = match parse_chars fuel tail with
    | Some (str, r) => Some (String c str, r)
    | None => None
    end.
Proof.
  destruct c as [[] [] [] [] [] [] [] []]; reflexivity.
Qed.

Lemma parse_chars_quote s : forall rest fuel,
  (String.length s < fuel)%nat ->
  parse_chars fuel (quote_chars s ++ String dquote rest) = Some (s, rest).
Proof.
  induction s as [|c s IH]; intros rest fuel Hf.
  - destruct fuel as [|fuel]; [simpl in Hf; lia|]. reflexivity.
  - destruct fuel as [|fuel]; [simpl in Hf; lia|].
    cbn [quote_chars]. rewrite append_assoc, parse_chars_step.
    rewrite IH by (simpl in Hf; lia). reflexivity.
Qed.

Lemma length_quote_char c : (1 <= String.length (quote_char c))%nat.
Proof.
  destruct c as [[] [] [] [] [] [] [] []]; vm_compute; lia.
Qed.

Lemma length_quote_chars s :
  (String.length s <= String.length (quote_chars s))%nat.
Proof.
  induction s as [|c s IH]; simpl; [lia|].
  rewrite length_append. pose proof (length_quote_char c). lia.
Qed.

(** A quoted string is read back, whatever follows it. *)
Lemma parse_string_quote s rest :
  parse_string (quote_chars s ++ String dquote rest) = Some (s, rest).
Proof.
  unfold parse_string. apply parse_chars_quote.
  rewrite length_append. simpl. pose proof (length_quote_chars s). lia.
Qed.

Lemma quote_append s rest :
  (quote s ++ rest)%string = String dquote (quote_chars s ++ String dquote rest).
Proof.
  unfold quote. simpl. now rewrite append_assoc.
Qed.

(** A string value is read back by [parse_value]. *)
Lemma parse_value_quote s rest fuel :
  parse_value (S fuel) (quote s ++ rest) = Some (JString s, rest).
Proof.
  rewrite quote_append. cbn [parse_value skip_ws]. 
  change (is_ws dquote) with false. cbv iota.
  change (Ascii.eqb dquote "{") with false.
  change (Ascii.eqb dquote "[") with false.
  change (Ascii.eqb dquote dquote) with true.
  cbv iota. now rewrite parse_string_quote.
Qed.

(** ** Members of an object *)

(** One member whose value is read by [parse_value], followed by a comma:
    the member is defined and the next member is read. *)
Lemma parse_member_comma k text v rest acc fuel :
  parse_value fuel (text ++ String "," rest) = Some (v, String "," rest) ->
  parse_members (S fuel) (quote k ++ String ":" (text ++ String "," rest)) acc
  = parse_members fuel (skip_ws rest) (define k v acc).
Proof.
  intros Hv. rewrite quote_append.
  cbn -[parse_string define parse_value].
  rewrite parse_string_quote.
  cbn -[parse_string define parse_value].
  rewrite Hv.
  cbn -[parse_string define parse_value]. reflexivity.
Qed.

(** One member followed by the closing brace: the object is complete. *)
Lemma parse_member_close k text v rest acc fuel :
  parse_value fuel (text ++ String "}" rest) = Some (v, String "}" rest) ->
  parse_members (S fuel) (quote k ++ String ":" (text ++ String "}" rest)) acc
  = Some (JObject (define k v acc), rest).
Proof.
  intros Hv. rewrite quote_append.
  cbn -[parse_string define parse_value].
  rewrite parse_string_quote.
  cbn -[parse_string define parse_value].
  rewrite Hv.
  cbn -[parse_string define parse_value]. reflexivity.
Qed.

(** An object that starts with a member. *)
Lemma parse_value_object k rest fuel :
  parse_value (S fuel) (String "{" (quote k ++ rest))
  = parse_members fuel (quote k ++ rest) [].
Proof.
  rewrite quote_append.
  cbn -[parse_string define parse_members]. reflexivity.
Qed.

End JSONFacts.

(* ================================================================== *)
(** * Properties of the cursor codec and of the cache key *)
(* ================================================================== *)

Module CursorFacts.

Import JSON Service JSONFacts.

(** The serialized payload, with what follows it. *)
Lemma stringify_payload p rest :
  (stringify (payload_object p) ++ rest)%string
  = String "{"
      (quote "addedAt" ++ String ":"
        (quote (CursorPayload.addedAt p) ++ String ","
          (quote "contentId" ++ String ":"
            (quote (CursorPayload.contentId p) ++ String "}" rest))))%string.
Proof.
  unfold payload_object. cbn [stringify].
  change (("{" ++ ?x)%string) with (String "{" x).
  cbn [append]. f_equal.
  repeat (rewrite append_assoc; cbn [append]). reflexivity.
Qed.

(** The parser reads a serialized payload back, with fuel for the object,
    its two members and their values. *)
Lemma parse_value_payload p rest fuel :
  parse_value (S (S (S (S fuel)))) (stringify (payload_object p) ++ rest)
  = Some (payload_object p, rest).
Proof.
  rewrite stringify_payload, parse_value_object.
  rewrite (parse_member_comma _ _ (JString (CursorPayload.addedAt p)))
    by apply parse_value_quote.
  rewrite quote_append. cbn [skip_ws]. change (is_ws dquote) with false. cbv iota.
  rewrite <- quote_append.
  rewrite (parse_member_close _ _ (JString (CursorPayload.contentId p)))
    by apply parse_value_quote.
  reflexivity.
Qed.

Lemma parse_stringify_payload p :
  parse (stringify (payload_object p)) = Some (payload_object p).
Proof.
  unfold parse.
  assert (E : stringify (payload_object p)
              = (stringify (payload_object p) ++ EmptyString)%string).
  { generalize (stringify (payload_object p)).
    induction s as [|c s IH]; simpl; [reflexivity|now rewrite <- IH]. }
  assert (Hlen : (3 <= String.length (stringify (payload_object p)))%nat).
  { rewrite E, stringify_payload. rewrite quote_append. simpl. lia. }
  destruct (String.length (stringify (payload_object p))) as [|[|[|n]]]; try lia.
  rewrite E at 1. rewrite parse_value_payload. reflexivity.
Qed.

(** The object of a payload with two non-empty strings passes the checks
    of [decodeCursor] after its text went through base64 and back. *)
Lemma decodeCursor_encodeCursor (p : CursorPayload.t) :
  CursorPayload.addedAt p <> EmptyString ->
  CursorPayload.contentId p <> EmptyString ->
  decodeCursor (encodeCursor p) = Ok (payload_object p).
Proof.
  intros Ha Hc. unfold decodeCursor, decodeCursor_try, encodeCursor.
  rewrite Base64Facts.decode_encode, parse_stringify_payload.
  unfold payload_object. cbn [getProp lookup truthy].
  change (String.eqb "addedAt" "addedAt") with true.
  change (String.eqb "addedAt" "contentId") with false.
  change (String.eqb "contentId" "contentId") with true.
  cbv iota. cbn [truthy].
  apply String.eqb_neq in Ha, Hc. rewrite Ha, Hc. reflexivity.
Qed.

(** C6.  Decoding the token of a payload with two non-empty fields gives
    the payload back: the object with exactly the properties [addedAt] and
    [contentId], in this order, holding the two strings; and equal payloads
    have equal tokens. *)
Theorem cursor_roundtrip (p : CursorPayload.t) :
  CursorPayload.addedAt p <> EmptyString ->
  CursorPayload.contentId p <> EmptyString ->
  decodeCursor (encodeCursor p) = Ok (payload_object p)
  /\ getProp (payload_object p) "addedAt" = Ok (Some (JString (CursorPayload.addedAt p)))
  /\ getProp (payload_object p) "contentId" = Ok (Some (JString (CursorPayload.contentId p)))
  /\ forall p', CursorPayload.addedAt p' = CursorPayload.addedAt p ->
                CursorPayload.contentId p' = CursorPayload.contentId p ->
                encodeCursor p' = encodeCursor p.
Proof.
  intros Ha Hc. split; [now apply decodeCursor_encodeCursor|].
  split; [reflexivity|]. split; [reflexivity|].
  intros [a' c'] E1 E2. destruct p as [a c]. simpl in E1, E2. now subst.
Qed.

Lemma cursor_roundtrip_witness :
  let p := CursorPayload.mk "2024-01-01T00:00:00.000Z" "movie-001" in
  CursorPayload.addedAt p <> EmptyString
  /\ CursorPayload.contentId p <> EmptyString
  /\ decodeCursor (encodeCursor p) = Ok (payload_object p).
Proof.
  intros p.
  assert (Ha : CursorPayload.addedAt p <> EmptyString) by discriminate.
  assert (Hc : CursorPayload.contentId p <> EmptyString) by discriminate.
  split; [exact Ha|]. split; [exact Hc|].
  exact (proj1 (cursor_roundtrip p Ha Hc)).
Defined.

(** ** What [decodeCursor] returns *)

Lemma lookup_None key props :
  lookup key props = None <-> ~ In key (map fst props).
Proof.
  induction props as [|[k v] props IH]; simpl.
  - split; [intros _ []|reflexivity].
  - destruct (String.eqb_spec k key) as [->|Hne].
    + split; [discriminate|]. intros H. exfalso. apply H. now left.
    + rewrite IH. split.
      * intros H [H1|H1]; [contradiction|now apply H].
      * intros H H1. apply H. now right.
Qed.

Lemma keys_replace key v props :
  map fst (replace key v props) = map fst props.
Proof.
  induction props as [|[k v0] props IH]; simpl; [reflexivity|].
  destruct (String.eqb k key); simpl; [reflexivity|now rewrite IH].
Qed.

Lemma In_insert_index n key v props x :
  In x (map fst (insert_index n key v props)) <-> x = key \/ In x (map fst props).
Proof.
  induction props as [|[k v0] props IH]; simpl.
  - split; [intros [H|[]]; now left|intros [H|[]]; now left].
  - destruct (array_index k) as [m|]; [destruct (m <? n)|]; simpl; try rewrite IH;
      intuition congruence.
Qed.

Lemma NoDup_insert_index n key v props :
  ~ In key (map fst props) -> NoDup (map fst props) ->
  NoDup (map fst (insert_index n key v props)).
Proof.
  induction props as [|[k v0] props IH]; simpl; intros Hnin Hnd.
  - constructor; [intros []|constructor].
  - inversion Hnd as [|? ? Hk Hnd']; subst.
    assert (Hall : NoDup (key :: k :: map fst props)).
    { constructor; [exact Hnin|exact Hnd]. }
    destruct (array_index k) as [m|]; [destruct (m <? n)|]; simpl; try exact Hall.
    constructor.
    + rewrite In_insert_index. intros [->|H]; [|contradiction].
      apply Hnin. now left.
    + apply IH; [|exact Hnd']. intros H. apply Hnin. now right.
Qed.

Lemma NoDup_define key v props :
  NoDup (map fst props) -> NoDup (map fst (define key v props)).
Proof.
  intros Hnd. unfold define.
  destruct (lookup key props) eqn:E.
  - now rewrite keys_replace.
  - apply lookup_None in E.
    destruct (array_index key).
    + now apply NoDup_insert_index.
    + rewrite map_app. simpl. apply NoDup_app; [exact Hnd|repeat constructor; intros []|].
      intros x Hx [<-|[]]. contradiction.
Qed.

Ltac split_match H :=
  repeat match type of H with
         | context [match ?x with _ => _ end] => destruct x eqn:?; try discriminate H
         end.

(** The members read into an accumulator without repeated keys form an
    object without repeated keys. *)
Lemma parse_members_NoDup fuel : forall s acc v r,
  parse_members fuel s acc = Some (v, r) ->
  NoDup (map fst acc) ->
  exists props, v = JObject props /\ NoDup (map fst props).
Proof.
  induction fuel as [|fuel IH]; intros s acc v r H Hnd; [discriminate|].
  cbn [parse_members] in H. split_match H.
  - eapply IH; [exact H|]. now apply NoDup_define.
  - injection H as <- <-. eexists. split; [reflexivity|]. now apply NoDup_define.
Qed.

Lemma parse_elements_array fuel : forall s acc v r,
  parse_elements fuel s acc = Some (v, r) -> exists l, v = JArray l.
Proof.
  induction fuel as [|fuel IH]; intros s acc v r H; [discriminate|].
  cbn [parse_elements] in H. split_match H.
  - eapply IH; exact H.
  - injection H as <- <-. now eexists.
Qed.

Lemma parse_value_object_NoDup fuel s props r :
  parse_value fuel s = Some (JObject props, r) -> NoDup (map fst props).
Proof.
  destruct fuel as [|fuel]; [discriminate|]. intros H.
  cbn [parse_value] in H. split_match H.
  - injection H as <- <-. constructor.
  - apply parse_members_NoDup in H; [|constructor].
    destruct H as (props' & [= ->] & Hnd). exact Hnd.
  - apply parse_elements_array in H. destruct H as [l H]. discriminate.
Qed.

(** Whatever [decodeCursor] returns is an object read from the decoded
    token, without repeated keys, whose [addedAt] and [contentId] are
    truthy. *)
Lemma decodeCursor_Ok raw v :
  decodeCursor raw = Ok v ->
  exists props,
    v = JObject props
    /\ parse (Base64.decode raw) = Some v
    /\ NoDup (map fst props)
    /\ truthy (lookup "addedAt" props) = true
    /\ truthy (lookup "contentId" props) = true.
Proof.
  unfold decodeCursor, decodeCursor_try. intros H.
  destruct (parse (Base64.decode raw)) as [parsed|] eqn:Hp; [|discriminate].
  destruct parsed as [|b|z|s|l|props]; try discriminate.
  cbn [getProp] in H.
  destruct (truthy (lookup "addedAt" props)) eqn:Ha; [|discriminate].
  destruct (truthy (lookup "contentId" props)) eqn:Hc; [|discriminate].
  cbn in H. injection H as <-.
  exists props. repeat split; auto.
  unfold parse in Hp. split_match Hp. injection Hp as ->.
  eapply parse_value_object_NoDup; eassumption.
Qed.

(** [decodeCursor] throws nothing but the 400 [invalid_cursor] error, and
    throws it when the decoded text is not JSON, when the value is [null],
    and when [addedAt] or [contentId] is missing or falsy (the empty string
    in particular). *)
Lemma decodeCursor_Throw raw e :
  decodeCursor raw = Throw e -> e = invalid_cursor.
Proof.
  unfold decodeCursor. destruct (decodeCursor_try raw); [discriminate|].
  now intros [= <-].
Qed.

Lemma decodeCursor_rejects raw :
  (parse (Base64.decode raw) = None
   \/ parse (Base64.decode raw) = Some JNull
   \/ exists v, parse (Base64.decode raw) = Some v
        /\ (getProp v "addedAt" = Ok None
            \/ getProp v "addedAt" = Ok (Some (JString EmptyString))
            \/ getProp v "contentId" = Ok None
            \/ getProp v "contentId" = Ok (Some (JString EmptyString)))) ->
  decodeCursor raw = Throw invalid_cursor.
Proof.
  unfold decodeCursor, decodeCursor_try.
  intros [-> | [-> | (v & -> & H)]]; [reflexivity|reflexivity|].
  destruct (getProp v "addedAt") as [a|] eqn:Ea; [|reflexivity].
  destruct (truthy a) eqn:Ta; [|reflexivity]. cbn [negb].
  destruct (getProp v "contentId") as [c|] eqn:Ec; [|reflexivity].
  destruct (truthy c) eqn:Tc; [|reflexivity].
  exfalso. destruct H as [H|[H|[H|H]]]; injection H as ->; discriminate.
Qed.

(** The decoder skips characters outside the base64 alphabet, so a token
    with such characters in it is read as the token without them. *)
Example decodeCursor_skips_other_characters :
  decodeCursor "!eyJhZGRlZEF0IjoiQSIs ImNvbnRlbnRJZCI6IkMifQ=="
  = Ok (payload_object (CursorPayload.mk "A" "C")).
Proof. reflexivity. Qed.

(** C5.  The token [eyJhZGRlZEF0IjoxLCJjb250ZW50SWQiOjJ9] is the base64
    form of a JSON object whose [addedAt] and [contentId] are numbers.
    [decodeCursor] does not throw on it: it returns the object, which is
    not a cursor payload of two strings. *)
Theorem decodeCursor_accepts_number_fields :
  Base64.decode "eyJhZGRlZEF0IjoxLCJjb250ZW50SWQiOjJ9"
    = js "{'addedAt':1,'contentId':2}"
  /\ decodeCursor "eyJhZGRlZEF0IjoxLCJjb250ZW50SWQiOjJ9"
     = Ok (JObject [("addedAt", JNumber 1); ("contentId", JNumber 2)]).
Proof. split; reflexivity. Qed.

(** ** The cache key *)

(** C3, as stated, fails: the two tokens below carry the same [addedAt]
    and [contentId], serialized in the two orders; both are accepted, and
    the cache keys differ. *)
Lemma cacheKey_field_order_counterexample :
  exists o1 o2,
    Base64.decode "eyJhZGRlZEF0IjoiQSIsImNvbnRlbnRJZCI6IkMifQ=="
      = js "{'addedAt':'A','contentId':'C'}"
    /\ Base64.decode "eyJjb250ZW50SWQiOiJDIiwiYWRkZWRBdCI6IkEifQ=="
      = js "{'contentId':'C','addedAt':'A'}"
    /\ decodeCursor "eyJhZGRlZEF0IjoiQSIsImNvbnRlbnRJZCI6IkMifQ==" = Ok o1
    /\ decodeCursor "eyJjb250ZW50SWQiOiJDIiwiYWRkZWRBdCI6IkEifQ==" = Ok o2
    /\ getProp o1 "addedAt" = getProp o2 "addedAt"
    /\ getProp o1 "contentId" = getProp o2 "contentId"
    /\ cacheKey "user-123" (mkListOptions 20 (Some o1))
       <> cacheKey "user-123" (mkListOptions 20 (Some o2)).
Proof.
  exists (JObject [("addedAt", JString "A"); ("contentId", JString "C")]),
         (JObject [("contentId", JString "C"); ("addedAt", JString "A")]).
  repeat split; try reflexivity.
  vm_compute. discriminate.
Qed.

End CursorFacts.

(* ================================================================== *)
(** * Mutations and the HTTP binding of the list operation *)
(* ================================================================== *)

Module MutationFacts.

Import Service.

Lemma deleteOne_count userId contentId collection :
  let r := deleteOne userId contentId collection in
  (snd r = 0 /\ fst r = collection)
  \/ (snd r = 1 /\ S (List.length (fst r)) = List.length collection).
Proof.
  induction collection as [|d rest IH]; simpl; [now left|].
  destruct (same_pair userId contentId d); simpl; [now right|].
  destruct (deleteOne userId contentId rest) as [rest' n]. simpl in *.
  destruct IH as [[-> ->]|[-> H]]; [now left|right]. split; [reflexivity|].
  simpl. now rewrite H.
Qed.

(** C4.  [addToMyList] and [removeFromMyList] either throw and leave the
    collections and the cache as they were, or return after the item is
    created (deleted) and the whole cache is cleared. *)
Theorem mutation_all_or_nothing (w : World) (userId contentId : string)
    (contentType : ListableContentKind) (now : Z)
    (fault_find fault_create fault_delete : option Thrown) :
  match addToMyList w userId contentId contentType now fault_find fault_create with
  | (Throw _, w') => w' = w
  | (Ok dto, w') =>
      exists d,
        toDTO d = dto
        /\ Doc.userId d = userId /\ Doc.contentId d = contentId
        /\ my_list w' = my_list w ++ [d]
        /\ movies w' = movies w /\ tv_shows w' = tv_shows w
        /\ listCache w' = Cache.clear (listCache w)
        /\ Cache.store (listCache w') = []
  end
  /\ match removeFromMyList w userId contentId fault_delete with
     | (Throw _, w') => w' = w
     | (Ok _, w') =>
         my_list w' = fst (deleteOne userId contentId (my_list w))
         /\ S (List.length (my_list w')) = List.length (my_list w)
         /\ movies w' = movies w /\ tv_shows w' = tv_shows w
         /\ listCache w' = Cache.clear (listCache w)
         /\ Cache.store (listCache w') = []
     end.
Proof.
  split.
  - unfold addToMyList.
    destruct (resolveContentMetadata w contentId contentType fault_find)
      as [[title genres]|e]; [|reflexivity].
    destruct fault_create as [e|].
    + destruct (isDuplicateKeyError e); reflexivity.
    + unfold create. cbn [Doc.userId Doc.contentId].
      destruct (validate _); [|reflexivity]. cbn [negb].
      destruct (existsb (same_pair userId contentId) (my_list w)); [reflexivity|].
      exists (Doc.mk userId contentId contentType title genres now).
      repeat split; reflexivity.
  - unfold removeFromMyList. destruct fault_delete as [e|]; [reflexivity|].
    pose proof (deleteOne_count userId contentId (my_list w)) as H.
    destruct (deleteOne userId contentId (my_list w)) as [collection n].
    simpl in H. destruct H as [[-> ->]|[-> H]]; [reflexivity|].
    simpl. repeat split; try reflexivity. exact H.
Qed.

End MutationFacts.

Module ControllerFacts.

Import JSON Service Controller.

(** The check of [refine] leaves no limit above 100 to the guard of
    [handleListMyItems]. *)
Lemma limit_guard_unreachable req z c :
  parse_query req = Ok (z, c) -> (z >? 100) = false.
Proof.
  unfold parse_query.
  destruct (match query_limit req with Some s => Number s | None => JInt 20 end)
    as [|n]; [discriminate|].
  destruct (Z.ltb_spec 0 n); destruct (Z.leb_spec n 100); try discriminate.
  intros [= <- _]. lia.
Qed.

(** A limit that is not an integer from 1 to 100 is answered with status
    500 and code [internal_error], and nothing else happens. *)
Lemma limit_out_of_range D w req t_get t_set fault s :
  params_userId req <> EmptyString ->
  query_limit req = Some s ->
  (Number s = JNaN \/ exists z, Number s = JInt z /\ (z <= 0 \/ 100 < z)) ->
  handleListMyItems D w req t_get t_set fault = (Failure 500 "internal_error", w).
Proof.
  intros Hu Hl Hn. unfold handleListMyItems, handleListMyItems_body, parse_userId.
  destruct (params_userId req) as [|c u] eqn:Eu; [contradiction|].
  cbn [String.length].
  assert (E : (0 <? Z.of_nat (S (String.length u))) = true) by (apply Z.ltb_lt; lia).
  rewrite E.
  unfold parse_query. rewrite Hl.
  destruct Hn as [-> | (z & -> & Hz)]; [reflexivity|].
  replace ((0 <? z) && (z <=? 100)) with false; [reflexivity|].
  destruct (Z.ltb_spec 0 z); destruct (Z.leb_spec z 100); simpl; lia.
Qed.

(** C2.  The request [GET /users/user-123/my-list?limit=500] is answered
    with status 500 and code [internal_error], in every state: the error of
    the query schema is not an [HttpError]. *)
Theorem limit_500_internal_error (D : DateCodec) (w : World) (t_get t_set : Z)
    (fault : option Thrown) :
  handleListMyItems D w (mkRequest "user-123" (Some "500") None) t_get t_set fault
  = (Failure 500 "internal_error", w).
Proof. reflexivity. Qed.

End ControllerFacts.

(* ================================================================== *)
(** * The order of the list and the query of a page *)
(* ================================================================== *)

Module OrderFacts.

Import Service Pagination.

(** ** The order on strings *)

Lemma compare_refl s : String.compare s s = Eq.
Proof.
  induction s as [|c s IH]; simpl; [reflexivity|].
  unfold Ascii.compare. now rewrite N.compare_refl.
Qed.

Lemma compare_lt_trans a : forall b c,
  String.compare a b = Lt -> String.compare b c = Lt -> String.compare a c = Lt.
Proof.
  induction a as [|x a IH]; intros [|y b] [|z c]; simpl; try discriminate; auto.
  unfold Ascii.compare.
  destruct (N.compare_spec (N_of_ascii x) (N_of_ascii y)) as [E1|L1|G1];
    destruct (N.compare_spec (N_of_ascii y) (N_of_ascii z)) as [E2|L2|G2];
    try discriminate; intros H1 H2.
  - rewrite E1, E2, N.compare_refl. now apply (IH b).
  - rewrite E1. now rewrite (proj2 (N.compare_lt_iff _ _) L2).
  - rewrite <- E2. now rewrite (proj2 (N.compare_lt_iff _ _) L1).
  - assert (L : (N_of_ascii x < N_of_ascii z)%N) by lia.
    now rewrite (proj2 (N.compare_lt_iff _ _) L).
Qed.

Lemma ltb_irrefl s : String.ltb s s = false.
Proof. unfold String.ltb. now rewrite compare_refl. Qed.

Lemma ltb_trans a b c :
  String.ltb a b = true -> String.ltb b c = true -> String.ltb a c = true.
Proof.
  unfold String.ltb.
  destruct (String.compare a b) eqn:E1; try discriminate.
  destruct (String.compare b c) eqn:E2; try discriminate.
  now rewrite (compare_lt_trans a b c E1 E2).
Qed.

Lemma ltb_asym a b : String.ltb a b = true -> String.ltb b a = false.
Proof.
  intros H. destruct (String.ltb b a) eqn:E; [|reflexivity].
  pose proof (ltb_trans a b a H E) as H1. rewrite ltb_irrefl in H1. discriminate.
Qed.

Lemma ltb_total a b : String.ltb a b = true \/ a = b \/ String.ltb b a = true.
Proof.
  unfold String.ltb. rewrite (String.compare_antisym b a).
  destruct (String.compare a b) eqn:E; simpl; auto.
  right. left. now apply String.compare_eq_iff.
Qed.

Lemma leb_ltb a b : String.leb a b = negb (String.ltb b a).
Proof.
  unfold String.leb, String.ltb. rewrite (String.compare_antisym b a).
  now destruct (String.compare a b).
Qed.

(** ** The order on positions *)

Lemma key_before_irrefl p : ~ key_before p p.
Proof.
  intros [H|[_ H]]; [lia|]. rewrite ltb_irrefl in H. discriminate.
Qed.

Lemma key_before_trans p q r :
  key_before p q -> key_before q r -> key_before p r.
Proof.
  unfold key_before. intros [H1|[E1 H1]] [H2|[E2 H2]].
  - left; lia.
  - left; lia.
  - left; lia.
  - right. split; [lia|]. now apply (ltb_trans _ (snd q)).
Qed.

Lemma key_before_asym p q : key_before p q -> ~ key_before q p.
Proof.
  intros H1 H2. apply (key_before_irrefl p). now apply (key_before_trans p q p).
Qed.

Lemma key_before_total p q : key_before p q \/ p = q \/ key_before q p.
Proof.
  destruct p as [t1 c1], q as [t2 c2]. unfold key_before. simpl.
  destruct (Z.lt_trichotomy t1 t2) as [H|[H|H]];
    [right; right; left; exact H| |left; left; exact H].
  subst t2. destruct (ltb_total c1 c2) as [H|[H|H]].
  - right. right. right. now split.
  - right. left. now subst.
  - left. right. now split.
Qed.

(** The comparison of the sort: [a] may come before [b] unless [b] is
    strictly before [a]. *)
Lemma sorts_before_spec a b :
  sorts_before a b = true <-> ~ doc_before b a.
Proof.
  unfold sorts_before, doc_before, key_before, pos. simpl. rewrite leb_ltb.
  destruct (Z.ltb_spec (Doc.addedAt b) (Doc.addedAt a)) as [H|H]; simpl.
  - split; [|reflexivity]. intros _ [H1|[H1 _]]; lia.
  - destruct (Z.eqb_spec (Doc.addedAt a) (Doc.addedAt b)) as [E|E]; simpl.
    + destruct (String.ltb (Doc.contentId a) (Doc.contentId b)) eqn:El; simpl.
      * split; [discriminate|]. intros H1. exfalso. apply H1. right. now split.
      * split; [|reflexivity]. intros _ [H1|[_ H1]]; [lia|discriminate].
    + split; [discriminate|]. intros H1. exfalso. apply H1. left. lia.
Qed.

(** The second clause of the query: the document is strictly after the
    position [(at_, cid)]. *)
Lemma matches_spec userId at_ cid d :
  matches (mkQuery userId (Some (at_, cid))) d = true
  <-> Doc.userId d = userId /\ key_before (at_, cid) (pos d).
Proof.
  unfold matches, key_before, pos. simpl.
  rewrite andb_true_iff, orb_true_iff, andb_true_iff.
  rewrite String.eqb_eq, Z.ltb_lt, Z.eqb_eq. intuition.
Qed.

Lemma matches_owned userId d :
  matches (mkQuery userId None) d = String.eqb (Doc.userId d) userId.
Proof. unfold matches. simpl. apply andb_true_r. Qed.

(** ** The sort *)

Lemma insert_sorted_perm d l : Permutation (insert_sorted d l) (d :: l).
Proof.
  induction l as [|x l IH]; simpl; [reflexivity|].
  destruct (sorts_before d x); [reflexivity|].
  rewrite IH. apply perm_swap.
Qed.

Lemma sort_perm l : Permutation (sort l) l.
Proof.
  induction l as [|d l IH]; simpl; [reflexivity|].
  rewrite insert_sorted_perm. now constructor.
Qed.

Lemma insert_sorted_strict d l :
  strictly_sorted l ->
  Forall (fun x => pos x <> pos d) l ->
  strictly_sorted (insert_sorted d l).
Proof.
  unfold strictly_sorted.
  induction l as [|x l IH]; simpl; intros Hs Hne.
  - constructor; constructor.
  - inversion Hs as [|? ? Hs' Hx]; subst.
    inversion Hne as [|? ? Hxd Hne']; subst.
    destruct (sorts_before d x) eqn:E.
    + apply sorts_before_spec in E.
      assert (Hdx : doc_before d x).
      { destruct (key_before_total (pos d) (pos x)) as [H|[H|H]];
          [exact H|now symmetry in H|contradiction]. }
      constructor; [exact Hs|]. constructor; [exact Hdx|].
      eapply Forall_impl; [|exact Hx]. intros y Hy.
      now apply (key_before_trans _ (pos x)).
    + assert (Hxd' : doc_before x d).
      { destruct (key_before_total (pos x) (pos d)) as [H|[H|H]];
          [exact H|contradiction|].
        assert (sorts_before d x = true).
        { apply sorts_before_spec. now apply key_before_asym. }
        congruence. }
      constructor; [now apply IH|].
      apply Forall_forall. intros y Hy.
      apply (Permutation_in _ (insert_sorted_perm d l)) in Hy.
      destruct Hy as [<-|Hy]; [exact Hxd'|].
      rewrite Forall_forall in Hx. now apply Hx.
Qed.

Lemma sort_strict l :
  NoDup (map pos l) -> strictly_sorted (sort l).
Proof.
  induction l as [|d l IH]; simpl; intros Hnd; [constructor|].
  inversion Hnd as [|? ? Hd Hnd']; subst.
  apply insert_sorted_strict; [now apply IH|].
  apply Forall_forall. intros x Hx Hp.
  apply (Permutation_in _ (sort_perm l)) in Hx.
  apply Hd. rewrite <- Hp. now apply in_map.
Qed.

(** Two strictly sorted lists of the same documents are the same list. *)
Lemma strictly_sorted_unique l1 : forall l2,
  strictly_sorted l1 -> strictly_sorted l2 -> Permutation l1 l2 -> l1 = l2.
Proof.
  unfold strictly_sorted.
  induction l1 as [|a l1 IH]; intros l2 H1 H2 Hp.
  - apply Permutation_nil in Hp. now subst.
  - destruct l2 as [|b l2]; [apply Permutation_sym, Permutation_nil in Hp; discriminate|].
    inversion H1 as [|? ? H1' Ha]; subst. inversion H2 as [|? ? H2' Hb]; subst.
    assert (Hab : a = b).
    { assert (Ia : In a (b :: l2)) by (apply (Permutation_in _ Hp); now left).
      assert (Ib : In b (a :: l1)).
      { apply (Permutation_in _ (Permutation_sym Hp)). now left. }
      destruct Ia as [E|Ia]; [now symmetry|]. destruct Ib as [E|Ib]; [exact E|].
      rewrite Forall_forall in Ha, Hb.
      exfalso. apply (key_before_asym (pos a) (pos b)); [now apply Ha|now apply Hb]. }
    subst b. f_equal. apply IH; try assumption.
    now apply Permutation_cons_inv in Hp.
Qed.

Lemma filter_perm {A : Type} (f : A -> bool) l l' :
  Permutation l l' -> Permutation (filter f l) (filter f l').
Proof.
  induction 1 as [|x l l' _ IH|x y l|l l' l'' _ IH1 _ IH2]; simpl.
  - constructor.
  - destruct (f x); [now constructor|exact IH].
  - destruct (f x), (f y); try reflexivity. apply perm_swap.
  - now transitivity (filter f l').
Qed.

Lemma filter_strict f l : strictly_sorted l -> strictly_sorted (filter f l).
Proof.
  unfold strictly_sorted. induction 1 as [|a l Hs IH Ha]; simpl; [constructor|].
  destruct (f a); [|exact IH]. constructor; [exact IH|].
  rewrite Forall_forall in *. intros x Hx. apply filter_In in Hx. now apply Ha.
Qed.

(** In a strictly sorted list, the documents strictly after one of its
    documents are those that follow it. *)
Lemma filter_after A x B :
  strictly_sorted (A ++ x :: B) ->
  forall f : Doc.t -> bool,
    (forall d, In d (A ++ x :: B) -> (f d = true <-> key_before (pos x) (pos d))) ->
    filter f (A ++ x :: B) = B.
Proof.
  unfold strictly_sorted. intros Hs f Hf.
  induction A as [|a A IH]; simpl in *.
  - inversion Hs as [|? ? Hs' Hx]; subst.
    destruct (f x) eqn:E.
    + apply Hf in E; [|now left]. now apply key_before_irrefl in E.
    + clear E. rewrite Forall_forall in Hx.
      assert (forall d, In d B -> f d = true).
      { intros d Hd. apply Hf; [now right|]. now apply Hx. }
      clear -H. induction B as [|b B IH]; simpl; [reflexivity|].
      rewrite H by now left. f_equal. apply IH. intros d Hd. apply H. now right.
  - inversion Hs as [|? ? Hs' Ha]; subst.
    destruct (f a) eqn:E.
    + apply Hf in E; [|now left]. rewrite Forall_forall in Ha.
      exfalso. apply (key_before_asym _ _ E). apply Ha.
      apply in_or_app. right. now left.
    + apply IH; [exact Hs'|]. intros d Hd. apply Hf. now right.
Qed.

End OrderFacts.

(* ================================================================== *)
(** * Paging through a list: completeness *)
(* ================================================================== *)

Module PaginationFacts.

Import JSON Service Pagination Instances JSONFacts CursorFacts OrderFacts.

(** ** The cache keys of a user and a limit *)

Lemma cacheKey_form userId lim c :
  cacheKey userId (mkListOptions lim c) = (key_prefix userId lim ++ key_tail c)%string.
Proof.
  unfold cacheKey, key_prefix, key_tail, cursor_member. cbn [limit cursor].
  destruct c as [o|]; cbn [app stringify];
    change (("{" ++ ?x)%string) with (String "{" x);
    cbn [append]; f_equal;
    repeat (rewrite append_assoc; cbn [append]); reflexivity.
Qed.

(** Among the cursors the service hands out, the key tells the cursor. *)
Lemma cacheKey_issued_inj userId lim c1 c2 :
  issued c1 -> issued c2 ->
  cacheKey userId (mkListOptions lim c1) = cacheKey userId (mkListOptions lim c2) ->
  c1 = c2.
Proof.
  intros H1 H2. rewrite !cacheKey_form. intros H. apply append_inj_l in H.
  destruct H1 as [->|[p1 ->]], H2 as [->|[p2 ->]]; cbn [key_tail] in H;
    try reflexivity; try discriminate.
  apply append_inj_l in H.
  pose proof (parse_value_payload p1 "}" 0) as E1.
  pose proof (parse_value_payload p2 "}" 0) as E2.
  rewrite H in E1. rewrite E1 in E2. congruence.
Qed.

(** ** One call of [listMyList] on a coherent cache *)

Lemma listMyList_miss D w userId options t_get t_set cache1 :
  Cache.get (listCache w) (cacheKey userId options) t_get = (None, cache1) ->
  listMyList D w userId options t_get t_set None
  = match fresh_page D (my_list w) userId options with
    | Ok result =>
        (Ok result,
         with_cache (with_cache w cache1)
           (Cache.set cache1 (cacheKey userId options) result t_set))
    | Throw e => (Throw e, with_cache w cache1)
    end.
Proof.
  intros H. unfold listMyList, fresh_page. rewrite H.
  destruct (build_query D userId options); [|reflexivity].
  destruct (page_of D (limit options) _); reflexivity.
Qed.

Lemma listMyList_hit D w userId options t_get t_set v cache1 :
  Cache.get (listCache w) (cacheKey userId options) t_get = (Some v, cache1) ->
  listMyList D w userId options t_get t_set None = (Ok v, with_cache w cache1).
Proof. intros H. unfold listMyList. now rewrite H. Qed.

Lemma coherent_get D w userId lim key t :
  coherent D w userId lim ->
  coherent D (with_cache w (snd (Cache.get (listCache w) key t))) userId lim.
Proof.
  intros [Hnd Hc]. split; simpl.
  - now apply CacheFacts.NoDup_keys_get.
  - intros c e Hi He.
    apply CacheFacts.get_entries in He; [|exact Hnd].
    destruct He as (e0 & He0 & <-). now apply Hc.
Qed.

(** On a coherent cache [listMyList] returns the page of the collection,
    leaves the collection as it is and the cache coherent. *)
Lemma listMyList_fresh D w userId lim c t_get t_set page :
  coherent D w userId lim ->
  issued c ->
  fresh_page D (my_list w) userId (mkListOptions lim c) = Ok page ->
  exists w',
    listMyList D w userId (mkListOptions lim c) t_get t_set None = (Ok page, w')
    /\ my_list w' = my_list w
    /\ coherent D w' userId lim.
Proof.
  intros Hco Hi Hp.
  pose proof (coherent_get D w userId lim (cacheKey userId (mkListOptions lim c)) t_get Hco)
    as Hco1.
  destruct (Cache.get (listCache w) (cacheKey userId (mkListOptions lim c)) t_get)
    as [[v|] cache1] eqn:Hg; simpl in Hco1.
  - rewrite (listMyList_hit _ _ _ _ _ _ _ _ Hg).
    assert (Hv : fst (Cache.get (listCache w) (cacheKey userId (mkListOptions lim c)) t_get)
                 = Some v) by now rewrite Hg.
    apply CacheFacts.get_hit in Hv. destruct Hv as (e & He & <-).
    destruct Hco as [_ Hc]. rewrite (Hc c e Hi He) in Hp. injection Hp as <-.
    eexists. split; [reflexivity|]. split; [reflexivity|exact Hco1].
  - rewrite (listMyList_miss _ _ _ _ _ _ _ Hg), Hp.
    eexists. split; [reflexivity|]. split; [reflexivity|].
    destruct Hco1 as [Hnd1 Hc1]. simpl in Hnd1, Hc1. split; simpl.
    + now apply CacheFacts.NoDup_keys_set.
    + intros c' e Hi' He.
      apply CacheFacts.set_entries in He; [|exact Hnd1].
      destruct He as [[Hk <-]|He].
      * apply cacheKey_issued_inj in Hk; [|exact Hi'|exact Hi]. now subst c'.
      * now apply Hc1.
Qed.

(** What [listMyList] returns on a coherent cache is the page of the
    collection. *)
Lemma listMyList_Ok D w userId lim c t_get t_set page w' :
  coherent D w userId lim ->
  issued c ->
  listMyList D w userId (mkListOptions lim c) t_get t_set None = (Ok page, w') ->
  fresh_page D (my_list w) userId (mkListOptions lim c) = Ok page.
Proof.
  intros Hco Hi H.
  destruct (Cache.get (listCache w) (cacheKey userId (mkListOptions lim c)) t_get)
    as [[v|] cache1] eqn:Hg.
  - rewrite (listMyList_hit _ _ _ _ _ _ _ _ Hg) in H. injection H as <- _.
    assert (Hv : fst (Cache.get (listCache w) (cacheKey userId (mkListOptions lim c)) t_get)
                 = Some v) by now rewrite Hg.
    apply CacheFacts.get_hit in Hv. destruct Hv as (e & He & <-).
    destruct Hco as [_ Hc]. now apply Hc.
  - rewrite (listMyList_miss _ _ _ _ _ _ _ Hg) in H.
    destruct (fresh_page D (my_list w) userId (mkListOptions lim c)); [|discriminate].
    now injection H as <- _.
Qed.

(** ** The rows of a page *)

Lemma unique_positions userId (f : Doc.t -> bool) collection :
  unique_pairs collection ->
  (forall d, f d = true -> Doc.userId d = userId) ->
  NoDup (map pos (filter f collection)).
Proof.
  unfold unique_pairs. intros Hu Hf.
  induction collection as [|d l IH]; simpl; [constructor|].
  inversion Hu as [|? ? Hd Hu']; subst.
  destruct (f d) eqn:E; [|now apply IH]. simpl.
  constructor; [|now apply IH].
  intros Hin. apply in_map_iff in Hin. destruct Hin as (x & Hx & Hin).
  apply filter_In in Hin. destruct Hin as [Hin Hfx].
  apply Hd. apply in_map_iff. exists x. split; [|exact Hin].
  unfold pos in Hx. injection Hx as _ Hc.
  now rewrite Hc, (Hf _ Hfx), (Hf _ E).
Qed.

Lemma matches_userId q d : matches q d = true -> Doc.userId d = q_userId q.
Proof.
  unfold matches. intros H. apply andb_true_iff in H. now apply String.eqb_eq.
Qed.

Section Rows.

Variable userId : string.
Variable collection : list Doc.t.
Hypothesis Hunique : unique_pairs collection.

Lemma all_rows_strict : strictly_sorted (all_rows userId collection).
Proof.
  apply sort_strict. apply (unique_positions userId); [exact Hunique|].
  intros d H. now apply String.eqb_eq.
Qed.

Lemma all_rows_In d :
  In d (all_rows userId collection) <-> In d collection /\ Doc.userId d = userId.
Proof.
  unfold all_rows. split.
  - intros H. apply (Permutation_in _ (sort_perm _)) in H.
    apply filter_In in H. destruct H as [H1 H2]. split; [exact H1|].
    now apply String.eqb_eq.
  - intros [H1 H2]. apply (Permutation_in _ (Permutation_sym (sort_perm _))).
    apply filter_In. split; [exact H1|]. now apply String.eqb_eq.
Qed.

Lemma rows_first :
  sort (filter (matches (mkQuery userId None)) collection) = all_rows userId collection.
Proof.
  unfold all_rows. f_equal. apply filter_ext. intros d. apply matches_owned.
Qed.

Lemma rows_after A x B :
  all_rows userId collection = A ++ x :: B ->
  sort (filter (matches (mkQuery userId (Some (pos x)))) collection) = B.
Proof.
  intros E. set (q := mkQuery userId (Some (pos x))).
  pose proof all_rows_strict as Hs.
  assert (HB : filter (matches q) (all_rows userId collection) = B).
  { rewrite E. apply filter_after; [now rewrite <- E|].
    intros d Hd. rewrite <- E in Hd. apply all_rows_In in Hd.
    unfold q, pos at 1. rewrite matches_spec. tauto. }
  apply strictly_sorted_unique.
  - apply sort_strict. apply (unique_positions userId); [exact Hunique|].
    intros d Hd. now apply matches_userId in Hd.
  - rewrite <- HB. now apply filter_strict.
  - rewrite sort_perm, <- HB. unfold all_rows.
    transitivity (filter (matches q) (filter (owned userId) collection)).
    + clear. induction collection as [|d l IH]; simpl; [constructor|].
      destruct (matches q d) eqn:Em.
      * assert (Eo : owned userId d = true).
        { apply String.eqb_eq. now apply matches_userId in Em. }
        rewrite Eo. simpl. rewrite Em. now constructor.
      * destruct (owned userId d); simpl; [rewrite Em|]; exact IH.
    + apply filter_perm. symmetry. apply sort_perm.
Qed.

End Rows.

(** ** The page of some rows *)

Lemma last_row_app C x : last_row (C ++ [x]) = Some x.
Proof.
  induction C as [|c C IH]; [reflexivity|].
  simpl. rewrite IH. now destruct (C ++ [x]) eqn:E; [destruct C; discriminate|].
Qed.

Section Pages.

Variable D : DateCodec.
Variable lim : Z.
Hypothesis Hlim : 1 <= lim.

Lemma page_of_last B :
  (List.length B <= Z.to_nat lim)%nat ->
  page_of D lim (mongo_limit (lim + 1) B) = Ok (mkPage (map toDTO B) None).
Proof.
  intros H. unfold mongo_limit, page_of.
  replace (lim + 1 =? 0) with false by lia.
  rewrite firstn_all2 by lia.
  replace (Z.of_nat (List.length B) >? lim) with false by lia.
  reflexivity.
Qed.

Lemma page_of_more B :
  (Z.to_nat lim < List.length B)%nat ->
  exists C x B',
    B = C ++ x :: B'
    /\ List.length (C ++ [x]) = Z.to_nat lim
    /\ page_of D lim (mongo_limit (lim + 1) B)
       = Ok (mkPage (map toDTO (C ++ [x])) (Some (encodeCursor (cursor_payload D x)))).
Proof.
  intros H.
  assert (Hn : exists n, Z.to_nat lim = S n) by (exists (Z.to_nat lim - 1)%nat; lia).
  destruct Hn as [n Hn].
  assert (Hsplit : exists C x B', B = C ++ x :: B' /\ List.length C = n).
  { exists (firstn n B).
    destruct (skipn n B) as [|x B'] eqn:Es.
    - exfalso. assert (List.length (skipn n B) = 0%nat) by now rewrite Es.
      rewrite length_skipn in H0. lia.
    - exists x, B'. split; [now rewrite <- Es, firstn_skipn|].
      rewrite length_firstn. lia. }
  destruct Hsplit as (C & x & B' & -> & HC).
  exists C, x, B'. split; [reflexivity|]. split; [rewrite length_app; cbn [List.length]; lia|].
  unfold mongo_limit, page_of.
  replace (lim + 1 =? 0) with false by lia.
  replace (Z.to_nat (Z.abs (lim + 1))) with (S (S n)) by lia.
  assert (HB' : exists y B'', B' = y :: B'').
  { destruct B' as [|y B'']; [|now eexists; eexists].
    rewrite length_app in H. simpl in H. lia. }
  destruct HB' as (y & B'' & ->).
  assert (E1 : firstn (S (S n)) (C ++ x :: y :: B'') = C ++ [x; y]).
  { replace (C ++ x :: y :: B'') with ((C ++ [x; y]) ++ B'')
      by (now rewrite <- app_assoc).
    rewrite firstn_app.
    replace (S (S n) - List.length (C ++ [x; y]))%nat with 0%nat
      by (rewrite length_app; cbn [List.length]; lia).
    rewrite firstn_all2 by (rewrite length_app; cbn [List.length]; lia).
    simpl. now rewrite app_nil_r. }
  rewrite E1.
  replace (Z.of_nat (List.length (C ++ [x; y])) >? lim) with true.
  2:{ rewrite length_app; cbn [List.length]. symmetry. apply Z.gtb_lt. lia. }
  unfold slice0. replace (0 <=? lim) with true by lia. rewrite Hn.
  assert (E2 : firstn (S n) (C ++ [x; y]) = C ++ [x]).
  { replace (C ++ [x; y]) with ((C ++ [x]) ++ [y]) by (now rewrite <- app_assoc).
    rewrite firstn_app.
    replace (S n - List.length (C ++ [x]))%nat with 0%nat
      by (rewrite length_app; cbn [List.length]; lia).
    rewrite firstn_all2 by (rewrite length_app; cbn [List.length]; lia).
    simpl. now rewrite app_nil_r. }
  rewrite E2, last_row_app. reflexivity.
Qed.

End Pages.

Lemma firstn_In {A : Type} n : forall (l : list A) x, In x (firstn n l) -> In x l.
Proof.
  induction n as [|n IH]; intros [|a l] x; simpl; try tauto.
  intros [H|H]; [now left|right; now apply IH].
Qed.

(** The items of a page are rows of the query. *)
Lemma page_of_items D lim rows page :
  page_of D lim rows = Ok page ->
  forall i, In i (items page) -> exists d, In d rows /\ i = toDTO d.
Proof.
  unfold page_of. intros H i Hi.
  assert (Hsub : forall d, In d (slice0 lim rows) -> In d rows).
  { unfold slice0. intros d. destruct (0 <=? lim); apply firstn_In. }
  destruct (Z.of_nat (List.length rows) >? lim).
  - destruct (last_row (slice0 lim rows)); [|discriminate].
    injection H as <-. simpl in Hi. apply in_map_iff in Hi.
    destruct Hi as (d & <- & Hd). exists d. split; [now apply Hsub|reflexivity].
  - injection H as <-. simpl in Hi. apply in_map_iff in Hi.
    destruct Hi as (d & <- & Hd). now exists d.
Qed.

Lemma find_In q n collection d :
  In d (find q n collection) -> In d collection /\ matches q d = true.
Proof.
  unfold find, mongo_limit. intros H.
  assert (H1 : In d (sort (filter (matches q) collection))).
  { destruct (n =? 0); [exact H|now apply firstn_In in H]. }
  apply (Permutation_in _ (sort_perm _)) in H1. now apply filter_In in H1.
Qed.

(** ** The run of the client *)

Section Run.

Variable D : DateCodec.
Variable userId : string.
Variable lim : Z.
Variable collection : list Doc.t.
Variable times : nat -> Z * Z.
Hypothesis Hlim : 1 <= lim.
Hypothesis Hunique : unique_pairs collection.
Hypothesis Hvalid : valid_ids collection.

Lemma decode_position A B token :
  all_rows userId collection = A ++ B ->
  at_position D A token ->
  exists c,
    match token with
    | None => Ok None
    | Some raw =>
        match decodeCursor raw with
        | Ok c => Ok (Some c)
        | Throw e => Throw e
        end
    end = Ok c
    /\ issued c
    /\ fresh_page D collection userId (mkListOptions lim c)
       = page_of D lim (mongo_limit (lim + 1) B).
Proof.
  intros E [[-> ->]|(A' & x & -> & ->)].
  - exists None. split; [reflexivity|]. split; [now left|].
    unfold fresh_page, build_query, find. cbn [cursor limit].
    rewrite rows_first. now rewrite E.
  - assert (Hx : In x collection).
    { apply (all_rows_In userId collection). rewrite E.
      apply in_or_app. left. apply in_or_app. right. now left. }
    unfold valid_ids in Hvalid. rewrite Forall_forall in Hvalid.
    rewrite decodeCursor_encodeCursor;
      [|apply toISOString_nonempty|now apply Hvalid].
    eexists. split; [reflexivity|]. split; [right; now eexists|].
    unfold fresh_page, build_query, find, payload_object, cursor_payload.
    cbn [cursor limit lookup CursorPayload.addedAt CursorPayload.contentId].
    change (String.eqb "addedAt" "addedAt") with true.
    change (String.eqb "addedAt" "contentId") with false.
    change (String.eqb "contentId" "contentId") with true.
    cbv iota. cbn [new_Date cast_string]. rewrite parse_toISOString.
    change (Doc.addedAt x, Doc.contentId x) with (pos x).
    rewrite (rows_after userId collection Hunique A' x B); [reflexivity|].
    rewrite E. now rewrite <- app_assoc.
Qed.

(** From any position the client reads the rest of the list, with one
    call more than there are rows left at most. *)
Lemma paginate_from fuel : forall B A w token k,
  all_rows userId collection = A ++ B ->
  at_position D A token ->
  coherent D w userId lim ->
  my_list w = collection ->
  (List.length B < fuel)%nat ->
  exists pages w',
    paginate D fuel w userId lim token times k = (Done pages, w')
    /\ List.concat (map items pages) = map toDTO B
    /\ my_list w' = collection
    /\ (exists init final,
          pages = init ++ [final] /\ nextCursor final = None
          /\ Forall (fun p => nextCursor p <> None) init)
    /\ Forall (fun p => Z.of_nat (List.length (items p)) <= lim) pages.
Proof.
  induction fuel as [|fuel IH]; intros B A w token k E Hpos Hco Hdb Hfuel; [lia|].
  destruct (decode_position A B token E Hpos) as (c & Hdec & Hi & Hpage).
  cbn [paginate]. rewrite Hdec.
  destruct (le_lt_dec (List.length B) (Z.to_nat lim)) as [Hle|Hgt].
  - rewrite (page_of_last D lim Hlim B Hle) in Hpage. rewrite <- Hdb in Hpage.
    destruct (listMyList_fresh D w userId lim c (fst (times k)) (snd (times k)) _
                Hco Hi Hpage) as (w' & -> & Hdb' & _).
    cbn [nextCursor]. eexists; eexists. split; [reflexivity|].
    split; [simpl; now rewrite app_nil_r|]. split; [congruence|]. split.
    + exists [], (mkPage (map toDTO B) None). repeat split; constructor.
    + constructor; [|constructor]. simpl. rewrite length_map. lia.
  - destruct (page_of_more D lim Hlim B Hgt) as (C & x & B' & -> & HC & Hp).
    rewrite Hp in Hpage. rewrite <- Hdb in Hpage.
    destruct (listMyList_fresh D w userId lim c (fst (times k)) (snd (times k)) _
                Hco Hi Hpage) as (w1 & -> & Hdb1 & Hco1).
    cbn [nextCursor].
    destruct (IH B' ((A ++ C) ++ [x]) w1
                (Some (encodeCursor (cursor_payload D x))) (S k))
      as (pages & w2 & -> & Hcat & Hdb2 & (init & final & -> & Hfin & Hinit) & Hlen).
    + rewrite E. rewrite <- !app_assoc. reflexivity.
    + right. now exists (A ++ C), x.
    + exact Hco1.
    + congruence.
    + rewrite length_app in Hfuel, HC. simpl in Hfuel, HC. lia.
    + eexists; eexists. split; [reflexivity|]. split.
      * simpl. rewrite Hcat, <- map_app, <- app_assoc. reflexivity.
      * split; [exact Hdb2|]. split.
        -- exists (mkPage (map toDTO (C ++ [x]))
                     (Some (encodeCursor (cursor_payload D x))) :: init), final.
           split; [reflexivity|]. split; [exact Hfin|].
           constructor; [discriminate|exact Hinit].
        -- constructor; [|exact Hlen]. simpl. rewrite length_map. lia.
Qed.

End Run.

Lemma listed_before_toDTO a b :
  listed_before (toDTO a) (toDTO b) <-> doc_before a b.
Proof. reflexivity. Qed.

Lemma strictly_sorted_toDTO l :
  strictly_sorted l -> StronglySorted listed_before (map toDTO l).
Proof.
  unfold strictly_sorted. induction 1 as [|a l Hs IH Ha]; simpl; constructor.
  - exact IH.
  - apply Forall_forall. intros i Hi. apply in_map_iff in Hi.
    destruct Hi as (d & <- & Hd). rewrite Forall_forall in Ha. now apply Ha.
Qed.

Lemma listed_before_NoDup l :
  StronglySorted listed_before l -> NoDup l.
Proof.
  induction 1 as [|a l Hs IH Ha]; constructor; [|exact IH].
  intros Hin. rewrite Forall_forall in Ha. specialize (Ha a Hin).
  destruct Ha as [H|[_ H]]; [lia|]. rewrite ltb_irrefl in H. discriminate.
Qed.

(** C1.  Paging through the list of a user with a limit [lim >= 1]: the
    calls end with a page without [nextCursor], every page before it has
    one, and the pages together hold each of the user's items exactly once,
    later [addedAt] first and greater [contentId] first among equal
    [addedAt].  A page asked for with a cursor holds only items strictly
    after the cursor in that order. *)
Theorem pagination_complete (D : DateCodec) (w : World) (userId : string)
    (lim : Z) (times : nat -> Z * Z) (fuel : nat) :
  1 <= lim ->
  unique_pairs (my_list w) ->
  valid_ids (my_list w) ->
  coherent D w userId lim ->
  (List.length (filter (owned userId) (my_list w)) < fuel)%nat ->
  (exists pages w',
     paginate D fuel w userId lim None times 0 = (Done pages, w')
     /\ my_list w' = my_list w
     /\ Permutation (List.concat (map items pages))
                    (map toDTO (filter (owned userId) (my_list w)))
     /\ List.length (List.concat (map items pages))
        = List.length (filter (owned userId) (my_list w))
     /\ NoDup (List.concat (map items pages))
     /\ StronglySorted listed_before (List.concat (map items pages))
     /\ (exists init final,
           pages = init ++ [final] /\ nextCursor final = None
           /\ Forall (fun p => nextCursor p <> None) init)
     /\ Forall (fun p => Z.of_nat (List.length (items p)) <= lim) pages)
  /\ (forall p at_ t_get t_set page w',
        parseDate D (CursorPayload.addedAt p) = Some at_ ->
        listMyList D w userId (mkListOptions lim (Some (payload_object p)))
                   t_get t_set None = (Ok page, w') ->
        Forall (fun i =>
                  DTO.userId i = userId
                  /\ (DTO.addedAt i < at_
                      \/ (DTO.addedAt i = at_
                          /\ String.ltb (DTO.contentId i) (CursorPayload.contentId p)
                             = true)))
               (items page)).
Proof.
  intros Hlim Hunique Hvalid Hco Hfuel. split.
  - assert (Hperm : Permutation (all_rows userId (my_list w))
                                (filter (owned userId) (my_list w))).
    { apply sort_perm. }
    destruct (paginate_from D userId lim (my_list w) times Hlim Hunique Hvalid fuel
                (all_rows userId (my_list w)) [] w None 0%nat)
      as (pages & w' & Hrun & Hcat & Hdb & Hlast & Hlen).
    + reflexivity.
    + now left.
    + exact Hco.
    + reflexivity.
    + now rewrite (Permutation_length Hperm).
    + exists pages, w'. rewrite Hcat.
      pose proof (strictly_sorted_toDTO _ (all_rows_strict userId (my_list w) Hunique))
        as Hsorted.
      repeat split; try assumption.
      * now apply Permutation_map.
      * now rewrite length_map, (Permutation_length Hperm).
      * now apply listed_before_NoDup.
  - intros p at_ t_get t_set page w' Hdate Hlist.
    apply listMyList_Ok in Hlist; [|exact Hco|right; now eexists].
    unfold fresh_page, build_query, payload_object in Hlist.
    cbn [cursor limit lookup] in Hlist.
    change (String.eqb "addedAt" "addedAt") with true in Hlist.
    change (String.eqb "addedAt" "contentId") with false in Hlist.
    change (String.eqb "contentId" "contentId") with true in Hlist.
    cbv iota in Hlist. cbn [new_Date cast_string] in Hlist. rewrite Hdate in Hlist.
    apply Forall_forall. intros i Hi.
    destruct (page_of_items _ _ _ _ Hlist i Hi) as (d & Hd & ->).
    apply find_In in Hd. destruct Hd as [_ Hm].
    apply matches_spec in Hm. destruct Hm as [Hu Hk].
    split; [exact Hu|].
    destruct Hk as [Hk|[Hk1 Hk2]]; simpl in *; [left; exact Hk|right].
    split; [now symmetry|exact Hk2].
Qed.

(** ** The hypotheses of C1 hold of the worlds the service builds *)

Lemma coherent_cleared D w userId lim :
  Cache.store (listCache w) = [] -> coherent D w userId lim.
Proof.
  intros E. split; rewrite E; simpl; [constructor|]. intros c e _ H. discriminate H.
Qed.

Lemma create_keeps collection d collection' :
  create collection d = Ok collection' ->
  unique_pairs collection -> valid_ids collection ->
  unique_pairs collection' /\ valid_ids collection'.
Proof.
  unfold create, unique_pairs, valid_ids. intros H Hu Hv.
  destruct (validate d) eqn:Ev; [|discriminate]. cbn [negb] in H.
  destruct (existsb _ collection) eqn:Ex; [discriminate|]. injection H as <-.
  split.
  - rewrite map_app. simpl. apply NoDup_app; [exact Hu|repeat constructor; intros []|].
    intros x Hx [<-|[]]. apply in_map_iff in Hx. destruct Hx as (d0 & Hp & Hin).
    assert (Hex : existsb (same_pair (Doc.userId d) (Doc.contentId d)) collection = true).
    { apply existsb_exists. exists d0. split; [exact Hin|].
      injection Hp as E1 E2. unfold same_pair. now rewrite E1, E2, !String.eqb_refl. }
    congruence.
  - apply Forall_app. split; [exact Hv|]. constructor; [|constructor].
    unfold validate in Ev. apply andb_true_iff in Ev. destruct Ev as [Ev _].
    apply andb_true_iff in Ev. destruct Ev as [_ Ev].
    apply negb_true_iff in Ev. now apply String.eqb_neq.
Qed.

Lemma deleteOne_keeps userId contentId collection :
  unique_pairs collection -> valid_ids collection ->
  unique_pairs (fst (deleteOne userId contentId collection))
  /\ valid_ids (fst (deleteOne userId contentId collection)).
Proof.
  unfold unique_pairs, valid_ids.
  induction collection as [|d l IH]; simpl; intros Hu Hv; [now split|].
  inversion Hu as [|? ? Hd Hu']; subst. inversion Hv as [|? ? Hd' Hv']; subst.
  destruct (same_pair userId contentId d); simpl; [now split|].
  specialize (IH Hu' Hv').
  destruct (deleteOne userId contentId l) as [l' n] eqn:E. simpl in *.
  destruct IH as [IH1 IH2]. split; [|now constructor].
  constructor; [|exact IH1]. intros Hin. apply Hd.
  apply in_map_iff in Hin. destruct Hin as (x & Hx & Hin).
  apply in_map_iff. exists x. split; [exact Hx|].
  clear -E Hin. revert l' n E Hin.
  induction l as [|y l IHl]; simpl; intros l' n E Hin.
  - injection E as <- <-. destruct Hin.
  - destruct (same_pair userId contentId y).
    + injection E as <- <-. now right.
    + destruct (deleteOne userId contentId l) as [l'' n'] eqn:E'.
      injection E as <- <-. destruct Hin as [<-|Hin]; [now left|right].
      now apply (IHl l'' n' eq_refl).
Qed.

(** The unique index and the schema hold of the collection after an add
    or a remove, and the cache is then coherent for every user and limit
    when the operation returned. *)
Lemma mutations_keep D w userId contentId contentType now f1 f2 f3 :
  unique_pairs (my_list w) -> valid_ids (my_list w) ->
  (let r := addToMyList w userId contentId contentType now f1 f2 in
   unique_pairs (my_list (snd r)) /\ valid_ids (my_list (snd r))
   /\ forall dto, fst r = Ok dto -> forall u lim, coherent D (snd r) u lim)
  /\ (let r := removeFromMyList w userId contentId f3 in
      unique_pairs (my_list (snd r)) /\ valid_ids (my_list (snd r))
      /\ (fst r = Ok tt -> forall u lim, coherent D (snd r) u lim)).
Proof.
  intros Hu Hv.
  split.
  - unfold addToMyList.
    destruct (resolveContentMetadata w contentId contentType f1) as [[title genres]|e];
      [|simpl; split; [exact Hu|split; [exact Hv|discriminate]]].
    destruct f2 as [e|].
    + destruct (isDuplicateKeyError e); simpl;
        (split; [exact Hu|split; [exact Hv|discriminate]]).
    + destruct (create (my_list w) _) as [collection|e] eqn:Ec.
      * destruct (create_keeps _ _ _ Ec Hu Hv) as [Hu' Hv']. simpl.
        split; [exact Hu'|]. split; [exact Hv'|].
        intros _ _ u lim. now apply coherent_cleared.
      * destruct (isDuplicateKeyError e); simpl;
          (split; [exact Hu|split; [exact Hv|discriminate]]).
  - unfold removeFromMyList. destruct f3 as [e|];
      [simpl; split; [exact Hu|split; [exact Hv|discriminate]]|].
    pose proof (deleteOne_keeps userId contentId (my_list w) Hu Hv) as [Hu' Hv'].
    destruct (deleteOne userId contentId (my_list w)) as [collection n]. simpl in *.
    destruct (n =? 0); simpl.
    + split; [exact Hu|split; [exact Hv|discriminate]].
    + split; [exact Hu'|]. split; [exact Hv'|].
      intros _ u lim. now apply coherent_cleared.
Qed.

(** *** An instance *)

Lemma pagination_complete_witness :
  1 <= 2
  /\ unique_pairs (my_list small_world)
  /\ valid_ids (my_list small_world)
  /\ coherent plainDates small_world "user-123" 2
  /\ (List.length (filter (owned "user-123") (my_list small_world)) < 4)%nat
  /\ exists pages w',
       paginate plainDates 4 small_world "user-123" 2 None (fun _ => (0, 0)) 0
       = (Done pages, w')
       /\ List.length (List.concat (map items pages)) = 3%nat.
Proof.
  assert (H1 : 1 <= 2) by lia.
  assert (H2 : unique_pairs (my_list small_world)).
  { unfold unique_pairs. simpl. repeat constructor; simpl; intuition discriminate. }
  assert (H3 : valid_ids (my_list small_world)).
  { unfold valid_ids. simpl. repeat constructor; discriminate. }
  assert (H4 : coherent plainDates small_world "user-123" 2).
  { split; simpl; [constructor|]. intros c e _ H. discriminate H. }
  assert (H5 : (List.length (filter (owned "user-123") (my_list small_world)) < 4)%nat).
  { simpl. lia. }
  repeat (split; [assumption|]).
  destruct (pagination_complete plainDates small_world "user-123" 2
              (fun _ => (0, 0)) 4 H1 H2 H3 H4 H5)
    as [(pages & w' & Hrun & _ & _ & Hlen & _) _].
  exists pages, w'. split; [exact Hrun|exact Hlen].
Defined.

(** The run on the instance: two pages, the three items of the user in
    order, the cursor on the first page only. *)
Example paginate_small_world :
  fst (paginate plainDates 4 small_world "user-123" 2 None (fun _ => (0, 0)) 0)
  = Done
      [mkPage
         [DTO.mk "user-123" "movie-002" Movie "Movie Two" [] 3000;
          DTO.mk "user-123" "show-001" TVShow "Show One" ["SciFi"] 1000]
         (Some "eyJhZGRlZEF0IjoiVDEwMDAiLCJjb250ZW50SWQiOiJzaG93LTAwMSJ9");
       mkPage
         [DTO.mk "user-123" "movie-001" Movie "Movie One" ["Action"] 1000]
         None].
Proof. vm_compute. reflexivity. Qed.

End PaginationFacts.

(* ================================================================== *)
(** * More on the cache: recency, deletion, expiry *)
(* ================================================================== *)

Module CacheMore.

Import Cache CacheFacts Recency.

Section WithValue.

Context {Value : Type}.

Implicit Types (m : list (string * CacheEntry Value)) (c : InMemoryCache Value).

Lemma counter_fresh b m (e0 : CacheEntry Value) :
  counters_bounded b m -> b < lastAccessCounter e0 ->
  ~ In (lastAccessCounter e0) (map counter_of m).
Proof.
  intros Hb Hlt Hin. apply in_map_iff in Hin. destruct Hin as ([k e] & He & Hin).
  unfold counters_bounded in Hb. rewrite Forall_forall in Hb.
  specialize (Hb _ Hin). unfold counter_of in He. simpl in *. lia.
Qed.

Lemma NoDup_counters_map_set b key e m :
  counters_bounded b m -> b < lastAccessCounter e ->
  NoDup (map counter_of m) -> NoDup (map counter_of (map_set key e m)).
Proof.
  intros Hb Hlt. induction m as [|[k e0] m IH]; simpl; intros Hnd.
  - constructor; [intros []|constructor].
  - inversion Hnd as [|? ? Hk Hnd']; subst. inversion Hb as [|? ? Hb0 Hb']; subst.
    destruct (String.eqb k key); simpl.
    + constructor; [|exact Hnd']. now apply (counter_fresh b).
    + constructor; [|now apply IH].
      intros Hin. apply in_map_iff in Hin. destruct Hin as ([k1 e1] & He & Hin).
      apply map_set_In in Hin. destruct Hin as [Heq|Hin].
      * injection Heq as -> ->. unfold counter_of in *. simpl in *. lia.
      * apply Hk. rewrite <- He. now apply (in_map counter_of) in Hin.
Qed.

Lemma NoDup_counters_map_delete key m :
  NoDup (map counter_of m) -> NoDup (map counter_of (map_delete key m)).
Proof.
  induction m as [|[k e0] m IH]; simpl; intros Hnd; [constructor|].
  inversion Hnd as [|? ? Hk Hnd']; subst.
  destruct (String.eqb k key); simpl; [exact Hnd'|].
  constructor; [|now apply IH].
  intros Hin. apply Hk. apply in_map_iff in Hin. destruct Hin as ([k1 e1] & He & Hin).
  apply map_delete_incl in Hin. rewrite <- He. now apply (in_map counter_of) in Hin.
Qed.

Lemma positive_map_set key e m :
  1 <= lastAccessCounter e ->
  Forall (fun ke => 1 <= counter_of ke) m ->
  Forall (fun ke => 1 <= counter_of ke) (map_set key e m).
Proof.
  intros He Hm. apply Forall_forall. intros [k e'] Hin.
  apply map_set_In in Hin. destruct Hin as [H|H].
  - injection H as -> ->. exact He.
  - rewrite Forall_forall in Hm. now apply (Hm (k, e')).
Qed.

Lemma positive_map_delete key m :
  Forall (fun ke => 1 <= counter_of ke) m ->
  Forall (fun ke => 1 <= counter_of ke) (map_delete key m).
Proof.
  intros Hm. apply Forall_forall. intros [k e'] Hin.
  apply map_delete_incl in Hin. rewrite Forall_forall in Hm. now apply (Hm (k, e')).
Qed.

(** X2.  In every state of a cache no two entries hold the same recency
    counter, and every counter lies between 1 and the counter of the
    cache: the least recently used entry is always a single one. *)
Theorem counters_distinct (opts : CacheOptions) c :
  reachable opts c ->
  NoDup (map counter_of (store c))
  /\ Forall (fun ke => 1 <= counter_of ke <= accessCounter c) (store c)
  /\ 0 <= accessCounter c.
Proof.
  intros Hr.
  assert (H : NoDup (map counter_of (store c))
              /\ Forall (fun ke => 1 <= counter_of ke) (store c)
              /\ counters_bounded (accessCounter c) (store c)
              /\ 0 <= accessCounter c).
  { induction Hr as [|c key now Hr IH|c key v now Hr IH|c key Hr IH|c Hr IH].
    - simpl. repeat split; try constructor. lia.
    - destruct IH as (Hnd & Hpos & Hb & Hac). unfold get.
      destruct (map_get key (store c)) as [entry|]; [|now repeat split].
      destruct (_ && _); simpl.
      + repeat split; try assumption.
        * now apply NoDup_counters_map_delete.
        * now apply positive_map_delete.
        * now apply counters_bounded_map_delete.
      + repeat split; try lia.
        * apply (NoDup_counters_map_set (accessCounter c)); simpl; try assumption; lia.
        * apply positive_map_set; simpl; [lia|assumption].
        * apply counters_bounded_map_set; simpl; [lia|].
          eapply counters_bounded_weaken; [|exact Hb]. lia.
    - destruct IH as (Hnd & Hpos & Hb & Hac). unfold set, enforceMaxItems. simpl.
      set (e := mkEntry v _ _).
      assert (H1 : NoDup (map counter_of (map_set key e (store c)))).
      { apply (NoDup_counters_map_set (accessCounter c)); simpl; try assumption; lia. }
      assert (H2 : Forall (fun ke => 1 <= counter_of ke) (map_set key e (store c))).
      { apply positive_map_set; simpl; [lia|assumption]. }
      assert (H3 : counters_bounded (accessCounter c + 1) (map_set key e (store c))).
      { apply counters_bounded_map_set; simpl; [lia|].
        eapply counters_bounded_weaken; [|exact Hb]. lia. }
      destruct (_ <=? _); simpl; [repeat split; try assumption; lia|].
      destruct (fst _); simpl; [|repeat split; try assumption; lia].
      repeat split; try lia.
      * now apply NoDup_counters_map_delete.
      * now apply positive_map_delete.
      * now apply counters_bounded_map_delete.
    - destruct IH as (Hnd & Hpos & Hb & Hac). simpl. repeat split; try assumption.
      + now apply NoDup_counters_map_delete.
      + now apply positive_map_delete.
      + now apply counters_bounded_map_delete.
    - simpl. repeat split; try constructor. lia. }
  destruct H as (Hnd & Hpos & Hb & Hac). split; [exact Hnd|]. split; [|exact Hac].
  unfold counters_bounded in Hb. rewrite Forall_forall in *.
  intros ke Hin. specialize (Hpos ke Hin). specialize (Hb ke Hin).
  unfold counter_of in *. lia.
Qed.

(** Keys are never repeated, whatever the capacity. *)
Lemma reachable_inv_any (opts : CacheOptions) c :
  reachable opts c -> options c = opts /\ NoDup (keys (store c)).
Proof.
  induction 1 as [|c key now Hr IH|c key v now Hr IH|c key Hr IH|c Hr IH].
  - split; [reflexivity|constructor].
  - destruct IH as [Ho Hnd]. split; [now rewrite options_get|].
    now apply NoDup_keys_get.
  - destruct IH as [Ho Hnd]. split; [now rewrite options_set|].
    now apply NoDup_keys_set.
  - destruct IH as [Ho Hnd]. split; [exact Ho|]. simpl. now apply NoDup_map_delete.
  - destruct IH as [Ho Hnd]. split; [exact Ho|]. constructor.
Qed.

Lemma third_key (l : list string) a b :
  NoDup l -> (3 <= List.length l)%nat -> exists x, In x l /\ x <> a /\ x <> b.
Proof.
  intros Hnd Hlen.
  destruct l as [|x [|y [|z l]]]; simpl in Hlen; try lia.
  inversion Hnd as [|? ? Hx Hnd1]; subst. inversion Hnd1 as [|? ? Hy Hnd2]; subst.
  simpl in Hx, Hy.
  destruct (string_dec x a) as [Ea|Na]; destruct (string_dec x b) as [Eb|Nb];
    destruct (string_dec y a) as [Ea'|Na']; destruct (string_dec y b) as [Eb'|Nb'];
    try (exists x; simpl; now auto); try (exists y; simpl; now auto);
    subst; try tauto;
    exists z; simpl; (split; [now auto|split; intros ->; tauto]).
Qed.

(** X1.  A hit makes the entry the most recently used: in a cache of
    capacity two or more, the [set] of another key that follows a hit
    never evicts the entry that was hit. *)
Theorem get_protects (opts : CacheOptions) c key now v key' v' now' :
  reachable opts c ->
  2 <= maxItems opts ->
  fst (get c key now) = Some v ->
  key' <> key ->
  exists e,
    map_get key (store (set (snd (get c key now)) key' v' now')) = Some e
    /\ value e = v.
Proof.
  intros Hr Hmax Hhit Hne.
  destruct (reachable_inv opts c ltac:(lia) Hr) as (Ho & [Hnd Hb] & Hs).
  assert (Hmax' : 2 <= maxItems (options c)) by now rewrite Ho.
  unfold get in *. destruct (map_get key (store c)) as [entry|] eqn:Eg; [|discriminate].
  destruct (_ && _); [discriminate|]. simpl in Hhit. injection Hhit as <-.
  cbn [snd]. set (e1 := mkEntry (value entry) (expiresAt entry) (accessCounter c + 1)).
  unfold set, enforceMaxItems. cbn [store options accessCounter].
  set (e2 := mkEntry v' _ _).
  set (store1 := map_set key e1 (store c)).
  assert (Hg1 : map_get key (map_set key' e2 store1) = Some e1).
  { rewrite map_get_set. destruct (String.eqb_spec key' key); [contradiction|].
    apply map_get_set_same. }
  exists e1. split; [|reflexivity].
  destruct (Z.leb_spec (map_size (map_set key' e2 store1)) (maxItems (options c)))
    as [Hle|Hgt]; [exact Hg1|].
  assert (Hnd2 : NoDup (keys (map_set key' e2 store1))).
  { apply NoDup_map_set. now apply NoDup_map_set. }
  assert (Hne2 : map_set key' e2 store1 <> []).
  { intros E. rewrite E in Hgt. unfold map_size in Hgt. simpl in Hgt. lia. }
  destruct (lruScan_found _ Hne2) as (k & e0 & Hin & -> & Hmin).
  cbn [store]. rewrite map_get_delete_other; [exact Hg1|].
  intros <-.
  assert (He0 : e0 = e1).
  { apply (In_map_get _ _ _ Hnd2) in Hin. congruence. }
  subst e0.
  destruct (third_key (keys (map_set key' e2 store1)) key key' Hnd2)
    as (x & Hx & Hxk & Hxk').
  { rewrite length_keys. unfold map_size in Hgt. lia. }
  apply in_map_iff in Hx. destruct Hx as ([k3 e3] & <- & Hin3). simpl in Hxk, Hxk'.
  specialize (Hmin _ _ Hin3).
  apply map_set_In in Hin3. destruct Hin3 as [Heq|Hin3]; [congruence|].
  apply map_set_In in Hin3. destruct Hin3 as [Heq|Hin3]; [congruence|].
  unfold counters_bounded in Hb. rewrite Forall_forall in Hb.
  specialize (Hb _ Hin3). simpl in Hb, Hmin. lia.
Qed.

(** X3.  A [set] of a key leaves every other entry as it is, unless the
    store is full and the key is new: nothing is evicted before the
    capacity is reached, nor when a stored key is overwritten. *)
Theorem set_keeps_others c key (v : Value) now k e :
  map_size (store c) < maxItems (options c)
  \/ (map_size (store c) <= maxItems (options c) /\ In key (keys (store c))) ->
  k <> key ->
  map_get k (store c) = Some e ->
  map_get k (store (set c key v now)) = Some e.
Proof.
  intros Hroom Hne Hg. unfold set, enforceMaxItems. cbn [store options].
  set (e' := mkEntry v _ _).
  assert (Hsize : map_size (map_set key e' (store c)) <= maxItems (options c)).
  { unfold map_size in *. destruct Hroom as [H|[H Hin]].
    - pose proof (length_map_set_le key e' (store c)). lia.
    - rewrite <- length_keys, map_set_present by exact Hin. rewrite length_keys. lia. }
  replace (map_size (map_set key e' (store c)) <=? maxItems (options c)) with true
    by (symmetry; now apply Z.leb_le).
  cbn [store]. rewrite map_get_set.
  destruct (String.eqb_spec key k); [congruence|exact Hg].
Qed.

Lemma map_delete_absent key m : ~ In key (keys m) -> map_delete key m = m.
Proof.
  induction m as [|[k e0] m IH]; simpl; intros H; [reflexivity|].
  destruct (String.eqb_spec k key) as [->|Hne]; [exfalso; apply H; now left|].
  f_equal. apply IH. intros H1. apply H. now right.
Qed.

(** X4.  [delete] removes the key and nothing else: a [get] of the key
    finds nothing afterwards, a [get] of another key returns what it
    returned before, and deleting a key that is not stored changes
    nothing. *)
Theorem delete_removes_only (opts : CacheOptions) c key :
  reachable opts c ->
  (forall now, fst (get (delete c key) key now) = None)
  /\ (forall k now, k <> key -> fst (get (delete c key) k now) = fst (get c k now))
  /\ (~ In key (keys (store c)) -> delete c key = c).
Proof.
  intros Hr.
  destruct (reachable_inv_any opts c Hr) as (Ho & Hnd).
  split; [|split].
  - intros now. unfold get, delete. cbn [store].
    now rewrite map_get_delete_same.
  - intros k now Hne. unfold get, delete. cbn [store options accessCounter].
    rewrite map_get_delete_other by exact Hne.
    destruct (map_get k (store c)); [|reflexivity].
    now destruct (_ && _).
  - intros Hnin. unfold delete. rewrite map_delete_absent by exact Hnin.
    now destruct c.
Qed.

(** X5.  With a [ttlSeconds] of zero or less nothing expires: the value
    written by [set] is returned by a [get] of the key at any clock
    reading. *)
Theorem no_expiry_without_ttl (opts : CacheOptions) c key (v : Value) t0 now :
  reachable opts c ->
  1 <= maxItems opts ->
  ttlSeconds opts <= 0 ->
  fst (get (set c key v t0) key now) = Some v.
Proof.
  intros Hr Hmax Httl.
  destruct (reachable_inv opts c ltac:(lia) Hr) as (Ho & Hwf & Hs).
  pose proof (set_stores c key v t0 Hwf ltac:(rewrite Ho; lia)) as Hget.
  unfold get. rewrite Hget, options_set, Ho.
  replace (ttlSeconds opts >? 0) with false
    by (symmetry; rewrite Z.gtb_ltb; apply Z.ltb_ge; lia).
  reflexivity.
Qed.

(** X6.  A [get] touches the entry of its key only: every other key keeps
    its entry, a hit keeps the value and the expiry of the entry it
    returns, and a [get] that finds no entry leaves the cache as it is. *)
Theorem get_touches_one_key c key now :
  (forall k, k <> key ->
     map_get k (store (snd (get c key now))) = map_get k (store c))
  /\ (forall v, fst (get c key now) = Some v ->
        exists e e',
          map_get key (store c) = Some e
          /\ map_get key (store (snd (get c key now))) = Some e'
          /\ value e = v /\ value e' = v /\ expiresAt e' = expiresAt e
          /\ lastAccessCounter e' = accessCounter c + 1
          /\ keys (store (snd (get c key now))) = keys (store c))
  /\ (map_get key (store c) = None -> get c key now = (None, c)).
Proof.
  unfold get. split; [|split].
  - intros k Hne. destruct (map_get key (store c)) as [entry|]; [|reflexivity].
    destruct (_ && _); cbn [snd store].
    + now apply map_get_delete_other.
    + rewrite map_get_set. destruct (String.eqb_spec key k); [congruence|reflexivity].
  - intros v. destruct (map_get key (store c)) as [entry|] eqn:E; [|discriminate].
    destruct (_ && _); [discriminate|]. cbn [fst snd store]. intros [= <-].
    exists entry. eexists. split; [reflexivity|]. split; [apply map_get_set_same|].
    repeat split. apply map_set_present.
    apply map_get_In in E. change key with (fst (key, entry)). now apply in_map.
  - now intros ->.
Qed.

End WithValue.

(** *** Instances *)

Import Instances MoreInstances.

Lemma full_cache_reachable : reachable (mkOptions 30 2) full_cache.
Proof.
  unfold full_cache, insert_all, three_inserts. simpl fold_left.
  repeat apply reach_set. apply reach_new.
Qed.

Lemma get_protects_witness :
  reachable (mkOptions 30 2) full_cache
  /\ 2 <= 2
  /\ fst (get full_cache "b" 10) = Some 2%nat
  /\ "d" <> "b"
  /\ exists e,
       map_get "b" (store (set (snd (get full_cache "b" 10)) "d" 4%nat 11)) = Some e
       /\ value e = 2%nat.
Proof.
  split; [exact full_cache_reachable|]. split; [lia|]. split; [reflexivity|].
  split; [discriminate|].
  exact (get_protects (mkOptions 30 2) full_cache "b" 10 2%nat "d" 4%nat 11
           full_cache_reachable ltac:(simpl; lia) eq_refl ltac:(discriminate)).
Defined.

Lemma counters_distinct_witness :
  reachable (mkOptions 30 2) full_cache
  /\ NoDup (map counter_of (store full_cache)).
Proof.
  split; [exact full_cache_reachable|].
  exact (proj1 (counters_distinct (mkOptions 30 2) full_cache full_cache_reachable)).
Defined.

Lemma set_keeps_others_witness :
  (map_size (store full_cache) <= maxItems (options full_cache)
   /\ In "c" (keys (store full_cache)))
  /\ "b" <> "c"
  /\ map_get "b" (store full_cache) = Some (mkEntry 2%nat (Fin 30005) 2)
  /\ map_get "b" (store (set full_cache "c" 7%nat 20))
     = Some (mkEntry 2%nat (Fin 30005) 2).
Proof.
  assert (H1 : map_size (store full_cache) <= maxItems (options full_cache)
               /\ In "c" (keys (store full_cache))).
  { split; [vm_compute; discriminate|]. simpl. auto. }
  assert (H2 : "b" <> "c") by discriminate.
  assert (H3 : map_get "b" (store full_cache) = Some (mkEntry 2%nat (Fin 30005) 2))
    by reflexivity.
  split; [exact H1|]. split; [exact H2|]. split; [exact H3|].
  exact (set_keeps_others full_cache "c" 7%nat 20 "b" _ (or_intror H1) H2 H3).
Defined.

Lemma delete_removes_only_witness :
  reachable (mkOptions 30 2) full_cache
  /\ forall now, fst (get (delete full_cache "b") "b" now) = None.
Proof.
  split; [exact full_cache_reachable|].
  exact (proj1 (delete_removes_only (mkOptions 30 2) full_cache "b" full_cache_reachable)).
Defined.

Lemma no_expiry_without_ttl_witness :
  reachable (mkOptions 0 2) empty_cache
  /\ 1 <= 2
  /\ ttlSeconds (mkOptions 0 2) <= 0
  /\ fst (get (set empty_cache "a" 1%nat 0) "a" 1000000000) = Some 1%nat.
Proof.
  split; [apply reach_new|]. split; [lia|]. split; [simpl; lia|].
  exact (no_expiry_without_ttl (mkOptions 0 2) empty_cache "a" 1%nat 0
           1000000000 (reach_new _) ltac:(simpl; lia) ltac:(simpl; lia)).
Defined.

Lemma get_touches_one_key_witness :
  "c" <> "b"
  /\ map_get "c" (store (snd (get full_cache "b" 10))) = map_get "c" (store full_cache).
Proof.
  split; [discriminate|].
  exact (proj1 (get_touches_one_key full_cache "b" 10) "c" ltac:(discriminate)).
Defined.

End CacheMore.

(* ================================================================== *)
(** * More on the service: outcomes of add and remove *)
(* ================================================================== *)

Module ServiceMore.

Import JSON Service Pagination Handlers.

(** The catalogue collection of a kind of content. *)
Lemma resolve_catalogue w contentId kind :
  resolveContentMetadata w contentId kind None
  = match findOne contentId (catalogue w kind) with
    | Some entry => Ok (content_title entry, content_genres entry)
    | None =>
        match kind with
        | Movie => Throw (HttpError ("Movie " ++ contentId ++ " not found") 404 "movie_not_found")
        | TVShow => Throw (HttpError ("TV show " ++ contentId ++ " not found") 404 "show_not_found")
        end
    end.
Proof.
  unfold resolveContentMetadata, catalogue. destruct kind.
  - now destruct (findOne contentId (movies w)).
  - now destruct (findOne contentId (tv_shows w)).
Qed.

Lemma findOne_None contentId collection :
  findOne contentId collection = None
  <-> forall entry, In entry collection -> id entry <> contentId.
Proof.
  induction collection as [|x l IH]; simpl.
  - split; [intros _ ? []|reflexivity].
  - destruct (String.eqb_spec (id x) contentId) as [E|N].
    + split; [discriminate|]. intros H. exfalso. apply (H x); [now left|exact E].
    + rewrite IH. split.
      * intros H entry [<-|Hin]; [exact N|now apply H].
      * intros H entry Hin. apply H. now right.
Qed.

Lemma existsb_false {A : Type} (f : A -> bool) l :
  existsb f l = false <-> forall x, In x l -> f x = false.
Proof.
  induction l as [|a l IH]; simpl.
  - split; [intros _ ? []|reflexivity].
  - rewrite orb_false_iff, IH. split.
    + intros [H1 H2] x [<-|Hin]; [exact H1|now apply H2].
    + intros H. split; [apply H; now left|]. intros x Hin. apply H. now right.
Qed.

Lemma validate_spec d :
  validate d = true
  <-> Doc.userId d <> EmptyString /\ Doc.contentId d <> EmptyString
      /\ Doc.title d <> EmptyString.
Proof.
  unfold validate. rewrite !andb_true_iff, !negb_true_iff, !String.eqb_neq. tauto.
Qed.

(** What [addToMyList] did when it returned. *)
Lemma add_returns_inv (w : World) (userId contentId : string)
    (kind : ListableContentKind) (now : Z) (dto : DTO.t) (w' : World) :
  addToMyList w userId contentId kind now None None = (Ok dto, w') ->
  exists entry,
    findOne contentId (catalogue w kind) = Some entry
    /\ userId <> EmptyString /\ contentId <> EmptyString
    /\ content_title entry <> EmptyString
    /\ (forall d, In d (my_list w) -> same_pair userId contentId d = false)
    /\ dto = DTO.mk userId contentId kind (content_title entry)
                    (content_genres entry) now
    /\ w' = mkWorld (movies w) (tv_shows w)
              (my_list w ++ [Doc.mk userId contentId kind (content_title entry)
                                    (content_genres entry) now])
              (Cache.clear (listCache w)).
Proof.
  unfold addToMyList. rewrite resolve_catalogue.
  destruct (findOne contentId (catalogue w kind)) as [entry|] eqn:Ef;
    [|destruct kind; discriminate].
  unfold create. cbn [Doc.userId Doc.contentId].
  set (d := Doc.mk userId contentId kind (content_title entry) (content_genres entry) now).
  destruct (validate d) eqn:Ev; cbn [negb]; [|discriminate].
  apply validate_spec in Ev. cbn in Ev. destruct Ev as (Hu & Hc & Ht).
  destruct (existsb (same_pair userId contentId) (my_list w)) eqn:Ex; [discriminate|].
  pose proof (proj1 (existsb_false _ _) Ex) as Hno.
  intros [= <- <-]. exists entry. repeat split; assumption.
Qed.

(** X9.  When the store does not fail, [addToMyList] returns exactly when
    the catalogue of the kind has the content, the user id, the content id
    and the title found are not empty, and the user's list has no item of
    that content; the item returned carries the title and the genres of
    the first catalogue entry with that id and the clock reading, the
    document is appended and the cache is cleared. *)
Theorem add_succeeds_iff (w : World) (userId contentId : string)
    (kind : ListableContentKind) (now : Z) (dto : DTO.t) (w' : World) :
  addToMyList w userId contentId kind now None None = (Ok dto, w')
  <-> exists entry,
        findOne contentId (catalogue w kind) = Some entry
        /\ userId <> EmptyString /\ contentId <> EmptyString
        /\ content_title entry <> EmptyString
        /\ (forall d, In d (my_list w) -> same_pair userId contentId d = false)
        /\ dto = DTO.mk userId contentId kind (content_title entry)
                        (content_genres entry) now
        /\ w' = mkWorld (movies w) (tv_shows w)
                  (my_list w ++ [Doc.mk userId contentId kind (content_title entry)
                                        (content_genres entry) now])
                  (Cache.clear (listCache w)).
Proof.
  split; [apply add_returns_inv|].
  intros (entry & Hf & Hu & Hc & Ht & Hno & -> & ->).
  unfold addToMyList. rewrite resolve_catalogue, Hf.
  unfold create. cbn [Doc.userId Doc.contentId].
  set (d := Doc.mk userId contentId kind (content_title entry) (content_genres entry) now).
  assert (Ev : validate d = true) by (apply validate_spec; cbn; tauto).
  rewrite Ev, (proj2 (existsb_false _ _) Hno). reflexivity.
Qed.

(** X8.  When the catalogue of the requested kind has no entry with the
    content id, [addToMyList] throws the 404 error of that kind,
    [movie_not_found] or [show_not_found], whatever the other catalogue
    holds; the collections and the cache stay as they are. *)
Theorem add_unknown_content (w : World) (userId contentId : string)
    (kind : ListableContentKind) (now : Z) (fault_create : option Thrown) :
  (forall entry, In entry (catalogue w kind) -> id entry <> contentId) ->
  exists message,
    addToMyList w userId contentId kind now None fault_create
    = (Throw (HttpError message 404
                (match kind with
                 | Movie => "movie_not_found"
                 | TVShow => "show_not_found"
                 end)), w).
Proof.
  intros H. pose proof (proj2 (findOne_None _ _) H) as H'. clear H. rename H' into H.
  unfold addToMyList. rewrite resolve_catalogue, H.
  destruct kind; eexists; reflexivity.
Qed.

(** X7.  After [addToMyList] returned, the same add again throws the 409
    [already_in_list] error and changes nothing: the list holds the item
    once. *)
Theorem second_add_conflicts (w : World) (userId contentId : string)
    (kind : ListableContentKind) (now now' : Z) (dto : DTO.t) (w' : World) :
  addToMyList w userId contentId kind now None None = (Ok dto, w') ->
  exists message,
    addToMyList w' userId contentId kind now' None None
    = (Throw (HttpError message 409 "already_in_list"), w')
    /\ List.length (filter (same_pair userId contentId) (my_list w')) = 1%nat.
Proof.
  intros H. apply add_returns_inv in H.
  destruct H as (entry & Hf & Hu & Hc & Ht & Hno & -> & ->).
  eexists. split.
  - unfold addToMyList. rewrite resolve_catalogue.
    assert (E : catalogue (mkWorld (movies w) (tv_shows w)
                  (my_list w ++ [Doc.mk userId contentId kind (content_title entry)
                                        (content_genres entry) now])
                  (Cache.clear (listCache w))) kind = catalogue w kind)
      by now destruct kind.
    rewrite E, Hf. unfold create. cbn [Doc.userId Doc.contentId my_list].
    set (d := Doc.mk userId contentId kind (content_title entry) (content_genres entry) now').
    assert (Ev : validate d = true) by (apply validate_spec; cbn; tauto).
    rewrite Ev. cbn [negb].
    rewrite existsb_app. cbn [existsb]. unfold same_pair at 2.
    cbn [Doc.userId Doc.contentId]. rewrite !String.eqb_refl.
    rewrite orb_true_r. reflexivity.
  - cbn [my_list]. rewrite filter_app. cbn [filter]. unfold same_pair at 2.
    cbn [Doc.userId Doc.contentId]. rewrite !String.eqb_refl. cbn.
    rewrite length_app. simpl.
    assert (E : filter (same_pair userId contentId) (my_list w) = []).
    { clear -Hno. induction (my_list w) as [|x l IH]; simpl; [reflexivity|].
      rewrite (Hno x) by now left. apply IH. intros d Hd. apply Hno. now right. }
    now rewrite E.
Qed.

Lemma deleteOne_filter userId contentId collection :
  unique_pairs collection ->
  deleteOne userId contentId collection
  = (filter (fun d => negb (same_pair userId contentId d)) collection,
     if existsb (same_pair userId contentId) collection then 1 else 0).
Proof.
  unfold unique_pairs. induction collection as [|d l IH]; simpl; intros Hu; [reflexivity|].
  inversion Hu as [|? ? Hd Hu']; subst.
  destruct (same_pair userId contentId d) eqn:E; simpl.
  - f_equal. symmetry. 
    assert (Hno : forall x, In x l -> same_pair userId contentId x = false).
    { intros x Hx. destruct (same_pair userId contentId x) eqn:Ex; [|reflexivity].
      exfalso. apply Hd. apply in_map_iff. exists x. split; [|exact Hx].
      unfold same_pair in E, Ex. apply andb_true_iff in E, Ex.
      destruct E as [E1 E2], Ex as [X1 X2].
      apply String.eqb_eq in E1, E2, X1, X2. congruence. }
    clear -Hno. induction l as [|x l IH]; simpl; [reflexivity|].
    rewrite (Hno x) by now left. simpl. f_equal. apply IH.
    intros y Hy. apply Hno. now right.
  - rewrite (IH Hu'). reflexivity.
Qed.

(** X10.  Under the unique index, and when the store does not fail,
    [removeFromMyList] throws the 404 [not_in_list] error and changes
    nothing when the user's list has no item of the content; otherwise it
    returns, the list is the former list without that item, in the same
    order, and the cache is cleared. *)
Theorem remove_outcome (w : World) (userId contentId : string) :
  unique_pairs (my_list w) ->
  (existsb (same_pair userId contentId) (my_list w) = false ->
   exists message,
     removeFromMyList w userId contentId None
     = (Throw (HttpError message 404 "not_in_list"), w))
  /\ (existsb (same_pair userId contentId) (my_list w) = true ->
      removeFromMyList w userId contentId None
      = (Ok tt,
         mkWorld (movies w) (tv_shows w)
           (filter (fun d => negb (same_pair userId contentId d)) (my_list w))
           (Cache.clear (listCache w)))).
Proof.
  intros Hu. unfold removeFromMyList. rewrite (deleteOne_filter _ _ _ Hu).
  split; intros ->; [eexists|]; reflexivity.
Qed.

(** X11.  Removing the item that [addToMyList] has just added returns and
    gives back the list as it was before the add. *)
Theorem add_then_remove (w : World) (userId contentId : string)
    (kind : ListableContentKind) (now : Z) (dto : DTO.t) (w1 : World) :
  addToMyList w userId contentId kind now None None = (Ok dto, w1) ->
  exists w2,
    removeFromMyList w1 userId contentId None = (Ok tt, w2)
    /\ my_list w2 = my_list w
    /\ movies w2 = movies w /\ tv_shows w2 = tv_shows w.
Proof.
  intros H. apply add_returns_inv in H.
  destruct H as (entry & Hf & Hu & Hc & Ht & Hno & -> & ->).
  unfold removeFromMyList. cbn [my_list].
  assert (E : deleteOne userId contentId
                (my_list w ++ [Doc.mk userId contentId kind (content_title entry)
                                      (content_genres entry) now])
              = (my_list w, 1)).
  { clear -Hno. induction (my_list w) as [|x l IH]; simpl.
    - unfold same_pair. cbn [Doc.userId Doc.contentId]. now rewrite !String.eqb_refl.
    - rewrite (Hno x) by now left. rewrite IH; [reflexivity|].
      intros d Hd. apply Hno. now right. }
  rewrite E. cbn. eexists. split; [reflexivity|]. now repeat split.
Qed.

(** *** Instances *)

Import Instances MoreInstances.

Lemma unique_small_world : unique_pairs (my_list small_world).
Proof. unfold unique_pairs. simpl. repeat constructor; simpl; intuition discriminate. Qed.

Lemma valid_small_world : valid_ids (my_list small_world).
Proof. unfold valid_ids. simpl. repeat constructor; discriminate. Qed.

Lemma add_succeeds_iff_witness :
  addToMyList catalogue_world "user-123" "movie-001" Movie 1000 None None
  = (Ok (DTO.mk "user-123" "movie-001" Movie "Movie One" ["Action"] 1000),
     mkWorld (movies catalogue_world) (tv_shows catalogue_world)
       [Doc.mk "user-123" "movie-001" Movie "Movie One" ["Action"] 1000]
       (Cache.clear (listCache catalogue_world))).
Proof.
  apply (proj2 (add_succeeds_iff catalogue_world "user-123" "movie-001" Movie 1000 _ _)).
  exists (mkContent "movie-001" "Movie One" ["Action"]).
  split; [reflexivity|]. split; [discriminate|]. split; [discriminate|].
  split; [discriminate|]. split; [intros d []|]. split; reflexivity.
Defined.

Lemma add_unknown_content_witness :
  (forall entry, In entry (catalogue catalogue_world Movie) -> id entry <> "movie-404")
  /\ exists message,
       addToMyList catalogue_world "user-123" "movie-404" Movie 1000 None None
       = (Throw (HttpError message 404 "movie_not_found"), catalogue_world).
Proof.
  assert (H : forall entry, In entry (catalogue catalogue_world Movie) ->
                            id entry <> "movie-404").
  { simpl. intros entry [<-|[]]. discriminate. }
  split; [exact H|].
  exact (add_unknown_content catalogue_world "user-123" "movie-404" Movie 1000 None H).
Defined.

Lemma second_add_conflicts_witness :
  let w' := snd (addToMyList catalogue_world "user-123" "movie-001" Movie 1000 None None) in
  exists message,
    addToMyList w' "user-123" "movie-001" Movie 2000 None None
    = (Throw (HttpError message 409 "already_in_list"), w')
    /\ List.length (filter (same_pair "user-123" "movie-001") (my_list w')) = 1%nat.
Proof.
  exact (second_add_conflicts catalogue_world "user-123" "movie-001" Movie 1000 2000
           _ _ eq_refl).
Defined.

Lemma remove_outcome_witness :
  unique_pairs (my_list small_world)
  /\ existsb (same_pair "user-123" "show-001") (my_list small_world) = true
  /\ removeFromMyList small_world "user-123" "show-001" None
     = (Ok tt,
        mkWorld (movies small_world) (tv_shows small_world)
          (filter (fun d => negb (same_pair "user-123" "show-001" d)) (my_list small_world))
          (Cache.clear (listCache small_world))).
Proof.
  split; [exact unique_small_world|]. split; [reflexivity|].
  exact (proj2 (remove_outcome small_world "user-123" "show-001" unique_small_world)
           eq_refl).
Defined.

Lemma add_then_remove_witness :
  let w1 := snd (addToMyList catalogue_world "user-123" "show-001" TVShow 1000 None None) in
  exists w2,
    removeFromMyList w1 "user-123" "show-001" None = (Ok tt, w2)
    /\ my_list w2 = my_list catalogue_world
    /\ movies w2 = movies catalogue_world /\ tv_shows w2 = tv_shows catalogue_world.
Proof.
  exact (add_then_remove catalogue_world "user-123" "show-001" TVShow 1000 _ _ eq_refl).
Defined.

End ServiceMore.

(* ================================================================== *)
(** * More on [listMyList]: the cache in front of the store, the shape of
      a page *)
(* ================================================================== *)

Module ListingMore.

Import JSON Service Pagination Instances JSONFacts CursorFacts OrderFacts PaginationFacts.

Lemma get_empty {Value : Type} (c : Cache.InMemoryCache Value) key now :
  Cache.store c = [] -> Cache.get c key now = (None, c).
Proof. intros E. unfold Cache.get. now rewrite E. Qed.

(** An add or a remove that returns leaves the cache empty. *)
Lemma mutation_clears w userId contentId kind now f1 f2 f3 :
  (forall dto w',
     addToMyList w userId contentId kind now f1 f2 = (Ok dto, w') ->
     Cache.store (listCache w') = [])
  /\ (forall w',
        removeFromMyList w userId contentId f3 = (Ok tt, w') ->
        Cache.store (listCache w') = []).
Proof.
  split.
  - intros dto w'. unfold addToMyList.
    destruct (resolveContentMetadata w contentId kind f1) as [[title genres]|e];
      [|discriminate].
    destruct f2 as [e|].
    + destruct (isDuplicateKeyError e); discriminate.
    + destruct (create (my_list w) _) as [collection|e].
      * intros [= _ <-]. reflexivity.
      * destruct (isDuplicateKeyError e); discriminate.
  - intros w'. unfold removeFromMyList. destruct f3 as [e|]; [discriminate|].
    destruct (deleteOne userId contentId (my_list w)) as [collection n].
    destruct (n =? 0); [discriminate|]. intros [= <-]. reflexivity.
Qed.

(** X12.  The first [listMyList] after an add or a remove that returned
    reads the store: for every user and every options it gives the page of
    the collection as the mutation left it, never a page cached before. *)
Theorem list_after_mutation (D : DateCodec) (w : World) (userId contentId : string)
    (kind : ListableContentKind) (now : Z) (f1 f2 f3 : option Thrown) (w' : World) :
  (exists dto, addToMyList w userId contentId kind now f1 f2 = (Ok dto, w'))
  \/ removeFromMyList w userId contentId f3 = (Ok tt, w') ->
  forall u options t_get t_set,
    fst (listMyList D w' u options t_get t_set None)
    = fresh_page D (my_list w') u options.
Proof.
  intros H u options t_get t_set.
  assert (E : Cache.store (listCache w') = []).
  { destruct (mutation_clears w userId contentId kind now f1 f2 f3) as [Ha Hr].
    destruct H as [[dto H]|H]; [exact (Ha _ _ H)|exact (Hr _ H)]. }
  rewrite (listMyList_miss D w' u options t_get t_set (listCache w')).
  - now destruct (fresh_page D (my_list w') u options).
  - now apply get_empty.
Qed.

(** X13.  A page that [listMyList] computed from the store is served from
    the cache to the same user and options while the entry lives, also
    when the store fails; once the entry has expired the store is asked
    again, and its failure is thrown. *)
Theorem repeat_served_from_cache (D : DateCodec) (opts : Cache.CacheOptions)
    (w : World) (userId : string) (options : ListOptions) (t_get t_set : Z)
    (page : ListCacheValue) (w1 : World) :
  Cache.reachable opts (listCache w) ->
  1 <= Cache.maxItems opts ->
  fst (Cache.get (listCache w) (cacheKey userId options) t_get) = None ->
  listMyList D w userId options t_get t_set None = (Ok page, w1) ->
  (forall t_get' t_set' fault,
     Cache.ttlSeconds opts <= 0 \/ t_get' <= t_set + Cache.ttlSeconds opts * 1000 ->
     fst (listMyList D w1 userId options t_get' t_set' fault) = Ok page)
  /\ (forall t_get' t_set' e,
        0 < Cache.ttlSeconds opts ->
        t_set + Cache.ttlSeconds opts * 1000 < t_get' ->
        fst (listMyList D w1 userId options t_get' t_set' (Some e)) = Throw e).
Proof.
  intros Hr Hmax Hmiss Hlist.
  set (key := cacheKey userId options) in *.
  destruct (Cache.get (listCache w) key t_get) as [v cache1] eqn:Hg.
  simpl in Hmiss. subst v.
  assert (Hr1 : Cache.reachable opts cache1).
  { replace cache1 with (snd (Cache.get (listCache w) key t_get)) by now rewrite Hg.
    now constructor. }
  destruct (CacheFacts.reachable_inv opts cache1 ltac:(lia) Hr1) as (Ho & Hwf & _).
  unfold key in Hg. rewrite (listMyList_miss _ _ _ _ _ _ _ Hg) in Hlist. fold key in Hg, Hlist.
  assert (Hq : exists q, build_query D userId options = Ok q).
  { unfold fresh_page in Hlist.
    destruct (build_query D userId options) as [q|]; [now exists q|discriminate]. }
  destruct (fresh_page D (my_list w) userId options) as [result|]; [|discriminate].
  injection Hlist as -> <-.
  pose proof (CacheFacts.set_stores cache1 key page t_set Hwf ltac:(rewrite Ho; lia))
    as Hs.
  rewrite Ho in Hs.
  assert (Ho' : Cache.options (Cache.set cache1 key page t_set) = opts)
    by now rewrite CacheFacts.options_set.
  split.
  - intros t_get' t_set' fault Hlive.
    unfold listMyList. fold key. cbn [listCache with_cache].
    unfold Cache.get. rewrite Hs, Ho'. cbn [Cache.expiresAt Cache.value].
    destruct (Z.gtb_spec (Cache.ttlSeconds opts) 0) as [Hpos|Hnp]; cbn [andb].
    + unfold Cache.gt_num.
      replace (t_get' >? t_set + Cache.ttlSeconds opts * 1000) with false
        by (symmetry; rewrite Z.gtb_ltb; apply Z.ltb_ge; lia).
      reflexivity.
    + reflexivity.
  - intros t_get' t_set' e Hpos Hlate.
    unfold listMyList. fold key. cbn [listCache with_cache].
    unfold Cache.get. rewrite Hs, Ho'. cbn [Cache.expiresAt Cache.value].
    replace (Cache.ttlSeconds opts >? 0) with true by (symmetry; apply Z.gtb_lt; lia).
    cbn [andb]. unfold Cache.gt_num.
    replace (t_get' >? t_set + Cache.ttlSeconds opts * 1000) with true
      by (symmetry; apply Z.gtb_lt; lia).
    destruct Hq as [q ->]. reflexivity.
Qed.

(** ** The shape of a page *)

Lemma firstn_app_exact {A : Type} (l1 l2 : list A) n :
  List.length l1 = n -> firstn n (l1 ++ l2) = l1.
Proof.
  intros <-. rewrite firstn_app, Nat.sub_diag, firstn_all. simpl. apply app_nil_r.
Qed.

Lemma fresh_page_shape (D : DateCodec) (collection : list Doc.t) (userId : string)
    (options : ListOptions) (q : FilterQuery) :
  1 <= limit options ->
  build_query D userId options = Ok q ->
  exists page,
    fresh_page D collection userId options = Ok page
    /\ items page
       = map toDTO (firstn (Z.to_nat (limit options))
                           (sort (filter (matches q) collection)))
    /\ (nextCursor page = None
        <-> Z.of_nat (List.length (filter (matches q) collection)) <= limit options).
Proof.
  intros Hlim Hq. unfold fresh_page, find. rewrite Hq.
  rewrite <- (Permutation_length (sort_perm (filter (matches q) collection))).
  set (B := sort (filter (matches q) collection)).
  destruct (le_lt_dec (List.length B) (Z.to_nat (limit options))) as [Hle|Hgt].
  - rewrite (page_of_last D _ Hlim B Hle). eexists. split; [reflexivity|].
    cbn [items nextCursor]. rewrite firstn_all2 by exact Hle.
    split; [reflexivity|]. split; [lia|reflexivity].
  - destruct (page_of_more D _ Hlim B Hgt) as (C & x & B' & E & HC & ->).
    eexists. split; [reflexivity|]. cbn [items nextCursor]. split.
    + rewrite E. replace (C ++ x :: B') with ((C ++ [x]) ++ B')
        by now rewrite <- app_assoc.
      now rewrite (firstn_app_exact _ _ _ HC).
    + split; [discriminate|lia].
Qed.

Lemma fresh_page_cursor (D : DateCodec) (collection : list Doc.t)
    (userId : string) (options : ListOptions) (page : ListCacheValue)
    (token : string) :
  1 <= limit options ->
  valid_ids collection ->
  fresh_page D collection userId options = Ok page ->
  nextCursor page = Some token ->
  exists init i c,
    items page = init ++ [i]
    /\ decodeCursor token = Ok c
    /\ forall u lim,
         build_query D u (mkListOptions lim (Some c))
         = Ok (mkQuery u (Some (DTO.addedAt i, DTO.contentId i))).
Proof.
  intros Hlim Hvalid. unfold fresh_page, find.
  destruct (build_query D userId options) as [q|]; [|discriminate].
  set (B := sort (filter (matches q) collection)).
  assert (HB : forall d, In d B -> In d collection).
  { intros d Hd. apply (Permutation_in _ (sort_perm _)) in Hd.
    now apply filter_In in Hd. }
  destruct (le_lt_dec (List.length B) (Z.to_nat (limit options))) as [Hle|Hgt].
  - rewrite (page_of_last D _ Hlim B Hle). intros [= <-]. discriminate.
  - destruct (page_of_more D _ Hlim B Hgt) as (C & x & B' & E & HC & ->).
    intros [= <-]. cbn [items nextCursor]. intros [= <-].
    assert (Hx : Doc.contentId x <> EmptyString).
    { unfold valid_ids in Hvalid. rewrite Forall_forall in Hvalid.
      apply Hvalid, HB. rewrite E. apply in_or_app. right. now left. }
    exists (map toDTO C), (toDTO x), (payload_object (cursor_payload D x)).
    split; [now rewrite map_app|]. split.
    + apply decodeCursor_encodeCursor; [apply toISOString_nonempty|exact Hx].
    + intros u lim. unfold build_query, payload_object, cursor_payload.
      cbn [cursor limit lookup CursorPayload.addedAt CursorPayload.contentId].
      change (String.eqb "addedAt" "addedAt") with true.
      change (String.eqb "addedAt" "contentId") with false.
      change (String.eqb "contentId" "contentId") with true.
      cbv iota. cbn [new_Date cast_string]. rewrite parse_toISOString. reflexivity.
Qed.

Lemma existsb_filter {A : Type} (f : A -> bool) l :
  existsb f l = match filter f l with [] => false | _ :: _ => true end.
Proof.
  induction l as [|a l IH]; simpl; [reflexivity|].
  destruct (f a); [reflexivity|exact IH].
Qed.

Lemma fresh_page_limit_zero (D : DateCodec) (collection : list Doc.t) (userId : string)
    (c : option JSON) (q : FilterQuery) :
  build_query D userId (mkListOptions 0 c) = Ok q ->
  fresh_page D collection userId (mkListOptions 0 c)
  = if existsb (matches q) collection
    then Throw (OtherError "TypeError")
    else Ok (mkPage [] None).
Proof.
  intros Hq. unfold fresh_page, find. rewrite Hq. cbn [limit].
  rewrite existsb_filter.
  pose proof (sort_perm (filter (matches q) collection)) as Hp.
  destruct (filter (matches q) collection) as [|d l].
  - reflexivity.
  - destruct (sort (d :: l)) as [|y B] eqn:E.
    + apply Permutation_nil in Hp. discriminate.
    + reflexivity.
Qed.

(** When the cache has no live entry for the key, [listMyList] gives the
    page computed from the store. *)
Lemma listMyList_computes D w userId options t_get t_set :
  fst (Cache.get (listCache w) (cacheKey userId options) t_get) = None ->
  fst (listMyList D w userId options t_get t_set None)
  = fresh_page D (my_list w) userId options.
Proof.
  intros H.
  destruct (Cache.get (listCache w) (cacheKey userId options) t_get) as [v cache1] eqn:Hg.
  simpl in H. subst v. rewrite (listMyList_miss _ _ _ _ _ _ _ Hg).
  now destruct (fresh_page D (my_list w) userId options).
Qed.

(** X14.  With a limit of one or more, and no cursor or a cursor of two
    strings whose [addedAt] is a date, [listMyList], when the cache has no
    live page for the request, returns the first [limit] of the matching
    rows in the order of the list, and the page comes without [nextCursor]
    exactly when no more than [limit] rows match. *)
Theorem page_shape (D : DateCodec) (w : World) (userId : string)
    (options : ListOptions) (q : FilterQuery) (t_get t_set : Z) :
  1 <= limit options ->
  issued (cursor options) ->
  build_query D userId options = Ok q ->
  fst (Cache.get (listCache w) (cacheKey userId options) t_get) = None ->
  exists page,
    fst (listMyList D w userId options t_get t_set None) = Ok page
    /\ items page
       = map toDTO (firstn (Z.to_nat (limit options))
                           (sort (filter (matches q) (my_list w))))
    /\ (nextCursor page = None
        <-> Z.of_nat (List.length (filter (matches q) (my_list w))) <= limit options).
Proof.
  intros Hlim _ Hq Hmiss. rewrite (listMyList_computes _ _ _ _ _ _ Hmiss).
  now apply fresh_page_shape.
Qed.

(** X15.  The [nextCursor] that [listMyList] computes for a page decodes,
    and the query it gives to the next call, of any user and limit, is
    bounded by the [addedAt] and the [contentId] of the last item of the
    page: the next page starts right after it. *)
Theorem next_cursor_resumes (D : DateCodec) (w : World)
    (userId : string) (options : ListOptions) (t_get t_set : Z)
    (page : ListCacheValue) (token : string) :
  1 <= limit options ->
  valid_ids (my_list w) ->
  fst (Cache.get (listCache w) (cacheKey userId options) t_get) = None ->
  fst (listMyList D w userId options t_get t_set None) = Ok page ->
  nextCursor page = Some token ->
  exists init i c,
    items page = init ++ [i]
    /\ decodeCursor token = Ok c
    /\ forall u lim,
         build_query D u (mkListOptions lim (Some c))
         = Ok (mkQuery u (Some (DTO.addedAt i, DTO.contentId i))).
Proof.
  intros Hlim Hvalid Hmiss. rewrite (listMyList_computes _ _ _ _ _ _ Hmiss).
  now apply fresh_page_cursor.
Qed.

(** X16.  Called with limit 0, which the schema of the controller
    refuses, and no cursor or a cursor of two strings whose [addedAt] is a
    date, [listMyList] returns the empty page when no row matches and
    throws a [TypeError] as soon as one does: it reads the last row of an
    empty slice. *)
Theorem limit_zero (D : DateCodec) (w : World) (userId : string)
    (c : option JSON) (q : FilterQuery) (t_get t_set : Z) :
  issued c ->
  build_query D userId (mkListOptions 0 c) = Ok q ->
  fst (Cache.get (listCache w) (cacheKey userId (mkListOptions 0 c)) t_get) = None ->
  fst (listMyList D w userId (mkListOptions 0 c) t_get t_set None)
  = if existsb (matches q) (my_list w)
    then Throw (OtherError "TypeError")
    else Ok (mkPage [] None).
Proof.
  intros _ Hq Hmiss. rewrite (listMyList_computes _ _ _ _ _ _ Hmiss).
  now apply fresh_page_limit_zero.
Qed.

(** ** The keys of the cache *)

Lemma String_inj c a b : String c a = String c b -> a = b.
Proof. now intros [= H]. Qed.

(** The key, laid out: the user id, the limit, then what [key_tail]
    writes for the cursor. *)
Lemma key_layout userId lim c :
  cacheKey userId (mkListOptions lim c)
  = String "{"
      (quote "userId" ++ String ":"
        (quote userId ++ String ","
          (quote "limit" ++ String ":" (number_to_string lim ++ key_tail c))))%string.
Proof.
  rewrite cacheKey_form. unfold key_prefix. cbn [append]. f_equal.
  repeat (rewrite append_assoc; cbn [append]). reflexivity.
Qed.

(** A run of characters that have a property, followed by one that has it
    not, is told apart from what follows it. *)
Lemma span_unique (P : ascii -> Prop) (s1 : string) : forall s2 c1 t1 c2 t2,
  (forall c, In c (list_ascii_of_string s1) -> P c) ->
  (forall c, In c (list_ascii_of_string s2) -> P c) ->
  ~ P c1 -> ~ P c2 ->
  (s1 ++ String c1 t1)%string = (s2 ++ String c2 t2)%string ->
  s1 = s2 /\ String c1 t1 = String c2 t2.
Proof.
  induction s1 as [|a s1 IH]; intros [|b s2] c1 t1 c2 t2 H1 H2 Hc1 Hc2; cbn [append].
  - intros H. now split.
  - intros [= E _]. subst. exfalso. apply Hc1, H2. now left.
  - intros [= E _]. subst. exfalso. apply Hc2, H1. now left.
  - intros [= E H]. subst.
    destruct (IH s2 c1 t1 c2 t2) as [E1 E2]; try assumption.
    + intros c Hc. apply H1. now right.
    + intros c Hc. apply H2. now right.
    + split; [now rewrite E1|exact E2].
Qed.

Lemma uint_chars d c :
  In c (list_ascii_of_string (NilEmpty.string_of_uint d)) ->
  c <> "}"%char /\ c <> ","%char.
Proof.
  induction d; simpl; intros H; [contradiction|..];
    (destruct H as [<-|H]; [split; discriminate|now apply IHd]).
Qed.

Lemma number_chars z c :
  In c (list_ascii_of_string (number_to_string z)) ->
  c <> "}"%char /\ c <> ","%char.
Proof.
  assert (Hnz : forall d, In c (list_ascii_of_string (NilZero.string_of_uint d)) ->
                          c <> "}"%char /\ c <> ","%char).
  { intros d. destruct d; try exact (uint_chars _ c).
    simpl. intros [<-|[]]. split; discriminate. }
  unfold number_to_string. destruct z as [|p|p]; cbn [Z.to_int NilZero.string_of_int].
  - apply Hnz.
  - apply Hnz.
  - cbn [list_ascii_of_string]. intros [<-|H]; [split; discriminate|now apply Hnz in H].
Qed.

Lemma number_to_string_inj a b : number_to_string a = number_to_string b -> a = b.
Proof.
  unfold number_to_string. intros H.
  assert (Hn : forall z, Z.to_int z <> Decimal.Pos Decimal.Nil
                         /\ Z.to_int z <> Decimal.Neg Decimal.Nil).
  { intros [|p|p]; simpl; split; try discriminate; intros [= E];
      now apply DecimalPos.Unsigned.to_uint_nonnil in E. }
  apply (f_equal NilZero.int_of_string) in H.
  rewrite !NilZero.isi in H by apply Hn.
  injection H as H. apply (f_equal Z.of_int) in H. now rewrite !DecimalZ.of_to in H.
Qed.

Lemma key_tail_head c :
  exists ch t, key_tail c = String ch t /\ (ch = "}"%char \/ ch = ","%char).
Proof.
  destruct c as [o|]; cbn [key_tail].
  - unfold cursor_member. cbn [append]. eexists; eexists. split; [reflexivity|now right].
  - eexists; eexists. split; [reflexivity|now left].
Qed.

(** The key tells the user, the limit, and what is written for the
    cursor. *)
Lemma cacheKey_parts (userId userId' : string) (lim lim' : Z) (c c' : option JSON) :
  cacheKey userId (mkListOptions lim c) = cacheKey userId' (mkListOptions lim' c') ->
  userId = userId' /\ lim = lim' /\ key_tail c = key_tail c'.
Proof.
  intros H0. rewrite !key_layout in H0.
  apply String_inj, append_inj_l, String_inj in H0.
  assert (Hu : userId = userId'
               /\ (number_to_string lim ++ key_tail c)%string
                  = (number_to_string lim' ++ key_tail c')%string).
  { match type of H0 with
    | (_ ++ ?r)%string = (_ ++ ?r')%string =>
        pose proof (parse_value_quote userId r 0) as E1;
        pose proof (parse_value_quote userId' r' 0) as E2;
        rewrite H0 in E1; rewrite E1 in E2;
        assert (Eu : userId = userId') by congruence;
        assert (ER : r = r') by congruence
    end.
    split; [exact Eu|]. now apply String_inj, append_inj_l, String_inj in ER. }
  destruct Hu as [<- Hn]. split; [reflexivity|].
  destruct (key_tail_head c) as (c1 & t1 & E1 & Hc1).
  destruct (key_tail_head c') as (c2 & t2 & E2 & Hc2).
  rewrite E1, E2 in Hn.
  apply (span_unique (fun ch => ch <> "}"%char /\ ch <> ","%char)) in Hn.
  - destruct Hn as [Hn Ht]. apply number_to_string_inj in Hn.
    split; [exact Hn|]. now rewrite E1, E2.
  - apply number_chars.
  - apply number_chars.
  - intros [N1 N2]. destruct Hc1; contradiction.
  - intros [N1 N2]. destruct Hc2; contradiction.
Qed.

(** X17.  The cache key tells the user and the limit, and among the
    cursors the service hands out it tells the cursor: a page cached for
    one user, limit and position is never the answer to a request for
    another. *)
Theorem cacheKey_injective (userId userId' : string) (lim lim' : Z)
    (c c' : option JSON) :
  cacheKey userId (mkListOptions lim c) = cacheKey userId' (mkListOptions lim' c') ->
  userId = userId' /\ lim = lim' /\ (issued c -> issued c' -> c = c').
Proof.
  intros H. destruct (cacheKey_parts _ _ _ _ _ _ H) as (<- & <- & _).
  split; [reflexivity|]. split; [reflexivity|].
  intros Hi Hi'. now apply (cacheKey_issued_inj userId lim).
Qed.

(** ** Reading one's writes *)

Lemma length_filter_filter {A : Type} (f g : A -> bool) l :
  (List.length (filter f (filter g l)) <= List.length (filter f l))%nat.
Proof.
  induction l as [|a l IH]; simpl; [lia|].
  destruct (g a), (f a) eqn:E; simpl; rewrite ?E; simpl; lia.
Qed.

(** X18.  After [addToMyList] returned, a client that pages through the
    list of the user, with any limit of one or more, is given the new item
    exactly once. *)
Theorem added_item_listed (D : DateCodec) (w : World) (userId contentId : string)
    (kind : ListableContentKind) (now : Z) (dto : DTO.t) (w1 : World)
    (lim : Z) (times : nat -> Z * Z) (fuel : nat) :
  1 <= lim ->
  unique_pairs (my_list w) ->
  valid_ids (my_list w) ->
  addToMyList w userId contentId kind now None None = (Ok dto, w1) ->
  (List.length (filter (owned userId) (my_list w)) + 1 < fuel)%nat ->
  exists pages w2,
    paginate D fuel w1 userId lim None times 0 = (Done pages, w2)
    /\ In dto (List.concat (map items pages))
    /\ NoDup (List.concat (map items pages)).
Proof.
  intros Hlim Hu Hv Hadd Hfuel.
  destruct (mutations_keep D w userId contentId kind now None None None Hu Hv)
    as [Ha _].
  cbv zeta in Ha. rewrite Hadd in Ha. cbn [fst snd] in Ha.
  destruct Ha as (Hu1 & Hv1 & Hco).
  apply ServiceMore.add_returns_inv in Hadd.
  destruct Hadd as (entry & _ & _ & _ & _ & _ & -> & Ew).
  set (d := Doc.mk userId contentId kind (content_title entry) (content_genres entry) now).
  assert (El : my_list w1 = my_list w ++ [d]) by now rewrite Ew.
  destruct (paginate_from D userId lim (my_list w1) times Hlim Hu1 Hv1 fuel
              (all_rows userId (my_list w1)) [] w1 None 0%nat)
    as (pages & w2 & Hrun & Hcat & _).
  - reflexivity.
  - now left.
  - now apply (Hco (toDTO d)).
  - reflexivity.
  - unfold all_rows. rewrite (Permutation_length (sort_perm _)), El, filter_app.
    rewrite length_app. cbn [filter]. unfold owned at 2. cbn [Doc.userId d].
    rewrite String.eqb_refl. simpl. lia.
  - exists pages, w2. split; [exact Hrun|]. rewrite Hcat. split.
    + change (DTO.mk userId contentId kind (content_title entry) (content_genres entry) now)
        with (toDTO d).
      apply in_map. apply all_rows_In. split; [|reflexivity].
      rewrite El. apply in_or_app. right. now left.
    + apply listed_before_NoDup, strictly_sorted_toDTO.
      now apply all_rows_strict.
Qed.

(** X19.  After [removeFromMyList] returned, a client that pages through
    the list of the user is given the other items of the user, and no
    item of the content removed. *)
Theorem removed_item_not_listed (D : DateCodec) (w : World)
    (userId contentId : string) (w1 : World)
    (lim : Z) (times : nat -> Z * Z) (fuel : nat) :
  1 <= lim ->
  unique_pairs (my_list w) ->
  valid_ids (my_list w) ->
  removeFromMyList w userId contentId None = (Ok tt, w1) ->
  (List.length (filter (owned userId) (my_list w)) < fuel)%nat ->
  exists pages w2,
    paginate D fuel w1 userId lim None times 0 = (Done pages, w2)
    /\ (forall i, In i (List.concat (map items pages)) -> DTO.contentId i <> contentId)
    /\ Permutation (List.concat (map items pages))
         (map toDTO
            (filter (fun d => owned userId d
                              && negb (String.eqb (Doc.contentId d) contentId))
                    (my_list w))).
Proof.
  intros Hlim Hu Hv Hrem Hfuel.
  destruct (mutations_keep D w userId contentId Movie 0 None None None Hu Hv)
    as [_ Hr].
  cbv zeta in Hr. rewrite Hrem in Hr. cbn [fst snd] in Hr.
  destruct Hr as (Hu1 & Hv1 & Hco).
  assert (El : my_list w1
               = filter (fun d => negb (same_pair userId contentId d)) (my_list w)).
  { unfold removeFromMyList in Hrem.
    rewrite (ServiceMore.deleteOne_filter _ _ _ Hu) in Hrem.
    destruct (existsb (same_pair userId contentId) (my_list w)); [|discriminate].
    cbn in Hrem. now injection Hrem as <-. }
  assert (Ef : filter (owned userId) (my_list w1)
               = filter (fun d => owned userId d
                                  && negb (String.eqb (Doc.contentId d) contentId))
                        (my_list w)).
  { rewrite El. clear. induction (my_list w) as [|d l IH]; [reflexivity|].
    cbn [filter]. unfold same_pair at 1, owned at 2.
    destruct (String.eqb (Doc.userId d) userId) eqn:Eo; cbn [andb negb].
    - destruct (String.eqb (Doc.contentId d) contentId); cbn [negb filter].
      + exact IH.
      + unfold owned at 1. rewrite Eo. now rewrite IH.
    - cbn [filter]. unfold owned at 1. rewrite Eo. exact IH. }
  destruct (paginate_from D userId lim (my_list w1) times Hlim Hu1 Hv1 fuel
              (all_rows userId (my_list w1)) [] w1 None 0%nat)
    as (pages & w2 & Hrun & Hcat & _).
  - reflexivity.
  - now left.
  - now apply Hco.
  - reflexivity.
  - unfold all_rows. rewrite (Permutation_length (sort_perm _)), El.
    pose proof (length_filter_filter (owned userId)
                  (fun d => negb (same_pair userId contentId d)) (my_list w)).
    lia.
  - exists pages, w2. split; [exact Hrun|]. rewrite Hcat.
    assert (Hp : Permutation (all_rows userId (my_list w1))
                   (filter (fun d => owned userId d
                                     && negb (String.eqb (Doc.contentId d) contentId))
                           (my_list w))).
    { unfold all_rows. rewrite <- Ef. apply sort_perm. }
    split; [|now apply Permutation_map].
    intros i Hi. apply (Permutation_in _ (Permutation_map toDTO Hp)) in Hi.
    apply in_map_iff in Hi. destruct Hi as (d & <- & Hd).
    apply filter_In in Hd. destruct Hd as [_ Hd].
    apply andb_true_iff in Hd. destruct Hd as [_ Hd].
    apply negb_true_iff, String.eqb_neq in Hd. exact Hd.
Qed.
(** *** Instances *)

Import MoreInstances.

Lemma list_after_mutation_witness :
  let w' := snd (removeFromMyList small_world "user-123" "movie-001" None) in
  removeFromMyList small_world "user-123" "movie-001" None = (Ok tt, w')
  /\ forall u options t_get t_set,
       fst (listMyList plainDates w' u options t_get t_set None)
       = fresh_page plainDates (my_list w') u options.
Proof.
  intros w'.
  assert (H : removeFromMyList small_world "user-123" "movie-001" None = (Ok tt, w'))
    by reflexivity.
  split; [exact H|].
  exact (list_after_mutation plainDates small_world "user-123" "movie-001" Movie 0
           None None None w' (or_intror H)).
Defined.

Lemma repeat_served_from_cache_witness :
  let options := mkListOptions 2 None in
  let r := listMyList plainDates small_world "user-123" options 0 5 None in
  Cache.reachable (Cache.mkOptions 30 100) (listCache small_world)
  /\ 1 <= 100
  /\ fst (Cache.get (listCache small_world) (cacheKey "user-123" options) 0) = None
  /\ forall t_get' t_set' fault,
       t_get' <= 30005 ->
       fst (listMyList plainDates (snd r) "user-123" options t_get' t_set' fault) = fst r.
Proof.
  intros options r.
  assert (H1 : Cache.reachable (Cache.mkOptions 30 100) (listCache small_world))
    by apply Cache.reach_new.
  assert (H2 : 1 <= Cache.maxItems (Cache.mkOptions 30 100)) by (simpl; lia).
  assert (H3 : fst (Cache.get (listCache small_world) (cacheKey "user-123" options) 0)
               = None) by reflexivity.
  assert (H4 : exists page, r = (Ok page, snd r)).
  { vm_compute. eexists. reflexivity. }
  split; [exact H1|]. split; [lia|]. split; [exact H3|].
  destruct H4 as [page H4]. intros t_get' t_set' fault Ht.
  rewrite H4 at 2. cbn [fst].
  apply (proj1 (repeat_served_from_cache plainDates (Cache.mkOptions 30 100) small_world
                  "user-123" options 0 5 page (snd r) H1 H2 H3 H4)).
  right. simpl. lia.
Defined.

Lemma page_shape_witness :
  let options := mkListOptions 2 None in
  1 <= limit options
  /\ issued (cursor options)
  /\ build_query plainDates "user-123" options = Ok (mkQuery "user-123" None)
  /\ fst (Cache.get (listCache small_world) (cacheKey "user-123" options) 0) = None
  /\ exists page,
       fst (listMyList plainDates small_world "user-123" options 0 0 None) = Ok page
       /\ List.length (items page) = 2%nat
       /\ nextCursor page <> None.
Proof.
  intros options.
  assert (H1 : 1 <= limit options) by (simpl; lia).
  assert (H0 : issued (cursor options)) by (left; reflexivity).
  assert (H2 : build_query plainDates "user-123" options = Ok (mkQuery "user-123" None))
    by reflexivity.
  assert (H3 : fst (Cache.get (listCache small_world) (cacheKey "user-123" options) 0)
               = None) by reflexivity.
  split; [exact H1|]. split; [exact H0|]. split; [exact H2|]. split; [exact H3|].
  destruct (page_shape plainDates small_world "user-123" options _ 0 0 H1 H0 H2 H3)
    as (page & Hp & Hi & Hn).
  exists page. split; [exact Hp|]. split.
  - rewrite Hi. reflexivity.
  - intros E. apply Hn in E. simpl in E. lia.
Defined.

Lemma next_cursor_resumes_witness :
  let options := mkListOptions 2 None in
  let page :=
    mkPage [DTO.mk "user-123" "movie-002" Movie "Movie Two" [] 3000;
            DTO.mk "user-123" "show-001" TVShow "Show One" ["SciFi"] 1000]
           (Some "eyJhZGRlZEF0IjoiVDEwMDAiLCJjb250ZW50SWQiOiJzaG93LTAwMSJ9") in
  fst (listMyList plainDates small_world "user-123" options 0 0 None) = Ok page
  /\ exists init i c,
       items page = init ++ [i]
       /\ decodeCursor "eyJhZGRlZEF0IjoiVDEwMDAiLCJjb250ZW50SWQiOiJzaG93LTAwMSJ9" = Ok c
       /\ forall u lim,
            build_query plainDates u (mkListOptions lim (Some c))
            = Ok (mkQuery u (Some (DTO.addedAt i, DTO.contentId i))).
Proof.
  intros options page.
  assert (H : fst (listMyList plainDates small_world "user-123" options 0 0 None)
              = Ok page) by (vm_compute; reflexivity).
  split; [exact H|].
  exact (next_cursor_resumes plainDates small_world "user-123" options 0 0 page _
           ltac:(simpl; lia) ServiceMore.valid_small_world eq_refl H eq_refl).
Defined.

Lemma limit_zero_witness :
  let c := Some (payload_object (CursorPayload.mk "T3000" "movie-002")) in
  issued c
  /\ build_query plainDates "user-123" (mkListOptions 0 c)
     = Ok (mkQuery "user-123" (Some (3000, "movie-002")))
  /\ fst (Cache.get (listCache small_world)
            (cacheKey "user-123" (mkListOptions 0 c)) 0) = None
  /\ fst (listMyList plainDates small_world "user-123" (mkListOptions 0 c) 0 0 None)
     = Throw (OtherError "TypeError").
Proof.
  intros c.
  assert (H0 : issued c) by (right; now eexists).
  assert (H1 : build_query plainDates "user-123" (mkListOptions 0 c)
               = Ok (mkQuery "user-123" (Some (3000, "movie-002")))) by reflexivity.
  assert (H2 : fst (Cache.get (listCache small_world)
                      (cacheKey "user-123" (mkListOptions 0 c)) 0) = None)
    by reflexivity.
  split; [exact H0|]. split; [exact H1|]. split; [exact H2|].
  exact (limit_zero plainDates small_world "user-123" c
           (mkQuery "user-123" (Some (3000, "movie-002"))) 0 0 H0 H1 H2).
Defined.

Lemma cacheKey_injective_witness :
  cacheKey "user-123" (mkListOptions 20 None) = cacheKey "user-123" (mkListOptions 20 None)
  /\ (issued None -> issued None -> @None JSON = None).
Proof.
  split; [reflexivity|].
  exact (proj2 (proj2 (cacheKey_injective "user-123" "user-123" 20 20 None None eq_refl))).
Defined.

Lemma added_item_listed_witness :
  let r := addToMyList catalogue_world "user-123" "movie-001" Movie 1000 None None in
  1 <= 2
  /\ unique_pairs (my_list catalogue_world)
  /\ valid_ids (my_list catalogue_world)
  /\ (List.length (filter (owned "user-123") (my_list catalogue_world)) + 1 < 3)%nat
  /\ exists pages w2,
       paginate plainDates 3 (snd r) "user-123" 2 None (fun _ => (0, 0)) 0
       = (Done pages, w2)
       /\ In (DTO.mk "user-123" "movie-001" Movie "Movie One" ["Action"] 1000)
             (List.concat (map items pages))
       /\ NoDup (List.concat (map items pages)).
Proof.
  intros r.
  assert (H1 : 1 <= 2) by lia.
  assert (H2 : unique_pairs (my_list catalogue_world)) by constructor.
  assert (H3 : valid_ids (my_list catalogue_world)) by constructor.
  assert (H4 : (List.length (filter (owned "user-123") (my_list catalogue_world)) + 1
                < 3)%nat) by (simpl; lia).
  repeat (split; [assumption|]).
  exact (added_item_listed plainDates catalogue_world "user-123" "movie-001" Movie 1000
           _ (snd r) 2 (fun _ => (0, 0)) 3 H1 H2 H3 eq_refl H4).
Defined.

Lemma removed_item_not_listed_witness :
  let w1 := snd (removeFromMyList small_world "user-123" "show-001" None) in
  1 <= 2
  /\ unique_pairs (my_list small_world)
  /\ valid_ids (my_list small_world)
  /\ (List.length (filter (owned "user-123") (my_list small_world)) < 4)%nat
  /\ exists pages w2,
       paginate plainDates 4 w1 "user-123" 2 None (fun _ => (0, 0)) 0 = (Done pages, w2)
       /\ forall i, In i (List.concat (map items pages)) -> DTO.contentId i <> "show-001".
Proof.
  intros w1.
  assert (H1 : 1 <= 2) by lia.
  assert (H4 : (List.length (filter (owned "user-123") (my_list small_world)) < 4)%nat)
    by (simpl; lia).
  split; [exact H1|]. split; [exact ServiceMore.unique_small_world|].
  split; [exact ServiceMore.valid_small_world|]. split; [exact H4|].
  destruct (removed_item_not_listed plainDates small_world "user-123" "show-001" w1 2
              (fun _ => (0, 0)) 4 H1 ServiceMore.unique_small_world
              ServiceMore.valid_small_world eq_refl H4)
    as (pages & w2 & Hrun & Hno & _).
  exists pages, w2. split; [exact Hrun|exact Hno].
Defined.

End ListingMore.

(* ================================================================== *)
(** * More on the handlers: what a client is answered *)
(* ================================================================== *)

Module HandlersMore.

Import JSON Service Controller Handlers Pagination CursorFacts ControllerFacts.

Lemma parse_param_Ok value u :
  parse_param value = Ok u -> u = value /\ value <> EmptyString.
Proof.
  unfold parse_param. destruct value as [|c rest]; [discriminate|].
  cbn [String.length].
  destruct (0 <? Z.of_nat (S (String.length rest))); [|discriminate].
  intros [= <-]. split; [reflexivity|discriminate].
Qed.

Lemma parse_param_nonempty value :
  value <> EmptyString -> parse_param value = Ok value.
Proof.
  unfold parse_param. destruct value as [|c rest]; [contradiction|]. intros _.
  cbn [String.length].
  now replace (0 <? Z.of_nat (S (String.length rest))) with true
    by (symmetry; apply Z.ltb_lt; lia).
Qed.

Lemma parse_param_Throw value e :
  parse_param value = Throw e -> e = ZodError.
Proof. unfold parse_param. destruct (0 <? _); [discriminate|now intros [= <-]]. Qed.

Lemma parse_add_body_Ok req contentId kind :
  parse_add_body req = Ok (contentId, kind) ->
  body_contentId req = Some contentId
  /\ contentId <> EmptyString
  /\ body_contentType req
     = Some (match kind with Movie => "Movie" | TVShow => "TVShow" end).
Proof.
  unfold parse_add_body.
  destruct (body_contentId req) as [cid|]; [|discriminate].
  destruct (body_contentType req) as [ct|]; [|discriminate].
  destruct cid as [|c rest]; [discriminate|]. cbn [String.length].
  destruct (0 <? Z.of_nat (S (String.length rest))); [|discriminate].
  destruct (String.eqb_spec ct "Movie") as [->|_].
  - intros [= <- <-]. repeat split. discriminate.
  - destruct (String.eqb_spec ct "TVShow") as [->|_]; [|discriminate].
    intros [= <- <-]. repeat split. discriminate.
Qed.

Lemma parse_add_body_Throw req e :
  parse_add_body req = Throw e -> e = ZodError.
Proof.
  unfold parse_add_body.
  destruct (body_contentId req) as [cid|]; [|now intros [= <-]].
  destruct (body_contentType req) as [ct|]; [|now intros [= <-]].
  destruct (0 <? _); [|now intros [= <-]].
  destruct (String.eqb ct "Movie"); [discriminate|].
  destruct (String.eqb ct "TVShow"); [discriminate|now intros [= <-]].
Qed.

(** Without a failure of the store, what [listMyList] throws is an error
    of the runtime or of the driver, not an [HttpError]. *)
Lemma listMyList_throws D w userId options t_get t_set e w' :
  listMyList D w userId options t_get t_set None = (Throw e, w') ->
  exists name, e = OtherError name.
Proof.
  unfold listMyList.
  destruct (Cache.get (listCache w) (cacheKey userId options) t_get) as [[v|] cache1];
    [discriminate|].
  unfold build_query.
  destruct (cursor options) as [[| | | | |props]|].
  1-5: intros [= <- _]; now eexists.
  - destruct (new_Date D (lookup "addedAt" props));
      [destruct (cast_string (lookup "contentId" props))|].
    2-3: intros [= <- _]; now eexists.
    unfold page_of. destruct (_ >? _).
    + destruct (last_row _); [discriminate|]. intros [= <- _]. now eexists.
    + discriminate.
  - unfold page_of. destruct (_ >? _).
    + destruct (last_row _); [discriminate|]. intros [= <- _]. now eexists.
    + discriminate.
Qed.

(** X20.  When the store does not fail, [GET /users/:userId/my-list] fails
    in two ways only: with status 400 and code [invalid_cursor], when the
    cursor given is not empty and [decodeCursor] rejects it, the state
    being left as it was; or with status 500 and code [internal_error].
    No request is answered [limit_too_large]. *)
Theorem list_handler_failures (D : DateCodec) (w : World) (req : Request)
    (t_get t_set : Z) (status : Z) (code : string) (w' : World) :
  handleListMyItems D w req t_get t_set None = (Failure status code, w') ->
  (status = 500 /\ code = "internal_error")
  \/ (status = 400 /\ code = "invalid_cursor" /\ w' = w
      /\ exists raw,
           query_cursor req = Some raw /\ raw <> EmptyString
           /\ decodeCursor raw = Throw invalid_cursor).
Proof.
  unfold handleListMyItems, handleListMyItems_body.
  unfold parse_userId.
  destruct (0 <? Z.of_nat (String.length (params_userId req)));
    [|intros [= <- <- _]; now left].
  destruct (parse_query req) as [[lim cur]|e] eqn:Eq.
  2:{ unfold parse_query in Eq.
      destruct (match query_limit req with Some s => Number s | None => JInt 20 end)
        as [|z]; [injection Eq as <-|].
      - intros [= <- <- _]; now left.
      - destruct ((0 <? z) && (z <=? 100)); [discriminate|]. injection Eq as <-.
        intros [= <- <- _]; now left. }
  assert (Ec : cur = query_cursor req).
  { unfold parse_query in Eq.
    destruct (match query_limit req with Some s => Number s | None => JInt 20 end)
      as [|z]; [discriminate|].
    destruct ((0 <? z) && (z <=? 100)); [|discriminate]. now injection Eq as _ <-. }
  rewrite (limit_guard_unreachable _ _ _ Eq).
  assert (Hlist : forall c,
            match listMyList D w (params_userId req) (mkListOptions lim c)
                    t_get t_set None with
            | (Ok result, w'0) => (Success 200 result, w'0)
            | (Throw e, w'0) => (errorHandler e, w'0)
            end = (Failure status code, w') ->
            status = 500 /\ code = "internal_error").
  { intros c.
    destruct (listMyList D w (params_userId req) (mkListOptions lim c) t_get t_set None)
      as [[page|e] w0] eqn:El; [discriminate|].
    apply listMyList_throws in El. destruct El as [name ->].
    intros [= <- <- _]. now split. }
  destruct cur as [raw|]; [|intros H; left; exact (Hlist _ H)].
  destruct (String.eqb_spec raw EmptyString) as [->|Hne];
    [intros H; left; exact (Hlist _ H)|].
  destruct (decodeCursor raw) as [c|e] eqn:Ed; [intros H; left; exact (Hlist _ H)|].
  apply decodeCursor_Throw in Ed as Ee. subst e.
  intros [= <- <- <-]. right. repeat split.
  exists raw. repeat split; [now symmetry|exact Hne|exact Ed].
Qed.

(** X21.  When the store does not fail, [POST /users/:userId/my-list] is
    answered with status 201 and the item added, whose user, content and
    kind are those of the request, or it is refused with 404
    [movie_not_found] for a movie, 404 [show_not_found] for a show, 409
    [already_in_list] or 500 [internal_error]; a request refused changes
    nothing. *)
Theorem add_handler_outcomes (w : World) (req : AddRequest) (now : Z) :
  match handleAddToMyList w req now None None with
  | (Sent status dto, w') =>
      status = 201
      /\ DTO.userId dto = add_userId req
      /\ body_contentId req = Some (DTO.contentId dto)
      /\ body_contentType req
         = Some (match DTO.contentType dto with
                 | Movie => "Movie"
                 | TVShow => "TVShow"
                 end)
      /\ DTO.addedAt dto = now
  | (Refused status code, w') =>
      w' = w
      /\ ((status = 404 /\ code = "movie_not_found"
           /\ body_contentType req = Some "Movie")
          \/ (status = 404 /\ code = "show_not_found"
              /\ body_contentType req = Some "TVShow")
          \/ (status = 409 /\ code = "already_in_list")
          \/ (status = 500 /\ code = "internal_error"))
  end.
Proof.
  unfold handleAddToMyList.
  destruct (parse_param (add_userId req)) as [userId|e] eqn:Eu.
  2:{ apply parse_param_Throw in Eu. subst e. cbn. split; [reflexivity|]. tauto. }
  apply parse_param_Ok in Eu. destruct Eu as [-> _].
  destruct (parse_add_body req) as [[contentId kind]|e] eqn:Eb.
  2:{ apply parse_add_body_Throw in Eb. subst e. cbn. split; [reflexivity|]. tauto. }
  apply parse_add_body_Ok in Eb. destruct Eb as (Hc & _ & Hk).
  unfold addToMyList, resolveContentMetadata.
  assert (Hcreate :
    forall title genres,
      match
        (let (r, w') :=
           match create (my_list w)
                   (Doc.mk (add_userId req) contentId kind title genres now) with
           | Ok collection =>
               (Ok (toDTO (Doc.mk (add_userId req) contentId kind title genres now)),
                invalidateCacheForUser (with_my_list w collection) (add_userId req))
           | Throw error =>
               if isDuplicateKeyError error
               then (Throw (HttpError
                              ("Content " ++ contentId ++ " already exists in the user's list")
                              409 "already_in_list"), w)
               else (Throw error, w)
           end in
         match r with
         | Ok result => (Sent 201 result, w')
         | Throw e => (refuse e, w')
         end)
      with
      | (Sent status dto, w') =>
          status = 201
          /\ DTO.userId dto = add_userId req
          /\ body_contentId req = Some (DTO.contentId dto)
          /\ body_contentType req
             = Some (match DTO.contentType dto with
                     | Movie => "Movie"
                     | TVShow => "TVShow"
                     end)
          /\ DTO.addedAt dto = now
      | (Refused status code, w') =>
          w' = w
          /\ ((status = 404 /\ code = "movie_not_found"
               /\ body_contentType req = Some "Movie")
              \/ (status = 404 /\ code = "show_not_found"
                  /\ body_contentType req = Some "TVShow")
              \/ (status = 409 /\ code = "already_in_list")
              \/ (status = 500 /\ code = "internal_error"))
      end).
  { intros title genres. unfold create.
    destruct (negb (validate _)); [cbn; split; [reflexivity|tauto]|].
    destruct (existsb _ (my_list w)); cbn; [split; [reflexivity|tauto]|].
    repeat split; assumption. }
  destruct kind.
  - destruct (findOne contentId (movies w)) as [entry|]; [apply Hcreate|].
    cbn. split; [reflexivity|]. left. now repeat split.
  - destruct (findOne contentId (tv_shows w)) as [entry|]; [apply Hcreate|].
    cbn. split; [reflexivity|]. right. left. now repeat split.
Qed.

(** X22.  A [POST /users/:userId/my-list] whose body the schema refuses,
    for a content id that is missing or empty or a content type that is
    neither [Movie] nor [TVShow], is answered with status 500 and code
    [internal_error], not with a 400, and changes nothing. *)
Theorem malformed_add_500 (w : World) (req : AddRequest) (now : Z)
    (fault_find fault_create : option Thrown) :
  body_contentId req = None
  \/ body_contentId req = Some EmptyString
  \/ (body_contentType req <> Some "Movie" /\ body_contentType req <> Some "TVShow") ->
  handleAddToMyList w req now fault_find fault_create
  = (Refused 500 "internal_error", w).
Proof.
  intros H. unfold handleAddToMyList.
  destruct (parse_param (add_userId req)) as [userId|e] eqn:Eu.
  2:{ apply parse_param_Throw in Eu. now subst e. }
  assert (Eb : parse_add_body req = Throw ZodError).
  { unfold parse_add_body.
    destruct (body_contentId req) as [cid|]; [|reflexivity].
    destruct (body_contentType req) as [ct|]; [|reflexivity].
    destruct H as [H|[H|[H1 H2]]]; [discriminate| |].
    - injection H as ->. reflexivity.
    - destruct (0 <? _); [|reflexivity].
      destruct (String.eqb_spec ct "Movie") as [->|_]; [contradiction|].
      destruct (String.eqb_spec ct "TVShow") as [->|_]; [contradiction|reflexivity]. }
  now rewrite Eb.
Qed.

(** X23.  Under the unique index, a [DELETE /users/:userId/my-list/:itemId]
    answered with status 204 has removed the item: the same request again
    is answered with status 404 and code [not_in_list], and changes
    nothing. *)
Theorem remove_handler_twice (w : World) (req : RemoveRequest) (w1 : World) :
  unique_pairs (my_list w) ->
  handleRemoveFromMyList w req None = (Sent 204 tt, w1) ->
  handleRemoveFromMyList w1 req None = (Refused 404 "not_in_list", w1).
Proof.
  intros Hu. unfold handleRemoveFromMyList.
  destruct (parse_param (remove_userId req)) as [userId|e];
    [|unfold refuse; destruct (errorHandler e); discriminate].
  destruct (parse_param (remove_itemId req)) as [itemId|e];
    [|unfold refuse; destruct (errorHandler e); discriminate].
  unfold removeFromMyList.
  rewrite (ServiceMore.deleteOne_filter _ _ _ Hu).
  destruct (existsb (same_pair userId itemId) (my_list w)); [|discriminate].
  cbn. intros [= <-]. cbn [my_list].
  assert (Hu1 : unique_pairs
                  (filter (fun d => negb (same_pair userId itemId d)) (my_list w))).
  { clear -Hu. unfold unique_pairs in *.
    induction (my_list w) as [|d l IH]; simpl; [constructor|].
    inversion Hu as [|? ? Hd Hu']; subst.
    destruct (same_pair userId itemId d); simpl; [now apply IH|].
    constructor; [|now apply IH]. intros Hin. apply Hd.
    apply in_map_iff in Hin. destruct Hin as (x & Hx & Hin).
    apply filter_In in Hin. apply in_map_iff. exists x. tauto. }
  rewrite (ServiceMore.deleteOne_filter _ _ _ Hu1).
  assert (E : existsb (same_pair userId itemId)
                (filter (fun d => negb (same_pair userId itemId d)) (my_list w)) = false).
  { apply ServiceMore.existsb_false. intros x Hx. apply filter_In in Hx.
    destruct Hx as [_ Hx]. now apply negb_true_iff in Hx. }
  rewrite E. reflexivity.
Qed.

Lemma encodeCursor_nonempty p : encodeCursor p <> EmptyString.
Proof.
  unfold encodeCursor.
  pose proof (stringify_payload p EmptyString) as H.
  destruct (stringify (payload_object p)) as [|c s]; [discriminate H|].
  unfold Base64.encode. cbn [list_ascii_of_string].
  destruct (list_ascii_of_string s) as [|b [|c2 l]]; discriminate.
Qed.

(** X24.  A cursor that [decodeCursor] accepts may still be useless: when
    its [addedAt] is not a date, the query cannot be built, and the
    request is answered with status 500 and code [internal_error] instead
    of the 400 of an invalid cursor. *)
Theorem bad_date_cursor_500 (D : DateCodec) (w : World) (req : Request)
    (lim : Z) (p : CursorPayload.t) (t_get t_set : Z) :
  params_userId req <> EmptyString ->
  parse_query req = Ok (lim, Some (encodeCursor p)) ->
  CursorPayload.addedAt p <> EmptyString ->
  CursorPayload.contentId p <> EmptyString ->
  parseDate D (CursorPayload.addedAt p) = None ->
  fst (Cache.get (listCache w)
         (cacheKey (params_userId req) (mkListOptions lim (Some (payload_object p))))
         t_get) = None ->
  fst (handleListMyItems D w req t_get t_set None) = Failure 500 "internal_error".
Proof.
  intros Hu Hq Ha Hc Hd Hmiss.
  unfold handleListMyItems, handleListMyItems_body, parse_userId.
  destruct (params_userId req) as [|ch u] eqn:Eu; [contradiction|].
  cbn [String.length].
  replace (0 <? Z.of_nat (S (String.length u))) with true
    by (symmetry; apply Z.ltb_lt; lia).
  rewrite Hq, (limit_guard_unreachable _ _ _ Hq).
  destruct (String.eqb_spec (encodeCursor p) EmptyString) as [E|_];
    [now apply encodeCursor_nonempty in E|].
  rewrite (decodeCursor_encodeCursor p Ha Hc).
  unfold listMyList.
  destruct (Cache.get (listCache w) _ t_get) as [v cache1]. simpl in Hmiss. subst v.
  unfold build_query, payload_object.
  cbn [cursor limit lookup].
  change (String.eqb "addedAt" "addedAt") with true.
  change (String.eqb "addedAt" "contentId") with false.
  change (String.eqb "contentId" "contentId") with true.
  cbv iota. cbn [new_Date cast_string]. rewrite Hd. reflexivity.
Qed.

(** *** Instances *)

Import Instances MoreInstances.

Lemma list_handler_failures_witness :
  handleListMyItems plainDates small_world (mkRequest "user-123" None (Some "abc")) 0 0 None
  = (Failure 400 "invalid_cursor", small_world)
  /\ ((400 = 500 /\ "invalid_cursor" = "internal_error")
      \/ (400 = 400 /\ "invalid_cursor" = "invalid_cursor" /\ small_world = small_world
          /\ exists raw,
               query_cursor (mkRequest "user-123" None (Some "abc")) = Some raw
               /\ raw <> EmptyString
               /\ decodeCursor raw = Throw invalid_cursor)).
Proof.
  assert (H : handleListMyItems plainDates small_world
                (mkRequest "user-123" None (Some "abc")) 0 0 None
              = (Failure 400 "invalid_cursor", small_world))
    by (vm_compute; reflexivity).
  split; [exact H|].
  exact (list_handler_failures plainDates small_world
           (mkRequest "user-123" None (Some "abc")) 0 0 400 "invalid_cursor" small_world H).
Defined.

Lemma malformed_add_500_witness :
  handleAddToMyList catalogue_world (mkAddRequest "user-123" (Some "movie-001") (Some "Film"))
    1000 None None
  = (Refused 500 "internal_error", catalogue_world).
Proof.
  apply malformed_add_500. right. right. simpl. split; discriminate.
Defined.

Lemma remove_handler_twice_witness :
  let req := mkRemoveRequest "user-123" "movie-001" in
  let w1 := snd (handleRemoveFromMyList small_world req None) in
  unique_pairs (my_list small_world)
  /\ handleRemoveFromMyList small_world req None = (Sent 204 tt, w1)
  /\ handleRemoveFromMyList w1 req None = (Refused 404 "not_in_list", w1).
Proof.
  intros req w1.
  assert (H : handleRemoveFromMyList small_world req None = (Sent 204 tt, w1))
    by reflexivity.
  split; [exact ServiceMore.unique_small_world|]. split; [exact H|].
  exact (remove_handler_twice small_world req w1 ServiceMore.unique_small_world H).
Defined.

Lemma bad_date_cursor_500_witness :
  let p := CursorPayload.mk "yesterday" "movie-001" in
  let req := mkRequest "user-123" None (Some (encodeCursor p)) in
  parseDate plainDates (CursorPayload.addedAt p) = None
  /\ decodeCursor (encodeCursor p) = Ok (payload_object p)
  /\ fst (handleListMyItems plainDates small_world req 0 0 None)
     = Failure 500 "internal_error".
Proof.
  intros p req.
  assert (Ha : CursorPayload.addedAt p <> EmptyString) by discriminate.
  assert (Hc : CursorPayload.contentId p <> EmptyString) by discriminate.
  split; [reflexivity|]. split; [exact (decodeCursor_encodeCursor p Ha Hc)|].
  exact (bad_date_cursor_500 plainDates small_world req 20 p 0 0
           ltac:(discriminate) eq_refl Ha Hc eq_refl eq_refl).
Defined.

End HandlersMore.

(* ================================================================== *)
(** * The cache key and the order of the cursor's properties *)
(* ================================================================== *)

Module KeyFacts.

Import JSON Service Pagination CursorObjects JSONFacts CursorFacts PaginationFacts ListingMore.

Lemma stringify_string_object fields :
  stringify (string_object fields) = String "{" (members fields ++ "}")%string.
Proof.
  unfold string_object. cbn [stringify].
  change (("{" ++ ?x)%string) with (String "{" x). f_equal. f_equal.
  induction fields as [|[k v] rest IH]; [reflexivity|].
  destruct rest as [|[k' v'] rest]; [reflexivity|].
  change (members ((k, v) :: (k', v') :: rest))
    with (quote k ++ ":" ++ quote v ++ "," ++ members ((k', v') :: rest))%string.
  rewrite <- IH. reflexivity.
Qed.

Lemma quote_inj a b x y :
  (quote a ++ x)%string = (quote b ++ y)%string -> a = b /\ x = y.
Proof.
  intros H.
  pose proof (parse_value_quote a x 0) as E1.
  pose proof (parse_value_quote b y 0) as E2.
  rewrite H in E1. rewrite E1 in E2. split; congruence.
Qed.

Lemma members_cons k v rest tail :
  (members ((k, v) :: rest) ++ tail)%string
  = (quote k ++ String ":"
       (quote v ++ match rest with
                   | [] => tail
                   | _ :: _ => String "," (members rest ++ tail)
                   end))%string.
Proof.
  destruct rest as [|[k' v'] rest].
  - cbn [members]. repeat (rewrite append_assoc; cbn [append]). reflexivity.
  - change (members ((k, v) :: (k', v') :: rest))
      with (quote k ++ ":" ++ quote v ++ "," ++ members ((k', v') :: rest))%string.
    repeat (rewrite append_assoc; cbn [append]). reflexivity.
Qed.

Lemma brace_not_quote k x r : String "}" r <> (quote k ++ x)%string.
Proof. rewrite quote_append. unfold dquote. discriminate. Qed.

(** The members written tell the properties, their values and their
    order. *)
Lemma members_inj fields1 : forall fields2 r1 r2,
  (members fields1 ++ String "}" r1)%string = (members fields2 ++ String "}" r2)%string ->
  fields1 = fields2 /\ r1 = r2.
Proof.
  induction fields1 as [|[k1 v1] rest1 IH]; intros [|[k2 v2] rest2] r1 r2.
  - cbn [members append]. intros H. apply String_inj in H. now split.
  - rewrite members_cons. cbn [members append]. intros H.
    now apply brace_not_quote in H.
  - rewrite members_cons. cbn [members append]. intros H. symmetry in H.
    now apply brace_not_quote in H.
  - rewrite !members_cons. intros H.
    apply quote_inj in H. destruct H as [<- H]. apply String_inj in H.
    apply quote_inj in H. destruct H as [<- H].
    destruct rest1 as [|p1 rest1], rest2 as [|p2 rest2].
    + apply String_inj in H. now split.
    + discriminate H.
    + discriminate H.
    + apply String_inj in H. apply IH in H. destruct H as [-> ->]. now split.
Qed.

Lemma cacheKey_string_object_inj userId userId' lim lim' fields fields' :
  cacheKey userId (mkListOptions lim (Some (string_object fields)))
  = cacheKey userId' (mkListOptions lim' (Some (string_object fields'))) ->
  userId = userId' /\ lim = lim' /\ fields = fields'.
Proof.
  intros H. apply cacheKey_parts in H. destruct H as (Hu & Hl & Ht).
  split; [exact Hu|]. split; [exact Hl|].
  cbn [key_tail] in Ht. apply append_inj_l in Ht.
  rewrite !stringify_string_object in Ht. cbn [append] in Ht.
  apply String_inj in Ht. rewrite !append_assoc in Ht. cbn [append] in Ht.
  now apply members_inj in Ht.
Qed.

(** ** Tokens that spell string properties *)

Lemma length_members fields :
  (List.length fields <= String.length (members fields))%nat.
Proof.
  induction fields as [|[k v] rest IH]; [simpl; lia|].
  destruct rest as [|p rest].
  - cbn [members]. rewrite !length_append. unfold quote. simpl. lia.
  - change (members ((k, v) :: p :: rest))
      with (quote k ++ ":" ++ quote v ++ "," ++ members (p :: rest))%string.
    rewrite !length_append. cbn [List.length] in *.
    change (String.length ":") with 1%nat. change (String.length ",") with 1%nat.
    lia.
Qed.

Lemma skip_ws_members p rest tail :
  skip_ws (members (p :: rest) ++ tail) = (members (p :: rest) ++ tail)%string.
Proof.
  destruct p as [k v]. rewrite members_cons, quote_append. reflexivity.
Qed.

Lemma lookup_field fields k v :
  NoDup (map fst fields) -> In (k, v) fields ->
  lookup k (map (fun kv => (fst kv, JString (snd kv))) fields) = Some (JString v).
Proof.
  induction fields as [|[k0 v0] rest IH]; simpl; [intros _ []|].
  intros Hnd [H|H]; inversion Hnd as [|? ? Hk Hnd']; subst.
  - injection H as -> ->. now rewrite String.eqb_refl.
  - destruct (String.eqb_spec k0 k) as [->|_]; [|now apply IH].
    exfalso. apply Hk. change k with (fst (k, v)). now apply in_map.
Qed.

(** The parser reads the members back in the order written, after those
    it has read already. *)
Lemma parse_members_fields rest_fields : forall done fuel tail,
  rest_fields <> [] ->
  ordinary (done ++ rest_fields) ->
  (List.length rest_fields < fuel)%nat ->
  parse_members fuel (members rest_fields ++ String "}" tail)
                (map (fun kv => (fst kv, JString (snd kv))) done)
  = Some (string_object (done ++ rest_fields), tail).
Proof.
  induction rest_fields as [|[k v] rest IH]; intros done fuel tail Hne Ho Hfuel;
    [contradiction|].
  destruct fuel as [|fuel]; [lia|]. cbn [List.length] in Hfuel.
  assert (Hdef : define k (JString v) (map (fun kv => (fst kv, JString (snd kv))) done)
                 = map (fun kv => (fst kv, JString (snd kv))) (done ++ [(k, v)])).
  { destruct Ho as [Hnd Hidx]. unfold define.
    assert (Hl : lookup k (map (fun kv => (fst kv, JString (snd kv))) done) = None).
    { apply lookup_None. rewrite map_map. cbn [fst].
      rewrite map_app in Hnd. apply NoDup_remove_2 in Hnd.
      intros Hin. apply Hnd. apply in_or_app. now left. }
    rewrite Hl. rewrite Forall_forall in Hidx.
    assert (Hi : array_index k = None)
      by (apply (Hidx (k, v)); apply in_or_app; right; now left).
    rewrite Hi. now rewrite map_app. }
  rewrite members_cons. destruct rest as [|p rest].
  - destruct fuel as [|fuel]; [lia|].
    rewrite (parse_member_close _ _ (JString v)) by apply parse_value_quote.
    rewrite Hdef. reflexivity.
  - destruct fuel as [|fuel]; [lia|].
    rewrite (parse_member_comma _ _ (JString v)) by apply parse_value_quote.
    rewrite skip_ws_members, Hdef.
    rewrite (IH (done ++ [(k, v)]) (S fuel) tail).
    + now rewrite <- app_assoc.
    + discriminate.
    + now rewrite <- app_assoc.
    + cbn [List.length] in *. lia.
Qed.

(** [JSON.parse] reads back what [JSON.stringify] wrote of an object with
    ordinary string properties, in the same order. *)
Lemma parse_string_object fields :
  ordinary fields ->
  parse (stringify (string_object fields)) = Some (string_object fields).
Proof.
  intros Ho. destruct fields as [|[k v] rest]; [reflexivity|].
  unfold parse. rewrite stringify_string_object. cbn [String.length].
  rewrite members_cons, parse_value_object, <- members_cons.
  rewrite (parse_members_fields ((k, v) :: rest) [] _ EmptyString).
  - reflexivity.
  - discriminate.
  - exact Ho.
  - rewrite length_append. pose proof (length_members ((k, v) :: rest)). lia.
Qed.

(** A token that spells ordinary string properties, a non-empty [addedAt]
    and a non-empty [contentId] among them, is accepted, and decoded to
    the object with the properties in the order of the token. *)
Lemma decodeCursor_string_object fields addedAt contentId :
  ordinary fields ->
  In ("addedAt", addedAt) fields -> addedAt <> EmptyString ->
  In ("contentId", contentId) fields -> contentId <> EmptyString ->
  decodeCursor (token_of (string_object fields)) = Ok (string_object fields).
Proof.
  intros Ho Ha Hane Hc Hcne. unfold decodeCursor, decodeCursor_try, token_of.
  rewrite Base64Facts.decode_encode, (parse_string_object _ Ho).
  unfold string_object. cbn [getProp].
  rewrite (lookup_field _ _ _ (proj1 Ho) Ha), (lookup_field _ _ _ (proj1 Ho) Hc).
  cbn [truthy]. apply String.eqb_neq in Hane, Hcne. rewrite Hane, Hcne. reflexivity.
Qed.

Lemma ordinary_two k1 v1 k2 v2 :
  k1 <> k2 -> array_index k1 = None -> array_index k2 = None ->
  ordinary [(k1, v1); (k2, v2)].
Proof.
  intros Hne H1 H2. split.
  - simpl. constructor; [intros [H|[]]; now apply Hne|].
    constructor; [intros []|constructor].
  - now repeat constructor.
Qed.

(** C3, as the code has it.  The cache key is the serialisation of the
    user, the limit and the cursor object as it was parsed.  A token that
    spells string properties, none twice and none an array index, with a
    non-empty [addedAt] and [contentId] among them, is accepted and decoded
    to the object with the properties in the order of the token; two
    requests with such cursors have the same key exactly when the user, the
    limit and the properties of the cursor, with their values and in their
    order, are the same.  The order counts: for every non-empty [addedAt]
    and [contentId], the token that spells [addedAt] first and the token
    that spells [contentId] first are both accepted, carry the same two
    values, and get two distinct keys for every user and limit. *)
Theorem cacheKey_same_order (userId userId' : string) (lim lim' : Z)
    (fields fields' : list (string * string)) :
  ordinary fields -> ordinary fields' ->
  (forall addedAt contentId,
     In ("addedAt", addedAt) fields -> addedAt <> EmptyString ->
     In ("contentId", contentId) fields -> contentId <> EmptyString ->
     decodeCursor (token_of (string_object fields)) = Ok (string_object fields))
  /\ (cacheKey userId (mkListOptions lim (Some (string_object fields)))
      = cacheKey userId' (mkListOptions lim' (Some (string_object fields')))
      <-> userId = userId' /\ lim = lim' /\ fields = fields')
  /\ forall addedAt contentId,
       addedAt <> EmptyString -> contentId <> EmptyString ->
       let o1 := string_object [("addedAt", addedAt); ("contentId", contentId)] in
       let o2 := string_object [("contentId", contentId); ("addedAt", addedAt)] in
       decodeCursor (token_of o1) = Ok o1
       /\ decodeCursor (token_of o2) = Ok o2
       /\ getProp o1 "addedAt" = getProp o2 "addedAt"
       /\ getProp o1 "contentId" = getProp o2 "contentId"
       /\ cacheKey userId (mkListOptions lim (Some o1))
          <> cacheKey userId (mkListOptions lim (Some o2)).
Proof.
  intros Ho Ho'. split; [|split].
  - intros addedAt contentId. now apply decodeCursor_string_object.
  - split; [apply cacheKey_string_object_inj|].
    now intros (-> & -> & ->).
  - intros addedAt contentId Ha Hc o1 o2.
    assert (O1 : ordinary [("addedAt", addedAt); ("contentId", contentId)])
      by (apply ordinary_two; [discriminate|reflexivity|reflexivity]).
    assert (O2 : ordinary [("contentId", contentId); ("addedAt", addedAt)])
      by (apply ordinary_two; [discriminate|reflexivity|reflexivity]).
    split.
    { apply (decodeCursor_string_object _ addedAt contentId O1); simpl; auto. }
    split.
    { apply (decodeCursor_string_object _ addedAt contentId O2); simpl; auto. }
    split; [reflexivity|]. split; [reflexivity|].
    intros H. apply cacheKey_string_object_inj in H.
    destruct H as (_ & _ & H). discriminate H.
Qed.

Lemma cacheKey_same_order_witness :
  let fields1 := [("addedAt", "A"); ("contentId", "C")] in
  let fields2 := [("contentId", "C"); ("addedAt", "A")] in
  ordinary fields1
  /\ ordinary fields2
  /\ token_of (string_object fields1) = "eyJhZGRlZEF0IjoiQSIsImNvbnRlbnRJZCI6IkMifQ=="
  /\ token_of (string_object fields2) = "eyJjb250ZW50SWQiOiJDIiwiYWRkZWRBdCI6IkEifQ=="
  /\ decodeCursor (token_of (string_object fields1)) = Ok (string_object fields1)
  /\ decodeCursor (token_of (string_object fields2)) = Ok (string_object fields2)
  /\ cacheKey "user-123" (mkListOptions 20 (Some (string_object fields1)))
     <> cacheKey "user-123" (mkListOptions 20 (Some (string_object fields2))).
Proof.
  intros fields1 fields2.
  assert (O1 : ordinary fields1)
    by (apply ordinary_two; [discriminate|reflexivity|reflexivity]).
  assert (O2 : ordinary fields2)
    by (apply ordinary_two; [discriminate|reflexivity|reflexivity]).
  split; [exact O1|]. split; [exact O2|].
  split; [reflexivity|]. split; [reflexivity|].
  destruct (cacheKey_same_order "user-123" "user-123" 20 20 fields1 fields2 O1 O2)
    as (_ & _ & H).
  destruct (H "A" "C" ltac:(discriminate) ltac:(discriminate))
    as (H1 & H2 & _ & _ & H3).
  split; [exact H1|]. split; [exact H2|exact H3].
Defined.

End KeyFacts.

(* ================================================================== *)
(** * The default limit of a list request *)
(* ================================================================== *)

Module DefaultLimitFacts.

Import JSON Service Controller Pagination Instances.
Import OrderFacts PaginationFacts ControllerFacts ListingMore.

(** A list request without [limit], from a user id that is not empty,
    reaches the service with limit 20 and the cursor as decoded. *)
Lemma no_limit_calls_listMyList_20 D w userId raw_cursor t_get t_set fault c :
  userId <> EmptyString ->
  (raw_cursor = None /\ c = None)
  \/ (raw_cursor = Some EmptyString /\ c = None)
  \/ (exists raw o, raw_cursor = Some raw /\ raw <> EmptyString
                    /\ decodeCursor raw = Ok o /\ c = Some o) ->
  handleListMyItems D w (mkRequest userId None raw_cursor) t_get t_set fault
  = match listMyList D w userId (mkListOptions 20 c) t_get t_set fault with
    | (Ok page, w') => (Success 200 page, w')
    | (Throw e, w') => (errorHandler e, w')
    end.
Proof.
  intros Hu Hc. unfold handleListMyItems, handleListMyItems_body, parse_userId.
  cbn [params_userId].
  destruct userId as [|ch u]; [contradiction|]. cbn [String.length].
  replace (0 <? Z.of_nat (S (String.length u))) with true
    by (symmetry; apply Z.ltb_lt; lia).
  unfold parse_query. cbn [query_limit query_cursor].
  change ((0 <? 20) && (20 <=? 100)) with true. cbv iota.
  change (20 >? 100) with false.
  destruct Hc as [[-> ->]|[[-> ->]|(raw & o & -> & Hne & Hd & ->)]].
  - reflexivity.
  - reflexivity.
  - apply String.eqb_neq in Hne. rewrite Hne, Hd. reflexivity.
Qed.

(** C10.  A list request without [limit] is handled as the same request
    with [limit=20]; when its user id is not empty, [listMyList] is called
    with limit 20 and the cursor as decoded, and the first page, computed
    from the store, holds the first twenty items of the user, with a
    [nextCursor] exactly when the user has more than twenty. *)
Theorem default_limit_20 (D : DateCodec) (w : World) (userId : string)
    (raw_cursor : option string) (t_get t_set : Z) :
  (forall fault,
     handleListMyItems D w (mkRequest userId None raw_cursor) t_get t_set fault
     = handleListMyItems D w (mkRequest userId (Some "20") raw_cursor) t_get t_set fault)
  /\ (userId <> EmptyString ->
      forall fault c,
        (raw_cursor = None /\ c = None)
        \/ (raw_cursor = Some EmptyString /\ c = None)
        \/ (exists raw o, raw_cursor = Some raw /\ raw <> EmptyString
                          /\ decodeCursor raw = Ok o /\ c = Some o) ->
        handleListMyItems D w (mkRequest userId None raw_cursor) t_get t_set fault
        = match listMyList D w userId (mkListOptions 20 c) t_get t_set fault with
          | (Ok page, w') => (Success 200 page, w')
          | (Throw e, w') => (errorHandler e, w')
          end)
  /\ (userId <> EmptyString ->
      raw_cursor = None ->
      fst (Cache.get (listCache w) (cacheKey userId (mkListOptions 20 None)) t_get)
      = None ->
      exists page w',
        handleListMyItems D w (mkRequest userId None raw_cursor) t_get t_set None
        = (Success 200 page, w')
        /\ items page = map toDTO (firstn 20 (all_rows userId (my_list w)))
        /\ (nextCursor page = None
            <-> (List.length (filter (owned userId) (my_list w)) <= 20)%nat)).
Proof.
  split; [reflexivity|]. split.
  - intros Hu fault c Hc. now apply no_limit_calls_listMyList_20.
  - intros Hu -> Hmiss.
    rewrite (no_limit_calls_listMyList_20 D w userId None t_get t_set None None Hu)
      by (left; now split).
    destruct (Cache.get (listCache w) (cacheKey userId (mkListOptions 20 None)) t_get)
      as [v cache1] eqn:Hg.
    simpl in Hmiss. subst v. rewrite (listMyList_miss _ _ _ _ _ _ _ Hg).
    destruct (fresh_page_shape D (my_list w) userId (mkListOptions 20 None)
                (mkQuery userId None) ltac:(simpl; lia) eq_refl)
      as (page & -> & Hitems & Hnext).
    eexists; eexists. split; [reflexivity|].
    cbn [limit] in Hitems, Hnext. rewrite rows_first in Hitems.
    split; [exact Hitems|].
    rewrite Hnext.
    rewrite (filter_ext _ _ (matches_owned userId)).
    fold (owned userId). lia.
Qed.

Lemma default_limit_20_witness :
  "user-123" <> EmptyString
  /\ handleListMyItems plainDates small_world (mkRequest "user-123" None None) 0 0 None
     = match listMyList plainDates small_world "user-123" (mkListOptions 20 None) 0 0 None with
       | (Ok page, w') => (Success 200 page, w')
       | (Throw e, w') => (errorHandler e, w')
       end.
Proof.
  assert (H : "user-123" <> EmptyString) by discriminate.
  split; [exact H|].
  exact (proj1 (proj2 (default_limit_20 plainDates small_world "user-123" None 0 0))
           H None None (or_introl (conj eq_refl eq_refl))).
Defined.

End DefaultLimitFacts.
